(** * voice_rag: the orchestration and streaming pipeline

    A shallow embedding of [backend/pipeline/orchestrator.py],
    [backend/pipeline/sessions.py] and [backend/pipeline/llm.py], with the
    properties the specification states about them.

    Python [str] values are sequences of Unicode code points; they are
    modelled as lists of code points.  The regular expressions of the source
    are kept as syntax trees and run by a backtracking matcher that follows
    the order in which Python's [re] explores alternatives. *)

From Stdlib Require Import NArith ZArith List Bool Ascii String DecimalString Lia.
From stdpp Require Import base option list strings gmap.

Local Open Scope nat_scope.

(** ** Characters and strings *)

Definition char := N.
Definition str := list char.
Bind Scope N_scope with char.

Definition chr (a : ascii) : char := N_of_ascii a.

(** [py "abc"] is the Python string literal ["abc"]. *)
Definition py (s : string) : str := List.map chr (list_ascii_of_string s).

Definition in_range (lo hi c : char) : bool := ((lo <=? c) && (c <=? hi))%N.

Definition char_in (c : char) (l : list char) : bool := existsb (N.eqb c) l.

(** [str.isspace] on one code point, which is also what [\s] matches in a
    [str] pattern: the white-space code points of the Unicode database. *)
Definition is_space (c : char) : bool :=
  in_range 9 13 c || in_range 28 31 c ||
  char_in c [32; 133; 160; 5760; 8232; 8233; 8239; 8287; 12288]%N ||
  in_range 8192 8202 c.

Definition is_ascii_upper (c : char) : bool := in_range 65 90 c.
Definition is_ascii_lower (c : char) : bool := in_range 97 122 c.
Definition is_ascii_alpha (c : char) : bool := is_ascii_upper c || is_ascii_lower c.
Definition is_ascii_digit (c : char) : bool := in_range 48 57 c.

(** The part of the Unicode database the source relies on through [\w],
    [\d], [int] and [str.lower], for the code points above U+007F.  The
    tables belong to the Python runtime, not to the repository; the model is
    parametric in them. *)
Class Unicode := {
  uni_alnum : char -> bool;           (* str.isalnum above U+007F *)
  uni_decimal : char -> option N;     (* value of a decimal digit above U+007F *)
  uni_lower : char -> list char       (* str.lower of one code point above U+007F *)
}.

(** A database in which no code point above U+007F is alphanumeric. *)
Definition ascii_db : Unicode :=
  {| uni_alnum := fun _ => false;
     uni_decimal := fun _ => None;
     uni_lower := fun c => [c] |}.

Section Classes.
Context `{U : Unicode}.

(** The value of a decimal digit, [None] for other code points. *)
Definition digit_value (c : char) : option N :=
  if (c <? 128)%N then (if is_ascii_digit c then Some (c - 48)%N else None)
  else uni_decimal c.

(** [\d] *)
Definition is_digit (c : char) : bool :=
  match digit_value c with Some _ => true | None => false end.

(** [\w] *)
Definition is_word (c : char) : bool :=
  if (c <? 128)%N then is_ascii_alpha c || is_ascii_digit c || (c =? 95)%N
  else uni_alnum c.

(** [str.lower] *)
Definition lower_char (c : char) : list char :=
  if (c <? 128)%N then [if is_ascii_upper c then (c + 32)%N else c]
  else uni_lower c.

Definition lower (s : str) : str := flat_map lower_char s.
End Classes.

(** *** [str.strip], [str.split] and substring search *)

Fixpoint drop_while (p : char -> bool) (s : str) : str :=
  match s with
  | [] => []
  | c :: s' => if p c then drop_while p s' else s
  end.

Definition lstrip (s : str) : str := drop_while is_space s.
Definition rstrip (s : str) : str := rev (drop_while is_space (rev s)).

(** [s.strip()] *)
Definition strip (s : str) : str := rstrip (lstrip s).

(** Truthiness of a Python string. *)
Definition nonempty (s : str) : bool :=
  match s with [] => false | _ :: _ => true end.

Fixpoint str_eqb (a b : str) : bool :=
  match a, b with
  | [], [] => true
  | x :: a', y :: b' => (x =? y)%N && str_eqb a' b'
  | _, _ => false
  end.

Fixpoint starts_with (sep s : str) : bool :=
  match sep, s with
  | [], _ => true
  | x :: sep', y :: s' => (x =? y)%N && starts_with sep' s'
  | _ :: _, [] => false
  end.

(** [s.find(sep)]: the index of the first occurrence of [sep]. *)
Fixpoint find (sep s : str) : option nat :=
  if starts_with sep s then Some 0
  else match s with
       | [] => None
       | _ :: s' => option_map S (find sep s')
       end.

(** [sep in s] *)
Definition contains (sep s : str) : bool :=
  match find sep s with Some _ => true | None => false end.

(** [s.split(sep, 1)] when [sep] occurs in [s]: the text before the first
    occurrence and the text after it. *)
Definition split_once (sep s : str) : option (str * str) :=
  match find sep s with
  | Some i => Some (take i s, drop (i + length sep) s)
  | None => None
  end.

(** [s.split()]: the maximal runs of non-space characters. *)
Fixpoint split_ws_aux (cur : str) (s : str) : list str :=
  match s with
  | [] => if nonempty cur then [rev cur] else []
  | c :: s' =>
      if is_space c
      then (if nonempty cur then rev cur :: split_ws_aux [] s' else split_ws_aux [] s')
      else split_ws_aux (c :: cur) s'
  end.

Definition split_ws (s : str) : list str := split_ws_aux [] s.


(** ** Regular expressions

    The patterns of the source are written down as syntax trees:
    [Seq]/[Alt]/[Star] for concatenation, [|] and the repetitions, [Group n]
    for the n-th capturing group, [Ahead] for [(?=...)], [Behind] for a
    one-character [(?<=[...])], [Eos] for [$] and [WordB] for [\b]. *)

Inductive cclass :=
| Lit (c : char)                (* a literal character *)
| LitI (c : char)               (* a literal character under re.IGNORECASE *)
| Range (lo hi : char)          (* lo-hi inside a set *)
| OneOf (l : list char)         (* [...] of single characters *)
| Space                         (* \s *)
| Digit                         (* \d *)
| Word                          (* \w *)
| Dot                           (* . without re.DOTALL *)
| Union (a b : cclass).

Inductive regex :=
| Eps
| Cls (k : cclass)
| Seq (r1 r2 : regex)
| Alt (r1 r2 : regex)
| Star (greedy : bool) (r : regex)
| Group (n : nat) (r : regex)
| Ahead (r : regex)
| Behind (k : cclass)
| Eos
| WordB.

(** The code points an ASCII literal matches under [re.IGNORECASE]: both
    cases of a letter and, for [i], [s] and [k], the non-ASCII code points
    that case-fold to them (U+0130, U+0131, U+017F, U+212A). *)
Definition case_variants (c : char) : list char :=
  if is_ascii_alpha c then
    let lo := if is_ascii_upper c then (c + 32)%N else c in
    lo :: (lo - 32)%N ::
      (if (lo =? 105)%N then [304; 305]
       else if (lo =? 115)%N then [383]
       else if (lo =? 107)%N then [8490]
       else [])%N
  else [c].

(** A position inside a string: the text before it (nearest character
    first), the text after it, and the spans of the groups matched so far
    (latest first). *)
Record mstate := MState {
  before : list char;
  after : list char;
  caps : list (nat * (nat * nat))
}.

Definition pos (st : mstate) : nat := length (before st).

Definition set_cap (n a b : nat) (st : mstate) : mstate :=
  MState (before st) (after st) ((n, (a, b)) :: caps st).

Definition with_caps (st : mstate) (cs : list (nat * (nat * nat))) : mstate :=
  MState (before st) (after st) cs.

Fixpoint cap_lookup (n : nat) (cs : list (nat * (nat * nat))) : option (nat * nat) :=
  match cs with
  | [] => None
  | (m, span) :: cs' => if Nat.eqb m n then Some span else cap_lookup n cs'
  end.

Definition cont := mstate -> option mstate.

(** Repetition of [body], which must consume at least one character per
    round.  Greedy repetition tries one more round before trying the rest of
    the pattern, lazy repetition the other way round. *)
Fixpoint star_loop (body : mstate -> cont -> option mstate) (greedy : bool)
    (fuel : nat) (st : mstate) (k : cont) : option mstate :=
  match fuel with
  | 0 => k st
  | S fuel' =>
      if greedy then
        match body st (fun st' =>
                 if length (after st') <? length (after st)
                 then star_loop body greedy fuel' st' k else None) with
        | Some res => Some res
        | None => k st
        end
      else
        match k st with
        | Some res => Some res
        | None => body st (fun st' =>
                    if length (after st') <? length (after st)
                    then star_loop body greedy fuel' st' k else None)
        end
  end.

Section Matcher.
Context `{U : Unicode}.

Fixpoint cls_match (k : cclass) (c : char) : bool :=
  match k with
  | Lit x => (c =? x)%N
  | LitI x => char_in c (case_variants x)
  | Range lo hi => in_range lo hi c
  | OneOf l => char_in c l
  | Space => is_space c
  | Digit => is_digit c
  | Word => is_word c
  | Dot => negb (c =? 10)%N
  | Union a b => cls_match a c || cls_match b c
  end.

(** [\b]: exactly one of the two neighbours is a word character. *)
Definition at_word_boundary (st : mstate) : bool :=
  xorb (match before st with c :: _ => is_word c | [] => false end)
       (match after st with c :: _ => is_word c | [] => false end).

(** [$]: at the end of the string or just before a final newline. *)
Definition at_end (st : mstate) : bool :=
  match after st with
  | [] => true
  | [c] => (c =? 10)%N
  | _ => false
  end.

(** The backtracking matcher: [rmatch r st k] matches [r] at [st] and
    hands every way of doing so, in Python's order of preference, to the
    rest of the pattern [k], until one succeeds. *)
Fixpoint rmatch (r : regex) (st : mstate) (k : cont) {struct r} : option mstate :=
  match r with
  | Eps => k st
  | Cls c =>
      match after st with
      | x :: rest =>
          if cls_match c x then k (MState (x :: before st) rest (caps st)) else None
      | [] => None
      end
  | Seq r1 r2 => rmatch r1 st (fun st1 => rmatch r2 st1 k)
  | Alt r1 r2 =>
      match rmatch r1 st k with
      | Some res => Some res
      | None => rmatch r2 st k
      end
  | Star g r' => star_loop (rmatch r') g (S (length (after st))) st k
  | Group n r' => rmatch r' st (fun st' => k (set_cap n (pos st) (pos st') st'))
  | Ahead r' =>
      match rmatch r' st Some with
      | Some st' => k (with_caps st (caps st'))
      | None => None
      end
  | Behind c =>
      match before st with
      | x :: _ => if cls_match c x then k st else None
      | [] => None
      end
  | Eos => if at_end st then k st else None
  | WordB => if at_word_boundary st then k st else None
  end.

(** A match object: the string, the span of the match, the group spans. *)
Record match_obj := MatchObj {
  m_string : str;
  m_start : nat;
  m_end : nat;
  m_caps : list (nat * (nat * nat))
}.

(** [m.group(n)], [None] when group [n] took no part in the match. *)
Definition group (m : match_obj) (n : nat) : option str :=
  match cap_lookup n (m_caps m) with
  | Some (a, b) => Some (take (b - a) (drop a (m_string m)))
  | None => None
  end.

(** Try the pattern at the current position, then one character further,
    and so on: the leftmost match wins. *)
Fixpoint scan (r : regex) (s : str) (pre suf : list char) : option match_obj :=
  match rmatch r (MState pre suf []) Some with
  | Some st' => Some (MatchObj s (length pre) (pos st') (caps st'))
  | None =>
      match suf with
      | [] => None
      | c :: suf' => scan r s (c :: pre) suf'
      end
  end.

(** [pattern.search(s, start)] *)
Definition search (r : regex) (s : str) (start : nat) : option match_obj :=
  scan r s (rev (take start s)) (drop start s).

(** [pattern.finditer(s)]: successive non-overlapping matches. *)
Fixpoint finditer_from (fuel : nat) (r : regex) (s : str) (start : nat)
    : list match_obj :=
  match fuel with
  | 0 => []
  | S fuel' =>
      if length s <? start then []
      else match search r s start with
           | None => []
           | Some m =>
               m :: finditer_from fuel' r s
                      (if m_start m <? m_end m then m_end m else S (m_end m))
           end
  end.

Definition finditer (r : regex) (s : str) : list match_obj :=
  finditer_from (S (S (length s))) r s 0.
End Matcher.

(** *** Writing patterns *)

(** [r+], [r?] and their building blocks. *)
Definition Plus (r : regex) : regex := Seq r (Star true r).
Definition Opt (r : regex) : regex := Alt r Eps.

Fixpoint seq_of (l : list regex) : regex :=
  match l with
  | [] => Eps
  | [r] => r
  | r :: l' => Seq r (seq_of l')
  end.

Fixpoint alt_of (l : list regex) : regex :=
  match l with
  | [] => Eps
  | [r] => r
  | r :: l' => Alt r (alt_of l')
  end.

(** A literal word under [re.IGNORECASE]. *)
Definition word_i (w : string) : regex :=
  seq_of (List.map (fun c => Cls (LitI c)) (py w)).

(** ** orchestrator.py: the patterns *)

Definition ws1 : regex := Plus (Cls Space).                    (* \s+ *)
Definition digits1 : regex := Plus (Cls Digit).                (* \d+ *)
Definition number_opt : regex := Opt (Seq (word_i "number") ws1). (* (?:number\s+)? *)

(** [_PAGE_REQUEST_RE], compiled with [re.IGNORECASE]. *)
Definition _PAGE_REQUEST_RE : regex :=
  Seq
    (alt_of
       [ seq_of [ alt_of [word_i "read"; word_i "show"; word_i "get";
                          word_i "give"; word_i "tell"];
                  Opt (Seq ws1 (word_i "me"));
                  Opt (Seq ws1 (word_i "about"));
                  ws1; word_i "page"; ws1; number_opt; Group 1 digits1 ];
         seq_of [ word_i "what";
                  Alt (Seq ws1 (word_i "is")) (Seq (Cls Dot) (word_i "s"));
                  ws1; word_i "on"; ws1; word_i "page"; ws1; number_opt;
                  Group 2 digits1 ];
         seq_of [ word_i "page"; ws1; number_opt; Group 3 digits1;
                  Star false (Cls Dot);
                  alt_of [word_i "read"; word_i "show"; word_i "get";
                          word_i "content"; word_i "text"; word_i "what"] ] ])
    (Opt (seq_of [ ws1; alt_of [word_i "of"; word_i "from"; word_i "in"]; ws1;
                   Group 4 (Plus (Cls Dot)) ])).

Definition _ABBREVIATIONS : list str :=
  List.map py
    [ "Mr"; "Mrs"; "Ms"; "Dr"; "Prof"; "Sr"; "Jr"; "St"; "Ave"; "Blvd";
      "Dept"; "Est"; "Fig"; "Gen"; "Gov"; "Sgt"; "Corp"; "Inc"; "Ltd"; "Co";
      "vs"; "etc"; "approx"; "dept"; "est"; "min"; "max"; "misc"; "tech" ]%string.

(** [(?<=[.!?])\s+(?=[A-Z...])], where the set after [A-Z] also holds the
    double quote U+0022 and the left double quotation mark U+201C. *)
Definition _SENTENCE_END_RE : regex :=
  seq_of [ Behind (OneOf (py ".!?")); ws1;
           Ahead (Cls (Union (Range (chr "A") (chr "Z")) (OneOf [34; 8220]%N))) ].

(** [(\w+)\.$], the pattern of the abbreviation check. *)
Definition last_word_re : regex :=
  seq_of [ Group 1 (Plus (Cls Word)); Cls (Lit (chr ".")); Eos ].

(** [\b[A-Z]\.$] *)
Definition _SINGLE_LETTER_ABBR_RE : regex :=
  seq_of [ WordB; Cls (Range (chr "A") (chr "Z")); Cls (Lit (chr ".")); Eos ].

(** [\d\.$] *)
Definition _DECIMAL_END_RE : regex :=
  seq_of [ Cls Digit; Cls (Lit (chr ".")); Eos ].

(** [[,;:]\s+(?=[A-Za-z])] *)
Definition _CLAUSE_SPLIT_RE : regex :=
  seq_of [ Cls (OneOf (py ",;:")); ws1;
           Ahead (Cls (Union (Range (chr "A") (chr "Z")) (Range (chr "a") (chr "z")))) ].

Definition MIN_SENTENCE_LENGTH : nat := 20.
Definition MAX_BUFFER_LENGTH : nat := 500.

(** ** orchestrator.py: [SentenceBuffer] *)

Record SentenceBuffer := { _buffer : str }.

(** [SentenceBuffer()] *)
Definition new_buffer : SentenceBuffer := {| _buffer := [] |}.

Definition NLNL : str := [10; 10]%N.

(** [sentences.append(s)] behind [if s:]. *)
Definition append_if (sentences : list str) (s : str) : list str :=
  if nonempty s then sentences ++ [s] else sentences.

Section Segmenter.
Context `{U : Unicode}.

(** The loop [while "\n\n" in self._buffer].  Every round shortens the
    buffer, so [length buffer] rounds are enough; [None] stands for a loop
    that has not finished within its fuel. *)
Fixpoint paragraph_loop (fuel : nat) (buffer : str) (sentences : list str)
    : option (str * list str) :=
  match split_once NLNL buffer with
  | None => Some (buffer, sentences)
  | Some (before, after) =>
      match fuel with
      | 0 => None
      | S fuel' => paragraph_loop fuel' after (append_if sentences (strip before))
      end
  end.

(** [last_word_match and last_word_match.group(1) in _ABBREVIATIONS] *)
Definition ends_with_abbreviation (candidate : str) : bool :=
  match search last_word_re candidate 0 with
  | Some m =>
      match group m 1 with
      | Some w => existsb (str_eqb w) _ABBREVIATIONS
      | None => false
      end
  | None => false
  end.

Definition found (r : regex) (s : str) : bool :=
  match search r s 0 with Some _ => true | None => false end.

(** The loop [while True] over the sentence ends, with the buffer, the
    position [search_start] and the sentences found so far as its state. *)
Fixpoint sentence_loop (fuel : nat) (buffer : str) (search_start : nat)
    (sentences : list str) : option (str * list str) :=
  match fuel with
  | 0 => None
  | S fuel' =>
      match search _SENTENCE_END_RE buffer search_start with
      | None => Some (buffer, sentences)
      | Some m =>
          let candidate := strip (take (m_start m) buffer) in
          if ends_with_abbreviation candidate then
            sentence_loop fuel' buffer (m_end m) sentences
          else if found _SINGLE_LETTER_ABBR_RE candidate then
            sentence_loop fuel' buffer (m_end m) sentences
          else if found _DECIMAL_END_RE candidate then
            sentence_loop fuel' buffer (m_end m) sentences
          else if length candidate <? MIN_SENTENCE_LENGTH then
            sentence_loop fuel' buffer (m_end m) sentences
          else
            sentence_loop fuel' (drop (m_end m) buffer) 0 (sentences ++ [candidate])
      end
  end.

(** The block [if len(self._buffer) > MAX_BUFFER_LENGTH]. *)
Definition force_split (buffer : str) (sentences : list str) : str * list str :=
  if MAX_BUFFER_LENGTH <? length buffer then
    match last (finditer _CLAUSE_SPLIT_RE buffer) with
    | Some last_match =>
        let split_pos := m_start last_match + 1 in
        let sentence := strip (take split_pos buffer) in
        (drop (m_end last_match) buffer, append_if sentences sentence)
    | None => (buffer, sentences)
    end
  else (buffer, sentences).

(** The buffer and the sentences after the paragraph and sentence passes
    of [add]. *)
Definition add_passes (self : SentenceBuffer) (token : str)
    : option (str * list str) :=
  let buffer := _buffer self ++ token in
  match paragraph_loop (length buffer) buffer [] with
  | Some (buffer1, sentences1) =>
      sentence_loop (S (length buffer1) * S (length buffer1)) buffer1 0 sentences1
  | None => None
  end.

(** [SentenceBuffer.add]: the new state of the object and the list it
    returns. *)
Definition add (self : SentenceBuffer) (token : str)
    : option (SentenceBuffer * list str) :=
  match add_passes self token with
  | Some (buffer2, sentences2) =>
      let '(buffer3, sentences3) := force_split buffer2 sentences2 in
      Some ({| _buffer := buffer3 |}, sentences3)
  | None => None
  end.

(** [SentenceBuffer.flush] *)
Definition flush (self : SentenceBuffer) : SentenceBuffer * option str :=
  let remaining := strip (_buffer self) in
  ({| _buffer := [] |}, if nonempty remaining then Some remaining else None).
End Segmenter.

(** ** What a match is

    [Matches r st st'] holds when [r] can match from position [st] to
    position [st'].  The matcher only answers with such matches. *)

Section MatchRelation.
Context `{U : Unicode}.

Inductive Matches : regex -> mstate -> mstate -> Prop :=
| M_eps st : Matches Eps st st
| M_cls c x pre suf cs :
    cls_match c x = true ->
    Matches (Cls c) (MState pre (x :: suf) cs) (MState (x :: pre) suf cs)
| M_seq r1 r2 st1 st2 st3 :
    Matches r1 st1 st2 -> Matches r2 st2 st3 -> Matches (Seq r1 r2) st1 st3
| M_alt_l r1 r2 st st' : Matches r1 st st' -> Matches (Alt r1 r2) st st'
| M_alt_r r1 r2 st st' : Matches r2 st st' -> Matches (Alt r1 r2) st st'
| M_star_stop g r st : Matches (Star g r) st st
| M_star_more g r st1 st2 st3 :
    Matches r st1 st2 -> Matches (Star g r) st2 st3 -> Matches (Star g r) st1 st3
| M_group n r st st' :
    Matches r st st' -> Matches (Group n r) st (set_cap n (pos st) (pos st') st')
| M_ahead r st st' :
    Matches r st st' -> Matches (Ahead r) st (with_caps st (caps st'))
| M_behind c x pre suf cs :
    cls_match c x = true ->
    Matches (Behind c) (MState (x :: pre) suf cs) (MState (x :: pre) suf cs)
| M_eos st : at_end st = true -> Matches Eos st st
| M_wordb st : at_word_boundary st = true -> Matches WordB st st.

Definition sound_body (r : regex) (body : mstate -> cont -> option mstate) : Prop :=
  forall st k res, body st k = Some res ->
    exists st', Matches r st st' /\ k st' = Some res.
End MatchRelation.

(** ** Accounting for the text of the sentences *)

Definition all_space (w : str) : Prop := Forall (fun c => is_space c = true) w.

(** The characters of a text that are not white space, in order. *)
Definition non_space (s : str) : str := List.filter (fun c => negb (is_space c)) s.


(** *** Sentences woven with white space

    [weave outs text]: [text] is the sentences [outs], in order, with white
    space before, between and after them. *)
Inductive weave : list str -> str -> Prop :=
| weave_nil w : all_space w -> weave [] w
| weave_cons w o outs rest :
    all_space w -> weave outs rest -> weave (o :: outs) (w ++ o ++ rest).


(** [add] on each fragment in turn, as the callers do; the sentences of all
    the calls, in order. *)
Fixpoint feed `{U : Unicode} (self : SentenceBuffer) (tokens : list str)
    : option (SentenceBuffer * list str) :=
  match tokens with
  | [] => Some (self, [])
  | token :: tokens' =>
      match add self token with
      | Some (self1, out) =>
          match feed self1 tokens' with
          | Some (self2, outs) => Some (self2, out ++ outs)
          | None => None
          end
      | None => None
      end
  end.


Section Accounting.
Context `{U : Unicode}.

(** The sentences emitted so far ([prev] by earlier calls, [sentences] by
    this one), woven with white space, followed by the buffer, are the
    input so far. *)
Definition accounts (prev : list str) (input : str)
    (sentences : list str) (buffer : str) : Prop :=
  exists text, weave (prev ++ sentences) text /\ input = text ++ buffer.
End Accounting.

(** ** orchestrator.py: the page-request detector *)

Section PageRequest.
Context `{U : Unicode}.

Fixpoint int_digits (acc : N) (s : str) : option N :=
  match s with
  | [] => Some acc
  | c :: s' =>
      match digit_value c with
      | Some d => int_digits (10 * acc + d)%N s'
      | None => None
      end
  end.

(** [int(s)] on a string of decimal digits; [None] stands for the
    [ValueError] of any other string. *)
Definition py_int (s : str) : option N :=
  match s with
  | [] => None
  | _ :: _ => int_digits 0%N s
  end.

(** [a or b] on optional strings: [a] when it is a non-empty string. *)
Definition or_else (a b : option str) : option str :=
  match a with
  | Some s => if nonempty s then a else b
  | None => b
  end.

(** [PipelineOrchestrator._detect_page_request] *)
Definition _detect_page_request (query : str) : option (N * option str) :=
  match search _PAGE_REQUEST_RE query 0 with
  | Some m =>
      match or_else (or_else (group m 1) (group m 2)) (group m 3) with
      | Some page_str =>
          if nonempty page_str then
            match py_int page_str with
            | Some page_num =>
                let doc_hint :=
                  match group m 4 with
                  | Some g => if nonempty g then Some (strip g) else None
                  | None => None
                  end in
                Some (page_num, doc_hint)
            | None => None
            end
          else None
      | None => None
      end
  | None => None
  end.
End PageRequest.

(** ** Clause boundaries

    The positions the specification calls clause-boundary punctuation,
    stated on the text itself rather than through the pattern. *)

Fixpoint take_while (p : char -> bool) (s : str) : str :=
  match s with
  | [] => []
  | c :: s' => if p c then c :: take_while p s' else []
  end.

Definition is_clause_punct (c : char) : bool := char_in c (py ",;:").

(** [clause_boundary s i]: the character of [s] at index [i] is a comma, a
    semicolon or a colon, and it is followed by white space [w] and then an
    ASCII letter [l]. *)
Definition clause_boundary (s : str) (i : nat) : Prop :=
  exists c w l,
    is_clause_punct c = true /\ w <> [] /\
    Forall (fun x => is_space x = true) w /\
    is_ascii_alpha l = true /\
    take (length w + 2) (drop i s) = c :: w ++ [l].

(** The same test as a function on the text from index [i] on: the length
    of the punctuation and the white space after it. *)
Definition clause_at (suf : str) : option nat :=
  match suf with
  | c :: rest =>
      if is_clause_punct c then
        let w := take_while is_space rest in
        match w, drop_while is_space rest with
        | _ :: _, l :: _ =>
            if is_ascii_alpha l then Some (1 + length w) else None
        | _, _ => None
        end
      else None
  | [] => None
  end.

(** The first clause boundary of [suf], whose first index is [i], with the
    index after its white space. *)
Fixpoint first_clause (i : nat) (suf : str) : option (nat * nat) :=
  match clause_at suf with
  | Some n => Some (i, i + n)
  | None =>
      match suf with
      | [] => None
      | _ :: suf' => first_clause (S i) suf'
      end
  end.

(** Two run-on inputs of 600 characters without sentence end: 549 letters,
    a comma, a space and 49 letters; and the same with a leading space and
    548 letters. *)
Definition run_on : str :=
  repeat (chr "a") 549 ++ py ", " ++ repeat (chr "b") 49.

Definition run_on_padded : str :=
  py " " ++ repeat (chr "a") 548 ++ py ", " ++ repeat (chr "b") 49.

(** ** sessions.py

    A reading of [time.time()] is an argument [now] of the operations that
    take one.  Only the order of the readings matters here; they are
    integers, in any fixed unit. *)

Record message := Message { role : str; content : str }.

Record SessionData := {
  session_id : str;
  title : str;
  created_at : Z;
  updated_at : Z;
  conversation_history : list message;
  rag_enabled : bool
}.

(** [SessionManager]: the dictionary [_sessions], and the files of
    [SESSIONS_DIR] that [_persist] writes, by session id. *)
Record SessionManager := {
  _sessions : gmap str SessionData;
  session_files : gmap str SessionData
}.

Definition set_title (t : str) (s : SessionData) : SessionData :=
  {| session_id := session_id s; title := t; created_at := created_at s;
     updated_at := updated_at s; conversation_history := conversation_history s;
     rag_enabled := rag_enabled s |}.

Definition set_updated_at (now : Z) (s : SessionData) : SessionData :=
  {| session_id := session_id s; title := title s; created_at := created_at s;
     updated_at := now; conversation_history := conversation_history s;
     rag_enabled := rag_enabled s |}.

Definition push_message (m : message) (s : SessionData) : SessionData :=
  {| session_id := session_id s; title := title s; created_at := created_at s;
     updated_at := updated_at s;
     conversation_history := conversation_history s ++ [m];
     rag_enabled := rag_enabled s |}.

Definition set_flag (enabled : bool) (s : SessionData) : SessionData :=
  {| session_id := session_id s; title := title s; created_at := created_at s;
     updated_at := updated_at s; conversation_history := conversation_history s;
     rag_enabled := enabled |}.

(** The session object is shared: a change of its fields is a change of the
    entry of [_sessions]. *)
Definition store (sid : str) (s : SessionData) (mgr : SessionManager) : SessionManager :=
  {| _sessions := <[sid := s]> (_sessions mgr); session_files := session_files mgr |}.

(** [SessionManager._persist] *)
Definition _persist (sid : str) (mgr : SessionManager) : SessionManager :=
  match _sessions mgr !! sid with
  | None => mgr
  | Some s =>
      {| _sessions := _sessions mgr; session_files := <[sid := s]> (session_files mgr) |}
  end.

(** [SessionManager.get] *)
Definition get (sid : str) (mgr : SessionManager) : option SessionData :=
  _sessions mgr !! sid.

(** [SessionManager.update_title] *)
Definition update_title (now : Z) (sid : str) (t : str) (mgr : SessionManager)
    : SessionManager * bool :=
  match _sessions mgr !! sid with
  | None => (mgr, false)
  | Some session =>
      let session := set_title t session in
      let session := set_updated_at now session in
      (_persist sid (store sid session mgr), true)
  end.

Definition New_chat : str := py "New chat".

(** [SessionManager.append_history] *)
Definition append_history (now : Z) (sid : str) (r c : str) (mgr : SessionManager)
    : SessionManager :=
  match _sessions mgr !! sid with
  | None => mgr
  | Some session =>
      let session := push_message (Message r c) session in
      let session := set_updated_at now session in
      let session :=
        if str_eqb r (py "user") && str_eqb (title session) New_chat then
          let t := strip (take 60 c) in
          set_title (if 60 <? length c then t ++ py "..." else t) session
        else session in
      _persist sid (store sid session mgr)
  end.

(** [l[-n:]] *)
Definition last_entries {A} (n : nat) (l : list A) : list A :=
  if n =? 0 then l else drop (length l - n) l.

(** [SessionManager.get_history] *)
Definition get_history (sid : str) (max_entries : nat) (mgr : SessionManager)
    : list message :=
  match _sessions mgr !! sid with
  | None => []
  | Some session => last_entries max_entries (conversation_history session)
  end.

(** [SessionManager.set_rag_enabled] *)
Definition set_rag_enabled (sid : str) (enabled : bool) (mgr : SessionManager)
    : SessionManager :=
  match _sessions mgr !! sid with
  | None => mgr
  | Some session => _persist sid (store sid (set_flag enabled session) mgr)
  end.

(** A manager with one session, last updated at time 100. *)
Definition one_session : SessionData :=
  {| session_id := py "s1"; title := py "Budget"; created_at := 100;
     updated_at := 100; conversation_history := []; rag_enabled := true |}.

Definition one_session_manager : SessionManager :=
  {| _sessions := {[ py "s1" := one_session ]};
     session_files := {[ py "s1" := one_session ]} |}.

(** ** llm.py: [LLMService.generate_stream]

    The server is an oracle: what the n-th request of one call meets.  The
    generator is its run to the end: what it yields, how long it sleeps
    between attempts, and how it finishes. *)

Definition MAX_RETRIES : nat := 2.
Definition RETRY_DELAY : nat := 1.
Definition _RETRYABLE_STATUS : list Z := [500; 502; 503]%Z.

(** One line of a response body. *)
Inductive line :=
| BlankLine                       (* [line.strip()] is empty *)
| ChunkLine (c : option str).     (* a JSON object, with [message.content] or not *)

Inductive exn :=
| HTTPStatusError (status_code : Z)
| ConnectError
| ReadError
| OtherError.                     (* any exception the function does not catch *)

(** How the body of a response ends. *)
Inductive body_end :=
| EndOfBody
| Fails (e : exn).

(** What one request meets: an exception of [client.stream] before any
    response, a status that [raise_for_status] refuses, or a body of lines
    and its end. *)
Inductive response :=
| NoResponse (e : exn)
| BadStatus (status_code : Z)
| Body (lines : list line) (e : body_end).

Inductive stream_event :=
| Yield (fragment : str)
| Sleep (seconds : nat).

Inductive finish :=
| Returns
| Raises (e : exn).

(** The fragments one body yields. *)
Fixpoint fragments_of (lines : list line) : list str :=
  match lines with
  | [] => []
  | ChunkLine (Some c) :: lines' => c :: fragments_of lines'
  | _ :: lines' => fragments_of lines'
  end.

(** What the [try] block of one attempt yields and how it ends. *)
Definition run_attempt (r : response) : list str * finish :=
  match r with
  | NoResponse e => ([], Raises e)
  | BadStatus code => ([], Raises (HTTPStatusError code))
  | Body lines EndOfBody => (fragments_of lines, Returns)
  | Body lines (Fails e) => (fragments_of lines, Raises e)
  end.

Definition retryable_status (code : Z) : bool :=
  existsb (Z.eqb code) _RETRYABLE_STATUS.

(** The two [except] clauses: whether the exception is caught and the loop
    goes on, at attempt number [attempt]. *)
Definition caught (attempt : nat) (e : exn) : bool :=
  match e with
  | HTTPStatusError code => retryable_status code && negb (attempt =? MAX_RETRIES)
  | ConnectError | ReadError => negb (attempt =? MAX_RETRIES)
  | OtherError => false
  end.

(** The loop [for attempt in range(MAX_RETRIES + 1)], from attempt number
    [attempt] on with [todo] attempts left, and the [raise last_error] after
    it. *)
Fixpoint attempts (server : nat -> response) (attempt todo : nat)
    (last_error : exn) : list stream_event * finish :=
  match todo with
  | 0 => ([], Raises last_error)
  | S todo' =>
      let '(fragments, fin) := run_attempt (server attempt) in
      match fin with
      | Returns => (List.map Yield fragments, Returns)
      | Raises e =>
          if caught attempt e then
            let '(events, fin') := attempts server (S attempt) todo' e in
            (List.map Yield fragments ++ Sleep (RETRY_DELAY * (attempt + 1)) :: events,
             fin')
          else (List.map Yield fragments, Raises e)
      end
  end.

(** [LLMService.generate_stream] *)
Definition generate_stream (server : nat -> response) : list stream_event * finish :=
  attempts server 0 (MAX_RETRIES + 1) OtherError.

Definition yielded (events : list stream_event) : list str :=
  flat_map (fun e => match e with Yield f => [f] | Sleep _ => [] end) events.

(** An attempt that fails in a way the loop retries. *)
Definition retryable (r : response) : bool :=
  match snd (run_attempt r) with
  | Returns => false
  | Raises (HTTPStatusError code) => retryable_status code
  | Raises ConnectError | Raises ReadError => true
  | Raises OtherError => false
  end.

(** A server whose first response breaks after the fragment "Hel" and
    whose second response is complete. *)
Definition flaky_server (n : nat) : response :=
  match n with
  | 0 => Body [ChunkLine (Some (py "Hel"))] (Fails ReadError)
  | _ => Body [ChunkLine (Some (py "Hel")); ChunkLine (Some (py "lo"))] EndOfBody
  end.

(** ** The collaborators of the orchestrator

    The transcription, generation, synthesis and retrieval services, the
    clock and the identifier source are oracles.  A call that the
    orchestrator makes outside any [try] is taken to return; [synthesize],
    which it also calls inside [try], may fail, and so may
    [store_conversation], whose failure is logged and changes nothing.
    The generation options [model], [temperature] and [max_tokens], which
    the orchestrator only passes on, are left out. *)

Definition bytes := list N.

(** A passage as [rag_service.retrieve] and [retrieve_pages] return it: a
    dictionary, read with [chunk.get(key, default)] except for its text. *)
Record chunk := {
  chunk_text : str;
  chunk_doc_id : option str;
  chunk_filename : option str;
  chunk_page_number : option Z
}.

(** An entry of [rag_service.list_documents]. *)
Record document := {
  document_doc_id : str;
  document_filename : str;
  document_page_count : option nat
}.

(** What [rag_service.get_page] returns. *)
Record page := {
  page_text : str;
  page_filename : str;
  page_doc_id : str
}.

(** A source citation: [{"filename", "page_number", "doc_id"}]. *)
Record citation := {
  filename : str;
  page_number : option Z;
  doc_id : str
}.

Class Services := {
  transcribe_bytes : bytes -> str * Z;
  generate : str -> str -> list message -> str;
  stream_tokens : str -> str -> list message -> list str;
  synthesize : str -> option bytes;
  list_documents : str -> list document;
  get_page : str -> N -> option page;
  retrieve_pages : str -> nat -> str -> list chunk;
  retrieve : str -> str -> list chunk;
  retrieve_conversations : str -> str -> list str;
  time : nat -> Z;                     (* the n-th reading of the clock, in ms *)
  uuid4 : nat -> str                   (* the n-th identifier drawn *)
}.

(** What the orchestrator does to the outside, in order. *)
Inductive event :=
| EStatus (stage : str)                       (* status_callback *)
| ETranscript (text : str)                    (* transcript_callback *)
| EAudioChunk (wav : bytes) (index : nat)     (* audio_chunk_callback *)
| ETranscribe (audio : bytes)
| EListDocuments (session : str)
| EGetPage (doc : str) (page_num : N)
| ERetrievePages (query : str)
| ERetrieve (query : str)
| ERetrieveConversations (query : str)
| EGenerate (user_message context : str) (history : list message)
| EGenerateStream (user_message context : str) (history : list message)
| ESynthesize (text : str)
| EWriteAudio (audio_id : str) (wav : bytes)
| EStoreConversation (user_text assistant_text : str)
| ECancelCheck (is_set : bool)                (* cancel_event.is_set() *)
| EPut (item : option str).                   (* sentence_queue.put *)

(** The state the pipeline runs in: the session manager, the number of
    clock readings and identifiers so far, and the events so far. *)
Record world := {
  sessions : SessionManager;
  clock : nat;
  uuids : nat;
  trace : list event
}.

Definition M (A : Type) : Type := world -> A * world.

Definition ret {A} (a : A) : M A := fun w => (a, w).

Definition bind {A B} (m : M A) (k : A -> M B) : M B :=
  fun w => let '(a, w1) := m w in k a w1.

Notation "'let*' x ':=' m 'in' k" := (bind m (fun x => k))
  (at level 10, x pattern, m at level 100, k at level 200).

Definition when (b : bool) (m : M unit) : M unit := if b then m else ret tt.

Definition tell (e : event) : M unit :=
  fun w => (tt, {| sessions := sessions w; clock := clock w; uuids := uuids w; trace := trace w ++ [e] |}).

Definition with_sessions (f : SessionManager -> SessionManager) : M unit :=
  fun w => (tt, {| sessions := f (sessions w); clock := clock w; uuids := uuids w; trace := trace w |}).

Definition read_sessions : M SessionManager := fun w => (sessions w, w).

Fixpoint for_each {A} (l : list A) (body : A -> M unit) : M unit :=
  match l with
  | [] => ret tt
  | x :: l' => let* _ := body x in for_each l' body
  end.

(** [sep.join(parts)] *)
Fixpoint join (sep : str) (parts : list str) : str :=
  match parts with
  | [] => []
  | [p] => p
  | p :: parts' => p ++ sep ++ join sep parts'
  end.

(** [str(n)] for an integer. *)
Definition str_of_Z (n : Z) : str :=
  py (NilZero.string_of_int (Z.to_int n)).

Definition or_empty (s : option str) : str :=
  match s with Some x => x | None => [] end.

Section Collaborators.
Context `{S : Services}.

(** [time.time()] *)
Definition now : M Z :=
  fun w => (time (clock w),
            {| sessions := sessions w; clock := Datatypes.S (clock w); uuids := uuids w; trace := trace w |}).

(** [str(uuid.uuid4())] *)
Definition new_uuid : M str :=
  fun w => (uuid4 (uuids w),
            {| sessions := sessions w; clock := clock w; uuids := Datatypes.S (uuids w); trace := trace w |}).
End Collaborators.

(** ** orchestrator.py: [PipelineOrchestrator] *)

Record PipelineOrchestrator := {
  orch_session_id : str;
  max_history : nat
}.

(** [PipelineOrchestrator(session_id)] *)
Definition new_orchestrator (sid : str) : PipelineOrchestrator :=
  {| orch_session_id := sid; max_history := 10 |}.

(** How a call ends: with a value, with the exception of a collaborator, or
    never, waiting on a queue that nothing will fill. *)
Inductive outcome (A : Type) :=
| Return (a : A)
| Raise
| Block.
Arguments Return {A} a.
Arguments Raise {A}.
Arguments Block {A}.

(** The tasks that read the cancellation flag: the pipeline itself and the
    two tasks of the streaming path, which the event loop interleaves.  A
    cancellation flag is given by what each task reads at each of its
    checks. *)
Inductive task := MainTask | Producer | Consumer.

Definition cancel_flag := option (task -> nat -> bool).

(** [cancel_event and cancel_event.is_set()], at check number [n] of task
    [t]. *)
Definition cancelled (cancel_event : cancel_flag) (t : task) (n : nat) : M bool :=
  match cancel_event with
  | None => ret false
  | Some is_set => let* _ := tell (ECancelCheck (is_set t n)) in ret (is_set t n)
  end.

(** The dictionaries the four pipelines return. *)
Record voice_result := {
  transcript : str;
  response_text : str;
  audio_url : option str;
  audio_bytes : option bytes;          (* the key is absent after an empty transcript *)
  timings : gmap string Z;
  sources : list citation
}.

Record stream_result := {
  stream_transcript : str;
  stream_response_text : str;
  stream_timings : gmap string Z;
  stream_sources : list citation
}.

Record text_result := {
  text_response : str;                 (* the key "response" *)
  text_timings : gmap string Z;
  text_sources : list citation
}.

(** The key under which [_build_context] remembers a passage. *)
Definition page_num_of (c : chunk) : Z :=
  match chunk_page_number c with Some n => n | None => (-1)%Z end.

Definition source_key (c : chunk) : str * Z :=
  (or_empty (chunk_doc_id c), page_num_of c).

(** The citation [_build_context] makes of a passage. *)
Definition cite (c : chunk) : citation :=
  {| filename := or_empty (chunk_filename c);
     page_number := if (0 <=? page_num_of c)%Z then Some (page_num_of c) else None;
     doc_id := or_empty (chunk_doc_id c) |}.

(** The text [_build_context] makes of a passage. *)
Definition doc_part (c : chunk) : str :=
  let label := py "[Source: " ++ or_empty (chunk_filename c) in
  let label :=
    if (0 <=? page_num_of c)%Z then label ++ py ", page " ++ str_of_Z (page_num_of c)
    else label in
  let label := label ++ py "]" in
  label ++ [10%N] ++ chunk_text c.

(** The loop [for chunk in doc_results] of [_build_context]. *)
Fixpoint source_loop (doc_results : list chunk) (doc_parts : list str)
    (sources : list citation) (seen_sources : gset (str * Z))
    : list str * list citation * gset (str * Z) :=
  match doc_results with
  | [] => (doc_parts, sources, seen_sources)
  | c :: rest =>
      let doc_parts := doc_parts ++ [doc_part c] in
      if decide (source_key c ∈ seen_sources)
      then source_loop rest doc_parts sources seen_sources
      else source_loop rest doc_parts (sources ++ [cite c])
             ({[ source_key c ]} ∪ seen_sources)
  end.


Section Orchestrator.
Context `{U : Unicode} `{S : Services}.
Variable self : PipelineOrchestrator.

Definition sid : str := orch_session_id self.

(** The property [rag_enabled]. *)
Definition orch_rag_enabled : M bool :=
  let* mgr := read_sessions in
  ret (match get sid mgr with Some session => rag_enabled session | None => true end).

(** [_get_history] *)
Definition _get_history : M (list message) :=
  let* mgr := read_sessions in
  ret (get_history sid (max_history self * 2) mgr).

(** [_append_history]; the manager reads the clock when the session exists. *)
Definition _append_history (r c : str) : M unit :=
  let* mgr := read_sessions in
  match get sid mgr with
  | None => ret tt
  | Some _ => let* t := now in with_sessions (append_history t sid r c)
  end.

Definition has_pages (doc : document) : bool :=
  match document_page_count doc with Some n => 0 <? n | None => false end.

(** The part of [_fetch_page] that sets [target_doc], for a non-empty list
    of documents. *)
Definition target_doc (session_docs : list document) (doc_hint : option str)
    : option document :=
  let first_with_pages := List.find has_pages session_docs in
  match doc_hint with
  | Some ((_ :: _) as hint) =>
      let hint_lower := lower hint in
      match List.find (fun doc => contains hint_lower (lower (document_filename doc)))
              session_docs with
      | Some doc => Some doc
      | None => first_with_pages
      end
  | _ =>
      match session_docs with
      | [doc] => Some doc
      | _ => first_with_pages
      end
  end.

(** [_fetch_page] *)
Definition _fetch_page (page_num : N) (doc_hint : option str)
    : M (option (str * list citation)) :=
  let* _ := tell (EListDocuments sid) in
  let session_docs := list_documents sid in
  match session_docs with
  | [] => ret None
  | _ :: _ =>
      match target_doc session_docs doc_hint with
      | None => ret None
      | Some doc =>
          let* _ := tell (EGetPage (document_doc_id doc) page_num) in
          match get_page (document_doc_id doc) page_num with
          | None => ret None
          | Some pg =>
              let context :=
                py "[Full page " ++ str_of_Z (Z.of_N page_num) ++ py " from " ++
                page_filename pg ++ py "]" ++ [10%N] ++ page_text pg in
              let sources :=
                [ {| filename := page_filename pg;
                     page_number := Some (Z.of_N page_num);
                     doc_id := page_doc_id pg |} ] in
              ret (Some (context, sources))
          end
      end
  end.

(** [_try_direct_page_read] *)
Definition _try_direct_page_read (query : str) : M (option (str * list citation)) :=
  match _detect_page_request query with
  | None => ret None
  | Some (page_num, doc_hint) =>
      let* result := _fetch_page page_num doc_hint in
      match result with
      | None => ret None
      | Some (page_text, sources) =>
          let text :=
            match split_once [10%N] page_text with
            | Some (_, after_label) => after_label
            | None => page_text
            end in
          ret (Some (text, sources))
      end
  end.

(** [_build_context] *)
Definition _build_context (query : str) : M (str * list citation) :=
  let* enabled := orch_rag_enabled in
  if negb enabled then ret ([], [])
  else
    let* _ := tell (ERetrievePages query) in
    let page_results := retrieve_pages query 3 sid in
    let* doc_results :=
      match page_results with
      | _ :: _ => ret page_results
      | [] => let* _ := tell (ERetrieve query) in ret (retrieve query sid)
      end in
    let* _ := tell (ERetrieveConversations query) in
    let conv_chunks := retrieve_conversations query sid in
    let '(doc_parts, sources, _) := source_loop doc_results [] [] ∅ in
    let parts :=
      match doc_results with
      | _ :: _ => [py "Document context:" ++ [10%N] ++ join ([10] ++ py "---" ++ [10])%N doc_parts]
      | [] => []
      end in
    let parts :=
      match conv_chunks with
      | _ :: _ =>
          parts ++ [py "Previous conversations:" ++ [10%N] ++
                    join ([10] ++ py "---" ++ [10])%N conv_chunks]
      | [] => parts
      end in
    ret (join NLNL parts, sources).
End Orchestrator.

(** *** The four pipelines *)

Section Pipelines.
Context `{U : Unicode} `{S : Services}.
Variable self : PipelineOrchestrator.

(** [buf.add(token)]; [add] always returns (lemma [add_spec]). *)
Definition buf_add (buf : SentenceBuffer) (token : str) : SentenceBuffer * list str :=
  match add buf token with
  | Some r => r
  | None => (buf, [])
  end.

(** The end of every pipeline: the two turns are appended to the history
    and the exchange is handed to the conversation memory, whose failure is
    logged and ignored. *)
Definition commit (user_text assistant_text : str) : M unit :=
  let* _ := _append_history self (py "user") user_text in
  let* _ := _append_history self (py "assistant") assistant_text in
  tell (EStoreConversation user_text assistant_text).

(** The body of the [try] around [synthesize] in the streaming loops: the
    chunk index advances whether the synthesis fails or not. *)
Definition speak (audio_chunk_callback : bool) (sentence : str) (chunk_index : nat)
    : M nat :=
  let* _ := tell (ESynthesize sentence) in
  match synthesize sentence with
  | Some wav_bytes =>
      let* _ := when audio_chunk_callback (tell (EAudioChunk wav_bytes chunk_index)) in
      ret (Datatypes.S chunk_index)
  | None => ret (Datatypes.S chunk_index)
  end.

Fixpoint speak_all (audio_chunk_callback : bool) (sentences : list str)
    (chunk_index : nat) : M nat :=
  match sentences with
  | [] => ret chunk_index
  | sentence :: rest =>
      let* chunk_index := speak audio_chunk_callback sentence chunk_index in
      speak_all audio_chunk_callback rest chunk_index
  end.

(** The loop [for word in full_response.split()] of the direct page read,
    at its [n]-th word. *)
Fixpoint speak_words (cancel_event : cancel_flag) (audio_chunk_callback : bool)
    (words : list str) (n : nat) (buf : SentenceBuffer) (chunk_index : nat)
    : M (SentenceBuffer * nat) :=
  match words with
  | [] => ret (buf, chunk_index)
  | word :: rest =>
      let* stop := cancelled cancel_event MainTask n in
      if stop then ret (buf, chunk_index)
      else
        let '(buf1, sentences) := buf_add buf (word ++ py " ") in
        let* chunk_index := speak_all audio_chunk_callback sentences chunk_index in
        speak_words cancel_event audio_chunk_callback rest (Datatypes.S n) buf1 chunk_index
  end.

(** The direct page read of [process_voice_stream], from [buf =
    SentenceBuffer()] to the flush: the number of chunks. *)
Definition speak_page (cancel_event : cancel_flag) (audio_chunk_callback : bool)
    (full_response : str) : M nat :=
  let* (buf, chunk_index) :=
    speak_words cancel_event audio_chunk_callback (split_ws full_response) 0
      new_buffer 0 in
  match snd (flush buf) with
  | Some remaining =>
      let* _ := tell (ESynthesize remaining) in
      match synthesize remaining with
      | Some wav_bytes =>
          let* _ := when audio_chunk_callback (tell (EAudioChunk wav_bytes chunk_index)) in
          ret (Datatypes.S chunk_index)
      | None => ret chunk_index
      end
  | None => ret chunk_index
  end.

(** [produce_sentences], at the [n]-th token of the stream: the items put
    on the queue, the response so far and the time of the first token. *)
Fixpoint produce_sentences (cancel_event : cancel_flag) (tokens : list str) (n : nat)
    (buf : SentenceBuffer) (full_response : str) (first_token_time : option Z)
    : M (list (option str) * str * option Z) :=
  match tokens with
  | [] =>
      let queue :=
        match snd (flush buf) with
        | Some remaining => [Some remaining; None]
        | None => [None]
        end in
      let* _ := for_each queue (fun item => tell (EPut item)) in
      ret (queue, full_response, first_token_time)
  | token :: rest =>
      let* stop := cancelled cancel_event Producer n in
      if stop then ret ([], full_response, first_token_time)
      else
        let* first_token_time :=
          match first_token_time with
          | None => let* t := now in ret (Some t)
          | Some _ => ret first_token_time
          end in
        let '(buf1, sentences) := buf_add buf token in
        let* _ := for_each sentences (fun s => tell (EPut (Some s))) in
        let* (queue, full_response, first_token_time) :=
          produce_sentences cancel_event rest (Datatypes.S n) buf1
            (full_response ++ token) first_token_time in
        ret (List.map Some sentences ++ queue, full_response, first_token_time)
  end.

(** [consume_sentences] on the items the producer puts on the queue, at its
    [n]-th item: the number of chunks, the time of the first chunk, and
    whether the task ends; it does not end when the queue runs dry. *)
Fixpoint consume_sentences (cancel_event : cancel_flag)
    (status_callback audio_chunk_callback : bool) (queue : list (option str))
    (n : nat) (chunk_index : nat) (first_chunk_time : option Z)
    : M (nat * option Z * bool) :=
  match queue with
  | [] => ret (chunk_index, first_chunk_time, false)
  | None :: _ => ret (chunk_index, first_chunk_time, true)
  | Some sentence :: rest =>
      let* stop := cancelled cancel_event Consumer n in
      if stop then ret (chunk_index, first_chunk_time, true)
      else
        let* _ := when (status_callback && (chunk_index =? 0))
                    (tell (EStatus (py "speaking"))) in
        let* _ := tell (ESynthesize sentence) in
        match synthesize sentence with
        | Some wav_bytes =>
            let* first_chunk_time :=
              match first_chunk_time with
              | None => let* t := now in ret (Some t)
              | Some _ => ret first_chunk_time
              end in
            let* _ := when audio_chunk_callback
                        (tell (EAudioChunk wav_bytes chunk_index)) in
            consume_sentences cancel_event status_callback audio_chunk_callback rest
              (Datatypes.S n) (Datatypes.S chunk_index) first_chunk_time
        | None =>
            consume_sentences cancel_event status_callback audio_chunk_callback rest
              (Datatypes.S n) (Datatypes.S chunk_index) first_chunk_time
        end
  end.

Definition put_time (key : string) (t0 : Z) (t : option Z) (timings : gmap string Z)
    : gmap string Z :=
  match t with
  | Some t1 => <[key := (t1 - t0)%Z]> timings
  | None => timings
  end.

(** [process_voice] *)
Definition process_voice (audio : bytes) (status_callback : bool)
    : M (outcome voice_result) :=
  let* _ := when status_callback (tell (EStatus (py "transcribing"))) in
  let* t0 := now in
  let* _ := tell (ETranscribe audio) in
  let '(transcript, duration) := transcribe_bytes audio in
  let* t1 := now in
  let timings : gmap string Z := {[ "stt_ms"%string := (t1 - t0)%Z ]} in
  if negb (nonempty (strip transcript)) then
    ret (Return {| transcript := []; response_text := []; audio_url := None;
                   audio_bytes := None; timings := timings; sources := [] |})
  else
    let* _ := when status_callback (tell (EStatus (py "retrieving"))) in
    let* t0 := now in
    let* direct := _try_direct_page_read self transcript in
    let* (response_text, sources, timings) :=
      match direct with
      | Some (text, sources) =>
          let* t1 := now in
          ret (text, sources,
               <["llm_ms"%string := 0%Z]> (<["rag_ms"%string := (t1 - t0)%Z]> timings))
      | None =>
          let* (context, sources) := _build_context self transcript in
          let* t1 := now in
          let timings := <["rag_ms"%string := (t1 - t0)%Z]> timings in
          let* _ := when status_callback (tell (EStatus (py "thinking"))) in
          let* t0 := now in
          let* history := _get_history self in
          let* _ := tell (EGenerate transcript context history) in
          let response_text := generate transcript context history in
          let* t1 := now in
          ret (response_text, sources, <["llm_ms"%string := (t1 - t0)%Z]> timings)
      end in
    let* _ := when status_callback (tell (EStatus (py "speaking"))) in
    let* t0 := now in
    let* _ := tell (ESynthesize response_text) in
    match synthesize response_text with
    | None => ret Raise
    | Some audio_wav =>
        let* t1 := now in
        let timings := <["tts_ms"%string := (t1 - t0)%Z]> timings in
        let* audio_id := new_uuid in
        let* _ := tell (EWriteAudio audio_id audio_wav) in
        let* _ := commit transcript response_text in
        ret (Return {| transcript := transcript; response_text := response_text;
                       audio_url := Some (py "/audio/" ++ audio_id ++ py ".wav");
                       audio_bytes := Some audio_wav;
                       timings := timings; sources := sources |})
    end.

(** [process_voice_stream].  The events of the producer are listed before
    those of the consumer; how the event loop interleaves the two tasks is
    not modelled. *)
Definition process_voice_stream (audio : bytes)
    (status_callback audio_chunk_callback transcript_callback : bool)
    (cancel_event : cancel_flag) : M (outcome stream_result) :=
  let* _ := when status_callback (tell (EStatus (py "transcribing"))) in
  let* t0 := now in
  let* _ := tell (ETranscribe audio) in
  let '(transcript, duration) := transcribe_bytes audio in
  let* t1 := now in
  let timings : gmap string Z := {[ "stt_ms"%string := (t1 - t0)%Z ]} in
  if negb (nonempty (strip transcript)) then
    ret (Return {| stream_transcript := []; stream_response_text := [];
                   stream_timings := timings; stream_sources := [] |})
  else
    let* _ := when transcript_callback (tell (ETranscript transcript)) in
    let* _ := when status_callback (tell (EStatus (py "retrieving"))) in
    let* t0 := now in
    let* direct := _try_direct_page_read self transcript in
    let* done :=
      match direct with
      | Some (full_response, sources) =>
          let* t1 := now in
          let timings :=
            <["llm_ms"%string := 0%Z]> (<["rag_ms"%string := (t1 - t0)%Z]> timings) in
          let* _ := when status_callback (tell (EStatus (py "speaking"))) in
          let* tts_start := now in
          let* chunk_index := speak_page cancel_event audio_chunk_callback full_response in
          let* t2 := now in
          let timings := <["tts_first_chunk_ms"%string := (t2 - tts_start)%Z]> timings in
          let timings := <["tts_chunks"%string := Z.of_nat chunk_index]> timings in
          ret (Some (full_response, sources, timings))
      | None =>
          let* (context, sources) := _build_context self transcript in
          let* t1 := now in
          let timings := <["rag_ms"%string := (t1 - t0)%Z]> timings in
          let* _ := when status_callback (tell (EStatus (py "thinking"))) in
          let* llm_start := now in
          let* history := _get_history self in
          let* _ := tell (EGenerateStream transcript context history) in
          let* (queue, full_response, first_token_time) :=
            produce_sentences cancel_event (stream_tokens transcript context history)
              0 new_buffer [] None in
          let* (chunk_index, first_chunk_time, ended) :=
            consume_sentences cancel_event status_callback audio_chunk_callback
              queue 0 0 None in
          if ended then
            let* t2 := now in
            let timings := <["llm_ms"%string := (t2 - llm_start)%Z]> timings in
            let timings := put_time "llm_first_token_ms" llm_start first_token_time timings in
            let timings := put_time "tts_first_chunk_ms" llm_start first_chunk_time timings in
            let timings := <["tts_chunks"%string := Z.of_nat chunk_index]> timings in
            ret (Some (full_response, sources, timings))
          else ret None
      end in
    match done with
    | None => ret Block
    | Some (full_response, sources, timings) =>
        let* _ := commit transcript full_response in
        ret (Return {| stream_transcript := transcript;
                       stream_response_text := full_response;
                       stream_timings := timings; stream_sources := sources |})
    end.

(** [process_text] *)
Definition process_text (message : str) : M text_result :=
  let* t0 := now in
  let* direct := _try_direct_page_read self message in
  let* (response_text, sources, timings) :=
    match direct with
    | Some (text, sources) =>
        let* t1 := now in
        ret (text, sources,
             <["llm_ms"%string := 0%Z]> ({[ "rag_ms"%string := (t1 - t0)%Z ]} : gmap string Z))
    | None =>
        let* (context, sources) := _build_context self message in
        let* t1 := now in
        let timings : gmap string Z := {[ "rag_ms"%string := (t1 - t0)%Z ]} in
        let* t0 := now in
        let* history := _get_history self in
        let* _ := tell (EGenerate message context history) in
        let response_text := generate message context history in
        let* t1 := now in
        ret (response_text, sources, <["llm_ms"%string := (t1 - t0)%Z]> timings)
    end in
  let* _ := commit message response_text in
  ret {| text_response := response_text; text_timings := timings;
         text_sources := sources |}.

(** [process_text_stream], run to its end: what it yields. *)
Definition process_text_stream (message : str) : M (list str) :=
  let* direct := _try_direct_page_read self message in
  let* (tokens, full_response) :=
    match direct with
    | Some (full_response, _) => ret ([full_response], full_response)
    | None =>
        let* (context, sources) := _build_context self message in
        let* history := _get_history self in
        let* _ := tell (EGenerateStream message context history) in
        let tokens := stream_tokens message context history in
        ret (tokens, concat tokens)
    end in
  let* _ := commit message full_response in
  ret tokens.
End Pipelines.

(** *** Concrete collaborators for the examples *)

(** One document of one page, whose text is "Hello world", under the file
    name [name]; every utterance is transcribed as "read page 1"; the
    synthesis of a text gives its code points as audio. *)
Definition one_page_services (name : str) : Services :=
  {| transcribe_bytes := fun _ => (py "read page 1", 1%Z);
     generate := fun _ _ _ => py "generated";
     stream_tokens := fun _ _ _ => [py "generated"];
     synthesize := fun text => Some text;
     list_documents := fun _ =>
       [ {| document_doc_id := py "d1"; document_filename := name;
            document_page_count := Some 1 |} ];
     get_page := fun doc_id page_num =>
       if str_eqb doc_id (py "d1") && (page_num =? 1)%N
       then Some {| page_text := py "Hello world"; page_filename := name;
                    page_doc_id := py "d1" |}
       else None;
     retrieve_pages := fun _ _ _ => [];
     retrieve := fun _ _ => [];
     retrieve_conversations := fun _ _ => [];
     time := fun n => Z.of_nat n;
     uuid4 := fun _ => py "0000" |}.

(** The same, with a microphone that picks up nothing but white space. *)
Definition silent_services : Services :=
  {| transcribe_bytes := fun _ => (py "  ", 1%Z);
     generate := fun _ _ _ => py "generated";
     stream_tokens := fun _ _ _ => [py "generated"];
     synthesize := fun text => Some text;
     list_documents := fun _ => [];
     get_page := fun _ _ => None;
     retrieve_pages := fun _ _ _ => [];
     retrieve := fun _ _ => [];
     retrieve_conversations := fun _ _ => [];
     time := fun n => Z.of_nat n;
     uuid4 := fun _ => py "0000" |}.

(** A world with the session "s1" of [one_session_manager], with retrieval
    switched on or off. *)
Definition start_world (enabled : bool) : world :=
  {| sessions := set_rag_enabled (py "s1") enabled one_session_manager;
     clock := 0; uuids := 0; trace := [] |}.




(** A file name with a line break in it. *)
Definition two_line_name : str := py "a" ++ [10%N] ++ py "b.pdf".

(** *** Generation events and solid patterns *)

(** The events that are a call of the language model. *)
Definition is_generation (e : event) : bool :=
  match e with
  | EGenerate _ _ _ | EGenerateStream _ _ _ => true
  | _ => false
  end.

(** A computation is [generation_free] when it adds no call of the language
    model to the events, whatever else it does. *)
Definition generation_free {A} (m : M A) : Prop :=
  forall w, List.filter is_generation (trace (snd (m w))) =
            List.filter is_generation (trace w).

(** A computation whose value is the same in every world. *)
Definition world_blind {A} (m : M A) : Prop :=
  forall w w', fst (m w) = fst (m w').

(** A world without sessions, readings or events. *)
Definition no_world : world :=
  {| sessions := {| _sessions := ∅; session_files := ∅ |};
     clock := 0; uuids := 0; trace := [] |}.

(** The answer of the direct page read, which is the same in every world
    (lemma [try_direct_page_read_answer]): the text and the citation of the
    page that the page request of the query resolves to. *)
Definition direct_answer `{U : Unicode} `{S : Services} (self : PipelineOrchestrator)
    (query : str) : option (str * list citation) :=
  fst (_try_direct_page_read self query no_world).

(** A character class none of whose characters is white space, as far as
    the class itself tells. *)
Definition cls_solid (c : cclass) : bool :=
  match c with
  | Lit x => negb (is_space x)
  | LitI x => forallb (fun y => negb (is_space y)) (case_variants x)
  | OneOf l => forallb (fun y => negb (is_space y)) l
  | _ => false
  end.

(** A pattern every match of which consumes a character that is not white
    space. *)
Fixpoint solid (r : regex) : bool :=
  match r with
  | Cls c => cls_solid c
  | Seq r1 r2 => solid r1 || solid r2
  | Alt r1 r2 => solid r1 && solid r2
  | Group _ r' => solid r'
  | _ => false
  end.

(** ** Further notions about the sentences of [SentenceBuffer] *)

(** A sentence as the segmenter hands it over: not empty, and without white
    space at either end. *)
Definition trimmed (s : str) : Prop := nonempty s = true /\ strip s = s.


(** The three guards of the sentence pass of [add]. *)
Definition guarded `{U : Unicode} (candidate : str) : bool :=
  ends_with_abbreviation candidate ||
  found _SINGLE_LETTER_ABBR_RE candidate ||
  found _DECIMAL_END_RE candidate.


(** A pattern every match of which consumes a character of the class [\d]. *)
Fixpoint needs_digit (r : regex) : bool :=
  match r with
  | Cls Digit => true
  | Seq r1 r2 => needs_digit r1 || needs_digit r2
  | Alt r1 r2 => needs_digit r1 && needs_digit r2
  | Group _ r' => needs_digit r'
  | _ => false
  end.

(** ** sessions.py: the other operations of [SessionManager]

    [create] reads the clock and draws an identifier; both are arguments
    here, as the clock readings of the operations above. *)

(** [SessionManager.create] *)
Definition create (now : Z) (uuid : str) (t : str) (mgr : SessionManager)
    : SessionManager * SessionData :=
  let session :=
    {| session_id := uuid; title := t; created_at := now; updated_at := now;
       conversation_history := []; rag_enabled := true |} in
  (_persist uuid (store uuid session mgr), session).

(** [SessionManager.get_or_create], whose argument is [None] or a string. *)
Definition get_or_create (now : Z) (uuid : str) (sid : option str)
    (mgr : SessionManager) : SessionManager * SessionData :=
  match sid with
  | Some id =>
      if nonempty id then
        match _sessions mgr !! id with
        | Some session => (mgr, session)
        | None => create now uuid New_chat mgr
        end
      else create now uuid New_chat mgr
  | None => create now uuid New_chat mgr
  end.

(** [SessionManager.delete]: the entry of the dictionary and the file. *)
Definition delete (sid : str) (mgr : SessionManager) : SessionManager * bool :=
  match _sessions mgr !! sid with
  | None => (mgr, false)
  | Some _ =>
      ({| _sessions := base.delete sid (_sessions mgr);
          session_files := base.delete sid (session_files mgr) |}, true)
  end.

(** A manager with one session of three messages. *)
Definition talk_session : SessionData :=
  {| session_id := py "s2"; title := py "Trip"; created_at := 100; updated_at := 130;
     conversation_history :=
       [ Message (py "user") (py "a"); Message (py "assistant") (py "b");
         Message (py "user") (py "c") ];
     rag_enabled := true |}.

Definition talk_manager : SessionManager :=
  {| _sessions := {[ py "s2" := talk_session ]};
     session_files := {[ py "s2" := talk_session ]} |}.

(** The files are the records in memory, and every record is kept under its
    own identifier. *)
Definition consistent (mgr : SessionManager) : Prop :=
  session_files mgr = _sessions mgr /\
  forall sid s, _sessions mgr !! sid = Some s -> session_id s = sid.

(** ** llm.py: [_strip_think_tags] and [LLMService.generate] *)

(** [.] under [re.DOTALL]. *)
Definition AnyChar : cclass := Union Dot (Lit 10).

(** A literal word. *)
Definition lit (w : string) : regex :=
  seq_of (List.map (fun c => Cls (Lit c)) (py w)).

(** [<think>.*?</think>], compiled with [re.DOTALL]. *)
Definition _THINK_PATTERN : regex :=
  seq_of [ lit "<think>"; Star false (Cls AnyChar); lit "</think>" ].

Section Substitution.
Context `{U : Unicode}.

(** [pattern.sub(repl, s)] for a replacement [repl] without backslash: the
    text between the successive matches of [finditer], with [repl] in the
    place of every match. *)
Fixpoint sub_from (fuel : nat) (r : regex) (repl s : str) (start : nat) : str :=
  match fuel with
  | 0 => drop start s
  | S fuel' =>
      if length s <? start then []
      else match search r s start with
           | None => drop start s
           | Some m =>
               take (m_start m - start) (drop start s) ++ repl ++
               (if m_start m <? m_end m then sub_from fuel' r repl s (m_end m)
                else take 1 (drop (m_end m) s) ++
                     sub_from fuel' r repl s (S (m_end m)))
           end
  end.

Definition sub (r : regex) (repl s : str) : str :=
  sub_from (S (S (length s))) r repl s 0.

(** [_strip_think_tags] *)
Definition _strip_think_tags (text : str) : str :=
  strip (sub _THINK_PATTERN [] text).

(** What the request of one attempt of [generate] meets: an exception of
    [client.post], a status that [raise_for_status] refuses, or a body, with
    the string at [data["message"]["content"]] or without one. *)
Inductive reply :=
| NoReply (e : exn)
| BadReply (status_code : Z)
| Reply (content : option str).

Inductive generated :=
| Text (s : str)
| Error (e : exn).

(** The [try] block of one attempt.  A body without the content raises an
    exception that no [except] clause of the function names. *)
Definition run_post (r : reply) : generated :=
  match r with
  | NoReply e => Error e
  | BadReply code => Error (HTTPStatusError code)
  | Reply (Some c) => Text (_strip_think_tags c)
  | Reply None => Error OtherError
  end.

(** The loop [for attempt in range(MAX_RETRIES + 1)] of [generate] and the
    [raise last_error] after it: the seconds slept and the result. *)
Fixpoint posts (server : nat -> reply) (attempt todo : nat) (last_error : exn)
    : list nat * generated :=
  match todo with
  | 0 => ([], Error last_error)
  | S todo' =>
      match run_post (server attempt) with
      | Text s => ([], Text s)
      | Error e =>
          if caught attempt e then
            let '(sleeps, res) := posts server (S attempt) todo' e in
            (RETRY_DELAY * (attempt + 1) :: sleeps, res)
          else ([], Error e)
      end
  end.

(** [LLMService.generate] *)
Definition llm_generate (server : nat -> reply) : list nat * generated :=
  posts server 0 (MAX_RETRIES + 1) OtherError.

(** A reply that the loop of [generate] retries. *)
Definition retried (r : reply) : bool :=
  match run_post r with
  | Text _ => false
  | Error (HTTPStatusError code) => retryable_status code
  | Error ConnectError | Error ReadError => true
  | Error OtherError => false
  end.
End Substitution.

(** The seconds [generate_stream] sleeps. *)
Definition sleeps (events : list stream_event) : list nat :=
  flat_map (fun e => match e with Yield _ => [] | Sleep n => [n] end) events.


(** *** Relations that a computation keeps *)

(** [keeps R m]: the world after [m] is related by [R] to the world
    before it. *)
Definition keeps {A} (R : world -> world -> Prop) (m : M A) : Prop :=
  forall w, R w (snd (m w)).

Definition same_sessions (w w' : world) : Prop := sessions w' = sessions w.

(** The indices of the audio chunks handed to [audio_chunk_callback]. *)
Definition chunk_indices (es : list event) : list nat :=
  flat_map (fun e => match e with EAudioChunk _ i => [i] | _ => [] end) es.

(** The events of a run from [w] to [w']. *)
Definition new_events (w w' : world) : list event :=
  drop (length (trace w)) (trace w').

(** The producer never reads the cancellation flag set. *)
Definition producer_clear (cancel_event : cancel_flag) : Prop :=
  match cancel_event with
  | None => True
  | Some is_set => forall n, is_set Producer n = false
  end.

(** The events that are a retrieval from the document store or from the
    conversation memory. *)
Definition is_retrieval (e : event) : bool :=
  match e with
  | ERetrievePages _ | ERetrieve _ | ERetrieveConversations _ => true
  | _ => false
  end.

(** [recorded sid user_text answer w w']: from [w] to [w'] the history of
    session [sid] has grown by the user turn and the assistant turn, the
    other sessions are as they were, and nothing has changed when the
    session does not exist. *)
Definition recorded (sid user_text answer : str) (w w' : world) : Prop :=
  (forall s, get sid (sessions w) = Some s ->
     exists s', get sid (sessions w') = Some s' /\
       conversation_history s' =
         conversation_history s ++
           [Message (py "user") user_text; Message (py "assistant") answer]) /\
  (get sid (sessions w) = None -> sessions w' = sessions w) /\
  (forall other, other <> sid -> get other (sessions w') = get other (sessions w)).

(** A chat without documents: every utterance is transcribed as "hello
    there" and answered by the two fragments "Hi " and "there.". *)
Definition chat_services : Services :=
  {| transcribe_bytes := fun _ => (py "hello there", 1%Z);
     generate := fun _ _ _ => py "Hi there.";
     stream_tokens := fun _ _ _ => [py "Hi "; py "there."];
     synthesize := fun text => Some text;
     list_documents := fun _ => [];
     get_page := fun _ _ => None;
     retrieve_pages := fun _ _ _ => [];
     retrieve := fun _ _ => [];
     retrieve_conversations := fun _ _ => [];
     time := fun n => Z.of_nat n;
     uuid4 := fun _ => py "0000" |}.

(** A cancellation flag that is set from the start. *)
Definition set_from_start : cancel_flag := Some (fun _ _ => true).

(** [same_chunks w w']: no audio chunk is handed over from [w] to [w']. *)
Definition same_chunks (w w' : world) : Prop :=
  chunk_indices (trace w') = chunk_indices (trace w).

(** [chunks_from lo hi w w']: the audio chunks handed over from [w] to [w']
    carry some of the indices [lo], ..., [hi - 1], each at most once and in
    increasing order. *)
Definition chunks_from (lo hi : nat) (w w' : world) : Prop :=
  lo <= hi /\
  exists l, chunk_indices (trace w') = chunk_indices (trace w) ++ l /\
            sublist l (seq lo (hi - lo)).

(** [same_retrievals w w']: no retrieval is made from [w] to [w']. *)
Definition same_retrievals (w w' : world) : Prop :=
  List.filter is_retrieval (trace w') = List.filter is_retrieval (trace w).

(** ** rag.py: [RAGService._chunk_text] *)

(** An index of a slice, as Python reads it for a string of length [len]:
    a negative index counts from the end, and both ends are clipped. *)
Definition slice_index (len i : Z) : Z :=
  if (i <? 0)%Z then Z.max (i + len) 0 else Z.min i len.

(** [s[a:b]] *)
Definition py_slice (s : str) (a b : Z) : str :=
  let len := Z.of_nat (length s) in
  let lo := slice_index len a in
  let hi := slice_index len b in
  take (Z.to_nat (hi - lo)) (drop (Z.to_nat lo) s).

(** The loop [while start < len(text)]; [None] stands for a loop that has
    not finished within its fuel. *)
Fixpoint chunk_loop (fuel : nat) (text : str) (chunk_size overlap start : Z)
    (chunks : list str) : option (list str) :=
  if (start <? Z.of_nat (length text))%Z then
    match fuel with
    | 0 => None
    | S fuel' =>
        let end_ := (start + chunk_size)%Z in
        let chunk := strip (py_slice text start end_) in
        chunk_loop fuel' text chunk_size overlap (start + (chunk_size - overlap))%Z
          (append_if chunks chunk)
    end
  else Some chunks.

(** [_chunk_text], with the number of rounds its loop may take. *)
Definition _chunk_text (fuel : nat) (text : str) (chunk_size overlap : Z)
    : option (list str) :=
  let text := strip text in
  if nonempty text then chunk_loop fuel text chunk_size overlap 0 [] else Some [].

(** ** rag.py: [RAGService.list_documents]

    The function is read on the list [all_meta["metadatas"]] that the
    document collection returns, one dictionary per stored chunk.  A
    dictionary is read with [meta[key]], which raises [KeyError] when the
    key is missing, or with [meta.get(key, default)]. *)

Record metadata := {
  meta_doc_id : option str;         (* meta["doc_id"] *)
  meta_filename : option str;       (* meta["filename"] *)
  meta_source_type : option str;    (* meta.get("source_type", "") *)
  meta_session_id : option str;     (* meta.get("session_id", "") *)
  meta_page_number : option Z       (* meta.get("page_number", -1) *)
}.

(** An entry of the dictionary [docs], and an entry of the result. *)
Record doc_entry := {
  entry_doc_id : str;
  entry_filename : str;
  entry_source_type : str;
  entry_chunks : nat;
  entry_pages : gset Z
}.

Record listed := {
  listed_doc_id : str;
  listed_filename : str;
  listed_source_type : str;
  listed_chunks : nat;
  listed_page_count : nat
}.

(** The test that keeps a chunk: no session is asked for, or the chunk is
    of the session asked for. *)
Definition in_session (session_id : option str) (meta : metadata) : bool :=
  match session_id with
  | None => true
  | Some sid => str_eqb (or_empty (meta_session_id meta)) sid
  end.

Definition page_of (meta : metadata) : Z :=
  match meta_page_number meta with Some pn => pn | None => (-1)%Z end.

(** [docs[did]["chunks"] += 1] and the page added to [docs[did]["pages"]]. *)
Definition count_chunk (meta : metadata) (d : doc_entry) : doc_entry :=
  {| entry_doc_id := entry_doc_id d; entry_filename := entry_filename d;
     entry_source_type := entry_source_type d;
     entry_chunks := S (entry_chunks d);
     entry_pages := if (0 <=? page_of meta)%Z then {[ page_of meta ]} ∪ entry_pages d
                    else entry_pages d |}.

(** The dictionary [docs] is the list of its values in the order in which
    the keys were first set; the key of an entry is its [doc_id]. *)
Definition has_doc (did : str) (docs : list doc_entry) : bool :=
  existsb (fun d => str_eqb (entry_doc_id d) did) docs.

Definition update_doc (did : str) (f : doc_entry -> doc_entry) (docs : list doc_entry)
    : list doc_entry :=
  List.map (fun d => if str_eqb (entry_doc_id d) did then f d else d) docs.

(** The loop [for meta in all_meta["metadatas"]]; [None] stands for the
    [KeyError] of a dictionary without ["doc_id"] or ["filename"]. *)
Fixpoint docs_loop (session_id : option str) (metas : list metadata)
    (docs : list doc_entry) : option (list doc_entry) :=
  match metas with
  | [] => Some docs
  | meta :: rest =>
      if negb (in_session session_id meta) then docs_loop session_id rest docs
      else
        match meta_doc_id meta with
        | None => None
        | Some did =>
            if has_doc did docs then
              docs_loop session_id rest (update_doc did (count_chunk meta) docs)
            else
              match meta_filename meta with
              | None => None
              | Some fname =>
                  let fresh :=
                    {| entry_doc_id := did; entry_filename := fname;
                       entry_source_type := or_empty (meta_source_type meta);
                       entry_chunks := 0; entry_pages := ∅ |} in
                  docs_loop session_id rest (docs ++ [count_chunk meta fresh])
              end
        end
  end.

(** The loop [for d in docs.values()]. *)
Definition to_listed (d : doc_entry) : listed :=
  {| listed_doc_id := entry_doc_id d; listed_filename := entry_filename d;
     listed_source_type := entry_source_type d;
     listed_chunks := entry_chunks d;
     listed_page_count := size (entry_pages d) |}.

(** [list_documents] *)
Definition rag_list_documents (session_id : option str) (metas : list metadata)
    : option (list listed) :=
  match docs_loop session_id metas [] with
  | Some docs => Some (List.map to_listed docs)
  | None => None
  end.

(** The chunks of document [did] that the listing counts. *)
Definition chunks_of (session_id : option str) (did : str) (metas : list metadata)
    : list metadata :=
  List.filter (fun meta => in_session session_id meta &&
                 match meta_doc_id meta with
                 | Some d => str_eqb d did
                 | None => false
                 end) metas.

(** The pages of a list of chunks: their page numbers that are not
    negative. *)
Definition pages_of (metas : list metadata) : gset Z :=
  list_to_set (List.filter (fun pn => (0 <=? pn)%Z) (List.map page_of metas)).

(** [counted session_id seen docs]: the dictionary [docs] lists every
    document of the chunks [seen] once, with the number of its chunks and
    the set of its pages. *)
Definition counted (session_id : option str) (seen : list metadata)
    (docs : list doc_entry) : Prop :=
  NoDup (List.map entry_doc_id docs) /\
  (forall did, In did (List.map entry_doc_id docs) <-> chunks_of session_id did seen <> []) /\
  (forall d, In d docs ->
     entry_chunks d = length (chunks_of session_id (entry_doc_id d) seen) /\
     entry_pages d = pages_of (chunks_of session_id (entry_doc_id d) seen)).

(** Three chunks of two documents. *)
Definition sample_metas : list metadata :=
  [ {| meta_doc_id := Some (py "d1"); meta_filename := Some (py "a.pdf");
       meta_source_type := Some (py "pdf"); meta_session_id := Some (py "s1");
       meta_page_number := Some 1%Z |};
    {| meta_doc_id := Some (py "d2"); meta_filename := Some (py "b.txt");
       meta_source_type := Some (py "txt"); meta_session_id := Some (py "s1");
       meta_page_number := Some (-1)%Z |};
    {| meta_doc_id := Some (py "d1"); meta_filename := Some (py "a.pdf");
       meta_source_type := Some (py "pdf"); meta_session_id := Some (py "s1");
       meta_page_number := Some 1%Z |} ].

(** The texts handed to [tts_service.synthesize]. *)
Definition synthesized (es : list event) : list str :=
  flat_map (fun e => match e with ESynthesize t => [t] | _ => [] end) es.

(** [same_spoken w w']: nothing is synthesized from [w] to [w']. *)
Definition same_spoken (w w' : world) : Prop :=
  synthesized (trace w') = synthesized (trace w).

(** [spoke l w w']: the texts [l] are synthesized, in this order, from [w]
    to [w']. *)
Definition spoke (l : list str) (w w' : world) : Prop :=
  synthesized (trace w') = synthesized (trace w) ++ l.

(** * Properties *)

(** ** Examples *)

Example strip_ex : strip (py "  a b  ") = py "a b".
Proof. reflexivity. Qed.

Example split_once_ex :
  split_once (py "--") (py "ab--cd--e") = Some (py "ab", py "cd--e").
Proof. reflexivity. Qed.

Example split_ws_ex : split_ws (py " Hello   big world ") = [py "Hello"; py "big"; py "world"].
Proof. reflexivity. Qed.

Section MatcherFacts.
Context `{U : Unicode}.

Lemma star_loop_sound r body g :
  sound_body r body -> forall fuel, sound_body (Star g r) (star_loop body g fuel).
Proof.
  intros Hb fuel. induction fuel as [|fuel IH]; intros st k res H; simpl in H.
  - exists st. split; [constructor | exact H].
  - set (k' := fun st' : mstate =>
                 if length (after st') <? length (after st)
                 then star_loop body g fuel st' k else None) in H.
    assert (Hmore : body st k' = Some res ->
              exists st', Matches (Star g r) st st' /\ k st' = Some res).
    { intros Hk. apply Hb in Hk as (st1 & Hm1 & Hk1). unfold k' in Hk1.
      destruct (length (after st1) <? length (after st)); [|discriminate].
      apply IH in Hk1 as (st2 & Hm2 & Hk2).
      exists st2. split; [eapply M_star_more; eassumption | exact Hk2]. }
    destruct g.
    + destruct (body st k') as [res'|] eqn:E.
      * apply Hmore. congruence.
      * exists st. split; [constructor | exact H].
    + destruct (k st) as [res'|] eqn:E.
      * exists st. split; [constructor | congruence].
      * apply Hmore, H.
Qed.

Lemma rmatch_sound r : sound_body r (rmatch r).
Proof.
  induction r as [|c|r1 IH1 r2 IH2|r1 IH1 r2 IH2|g r IH|n r IH|r IH|c| |];
    intros st k res H; simpl in H.
  - exists st. split; [constructor | exact H].
  - destruct st as [pre [|x suf] cs]; simpl in H; [discriminate|].
    destruct (cls_match c x) eqn:E; [|discriminate].
    eexists. split; [constructor; exact E | exact H].
  - apply IH1 in H as (st1 & Hm1 & H). apply IH2 in H as (st2 & Hm2 & H).
    exists st2. split; [econstructor; eassumption | exact H].
  - destruct (rmatch r1 st k) as [res'|] eqn:E.
    + apply IH1 in E as (st1 & Hm1 & E).
      exists st1. split; [apply M_alt_l, Hm1 | congruence].
    + apply IH2 in H as (st2 & Hm2 & H).
      exists st2. split; [apply M_alt_r, Hm2 | exact H].
  - exact (star_loop_sound r _ g IH (S (length (after st))) st k res H).
  - apply IH in H as (st1 & Hm1 & H).
    eexists. split; [apply M_group, Hm1 | exact H].
  - destruct (rmatch r st Some) as [st1|] eqn:E; [|discriminate].
    apply IH in E as (st2 & Hm2 & E). injection E as ->.
    eexists. split; [apply M_ahead, Hm2 | exact H].
  - destruct st as [[|x pre] suf cs]; simpl in H; [discriminate|].
    destruct (cls_match c x) eqn:E; [|discriminate].
    eexists. split; [constructor; exact E | exact H].
  - destruct (at_end st) eqn:E; [|discriminate].
    exists st. split; [constructor; exact E | exact H].
  - destruct (at_word_boundary st) eqn:E; [|discriminate].
    exists st. split; [constructor; exact E | exact H].
Qed.

(** A match moves forward over the text [w] it consumes and leaves the
    rest of the string alone. *)
Lemma Matches_consumed r st st' :
  Matches r st st' ->
  exists w, before st' = rev w ++ before st /\ after st = w ++ after st'.
Proof.
  induction 1 as [st|c x pre suf cs Hc|r1 r2 st1 st2 st3 _ IH1 _ IH2
                 |r1 r2 st st' _ IH|r1 r2 st st' _ IH|g r st
                 |g r st1 st2 st3 _ IH1 _ IH2|n r st st' _ IH|r st st' _ IH
                 |c x pre suf cs Hc|st He|st Hb]; simpl;
    try (exists []; split; reflexivity).
  - exists [x]. split; reflexivity.
  - destruct IH1 as (w1 & Hb1 & Ha1), IH2 as (w2 & Hb2 & Ha2).
    exists (w1 ++ w2). rewrite Hb2, Hb1, Ha1, Ha2, rev_app_distr, !app_assoc.
    split; reflexivity.
  - exact IH.
  - exact IH.
  - destruct IH1 as (w1 & Hb1 & Ha1), IH2 as (w2 & Hb2 & Ha2).
    exists (w1 ++ w2). rewrite Hb2, Hb1, Ha1, Ha2, rev_app_distr, !app_assoc.
    split; reflexivity.
  - exact IH.
Qed.

(** The span of a match found by [scan]. *)
Lemma scan_sound r s pre suf m :
  scan r s pre suf = Some m ->
  exists skipped rest st',
    suf = skipped ++ rest /\
    Matches r (MState (rev skipped ++ pre) rest []) st' /\
    m_string m = s /\
    m_start m = length pre + length skipped /\
    m_end m = pos st'.
Proof.
  revert pre. induction suf as [|c suf IH]; intros pre H; simpl in H.
  - destruct (rmatch r (MState pre [] []) Some) as [st'|] eqn:E; [|discriminate].
    injection H as <-. apply rmatch_sound in E as (st2 & Hm & E). injection E as ->.
    exists [], [], st'. simpl. repeat split; [exact Hm | lia].
  - destruct (rmatch r (MState pre (c :: suf) []) Some) as [st'|] eqn:E.
    + injection H as <-. apply rmatch_sound in E as (st2 & Hm & E). injection E as ->.
      exists [], (c :: suf), st'. simpl. repeat split; [exact Hm | lia].
    + apply IH in H as (sk & rest & st' & Hsuf & Hm & Hs & Hst & He).
      exists (c :: sk), rest, st'. simpl. rewrite <- app_assoc. simpl.
      repeat split; [congruence | exact Hm | exact Hs | simpl in Hst; lia | exact He].
Qed.

(** The span of a match found by [search]: the string is [a ++ w ++ b],
    the match starts after [a], not before [start], and consumes [w]. *)
Lemma search_sound r s start m :
  search r s start = Some m ->
  exists a w b st',
    s = a ++ w ++ b /\
    Matches r (MState (rev a) (w ++ b) []) st' /\
    before st' = rev w ++ rev a /\ after st' = b /\
    m_string m = s /\
    m_start m = length a /\ m_end m = length a + length w /\
    Nat.min start (length s) <= length a.
Proof.
  unfold search. intros H.
  apply scan_sound in H as (sk & rest & st' & Hsuf & Hm & Hs & Hst & He).
  destruct (Matches_consumed _ _ _ Hm) as (w & Hb & Ha). simpl in Hb, Ha.
  exists (take start s ++ sk), w, (after st'), st'.
  rewrite rev_app_distr, <- Ha.
  assert (Hlen : length (take start s) = Nat.min start (length s))
    by apply length_take.
  rewrite length_rev, Hlen in Hst.
  repeat split.
  - rewrite <- app_assoc, <- Hsuf. symmetry. apply take_drop.
  - exact Hm.
  - exact Hb.
  - exact Hs.
  - rewrite length_app, Hlen. exact Hst.
  - rewrite He. unfold pos. rewrite Hb, !length_app, !length_rev, Hlen. lia.
  - rewrite length_app, Hlen. lia.
Qed.
End MatcherFacts.

(** ** Facts about strings *)

Lemma all_space_app w1 w2 : all_space w1 -> all_space w2 -> all_space (w1 ++ w2).
Proof. unfold all_space. intros. apply Forall_app. split; assumption. Qed.

Lemma all_space_rev w : all_space w -> all_space (rev w).
Proof.
  unfold all_space. rewrite !List.Forall_forall. intros H x Hx.
  apply H, in_rev, Hx.
Qed.

Lemma all_space_nil : all_space [].
Proof. constructor. Qed.

Lemma non_space_app a b : non_space (a ++ b) = non_space a ++ non_space b.
Proof. apply List.filter_app. Qed.

Lemma non_space_all_space w : all_space w -> non_space w = [].
Proof.
  induction 1 as [|c w Hc _ IH]; simpl; [reflexivity|]. rewrite Hc. exact IH.
Qed.

Lemma drop_while_split p s :
  exists l, s = l ++ drop_while p s /\ Forall (fun c => p c = true) l.
Proof.
  induction s as [|c s (l & Hs & Hl)]; simpl.
  - exists []. split; [reflexivity | constructor].
  - destruct (p c) eqn:E.
    + exists (c :: l). split; [simpl; congruence | constructor; assumption].
    + exists []. split; [reflexivity | constructor].
Qed.

(** [strip] only removes white space, at both ends. *)
Lemma strip_split s :
  exists l t, s = l ++ strip s ++ t /\ all_space l /\ all_space t.
Proof.
  unfold strip, rstrip, lstrip.
  destruct (drop_while_split is_space s) as (l & Hs & Hl).
  destruct (drop_while_split is_space (rev (drop_while is_space s))) as (t & Ht & Htl).
  exists l, (rev t). repeat split.
  - rewrite <- rev_app_distr, <- Ht, rev_involutive. exact Hs.
  - exact Hl.
  - apply all_space_rev, Htl.
Qed.

Lemma starts_with_app sep s :
  starts_with sep s = true -> exists rest, s = sep ++ rest.
Proof.
  revert s. induction sep as [|x sep IH]; intros s H; simpl in H.
  - exists s. reflexivity.
  - destruct s as [|y s]; [discriminate|].
    apply andb_prop in H as [Hxy H]. apply N.eqb_eq in Hxy. subst y.
    destruct (IH _ H) as (rest & ->). exists rest. reflexivity.
Qed.

Lemma find_split sep s i :
  find sep s = Some i ->
  s = take i s ++ sep ++ drop (i + length sep) s.
Proof.
  revert i. induction s as [|c s IH]; intros i H; simpl in H.
  - destruct (starts_with sep []) eqn:E; [|discriminate].
    injection H as <-. apply starts_with_app in E as (rest & E).
    simpl. rewrite E at 1. rewrite E, drop_app_length. reflexivity.
  - destruct (starts_with sep (c :: s)) eqn:E.
    + injection H as <-. apply starts_with_app in E as (rest & E).
      simpl. rewrite E at 1. rewrite E, drop_app_length. reflexivity.
    + destruct (find sep s) as [j|] eqn:Ej; [|discriminate].
      injection H as <-. simpl. f_equal. apply IH. reflexivity.
  Qed.

Lemma split_once_split sep s a b :
  split_once sep s = Some (a, b) -> s = a ++ sep ++ b.
Proof.
  unfold split_once. destruct (find sep s) as [i|] eqn:E; [|discriminate].
  intros H. injection H as <- <-. apply find_split, E.
Qed.

Lemma weave_app_space outs text w :
  weave outs text -> all_space w -> weave outs (text ++ w).
Proof.
  induction 1 as [w0 H0|w0 o outs rest H0 _ IH]; intros Hw.
  - constructor. apply all_space_app; assumption.
  - rewrite <- !app_assoc. constructor; [exact H0 | apply IH, Hw].
Qed.

Lemma weave_snoc outs text w1 o w2 :
  weave outs text -> all_space w1 -> all_space w2 ->
  weave (outs ++ [o]) (text ++ w1 ++ o ++ w2).
Proof.
  induction 1 as [w0 H0|w0 o' outs rest H0 _ IH]; intros H1 H2; simpl.
  - rewrite app_assoc. constructor; [apply all_space_app; assumption|].
    constructor. exact H2.
  - rewrite <- !app_assoc. constructor; [exact H0 | apply IH; assumption].
Qed.

(** Emitting [strip x] and dropping the white space [dropped] after it. *)
Lemma weave_emit outs text x dropped :
  weave outs text -> all_space dropped ->
  weave (outs ++ [strip x]) (text ++ x ++ dropped).
Proof.
  intros Hw Hd. destruct (strip_split x) as (l & t & Hx & Hl & Ht).
  rewrite Hx at 2. rewrite <- !app_assoc.
  apply weave_snoc; [exact Hw | exact Hl | apply all_space_app; assumption].
Qed.

Lemma weave_emit_if outs text x dropped :
  weave outs text -> all_space dropped ->
  weave (append_if outs (strip x)) (text ++ x ++ dropped).
Proof.
  intros Hw Hd. unfold append_if. destruct (strip x) as [|c r] eqn:E; simpl.
  - destruct (strip_split x) as (l & t & Hx & Hl & Ht). rewrite E in Hx.
    apply weave_app_space; [|rewrite Hx; simpl].
    + exact Hw.
    + repeat apply all_space_app; assumption.
  - rewrite <- E. apply weave_emit; assumption.
Qed.

Lemma weave_non_space outs text :
  weave outs text -> non_space text = non_space (concat outs).
Proof.
  induction 1 as [w H|w o outs rest H _ IH]; simpl.
  - apply non_space_all_space, H.
  - rewrite !non_space_app, IH, (non_space_all_space w H). reflexivity.
Qed.

(** ** What the split patterns consume *)

Section SplitPatterns.
Context `{U : Unicode}.

Lemma Matches_star_cls g c st st' :
  Matches (Star g (Cls c)) st st' ->
  exists w, Forall (fun x => cls_match c x = true) w /\
            before st' = rev w ++ before st /\ after st = w ++ after st'.
Proof.
  intros H. remember (Star g (Cls c)) as r eqn:Er.
  induction H as [| | | | | g' r' st|g' r' st1 st2 st3 H1 _ H2 IH2| | | | |];
    try discriminate.
  - exists []. repeat split; constructor.
  - injection Er as -> ->. destruct (IH2 eq_refl) as (w & Hw & Hb & Ha).
    inv H1. simpl in *. exists (x :: w). repeat split.
    + constructor; assumption.
    + rewrite Hb. simpl. rewrite <- app_assoc. reflexivity.
    + rewrite Ha. reflexivity.
Qed.

(** [\s+] consumes a non-empty run of white space. *)
Lemma Matches_ws1 st st' :
  Matches ws1 st st' ->
  exists w, w <> [] /\ all_space w /\
            before st' = rev w ++ before st /\ after st = w ++ after st'.
Proof.
  intros H. cbv [ws1 Plus] in H. inv H.
  match goal with H : Matches (Cls _) _ _ |- _ => inv H end.
  match goal with H : Matches (Star _ _) _ _ |- _ =>
    apply Matches_star_cls in H as (w & Hw & Hb & Ha) end.
  simpl in *. exists (x :: w). repeat split.
  - discriminate.
  - constructor; assumption.
  - rewrite Hb. simpl. rewrite <- app_assoc. reflexivity.
  - rewrite Ha. reflexivity.
Qed.

(** A match of [_SENTENCE_END_RE] is a non-empty run of white space. *)
Lemma sentence_end_consumes st st' :
  Matches _SENTENCE_END_RE st st' ->
  exists w, w <> [] /\ all_space w /\
            before st' = rev w ++ before st /\ after st = w ++ after st'.
Proof.
  intros H. cbv [_SENTENCE_END_RE seq_of] in H.
  inversion H as [| |? ? ? st1 ? Hbehind Hrest| | | | | | | | |]; subst; clear H.
  inversion Hrest as [| |? ? ? st2 ? Hws Hahead| | | | | | | | |]; subst; clear Hrest.
  inv Hbehind. inv Hahead.
  apply Matches_ws1 in Hws as (w & Hne & Hw & Hb & Ha).
  exists w. simpl in *. repeat split; assumption.
Qed.

(** A match of [_CLAUSE_SPLIT_RE] is one of [,;:] and a non-empty run of
    white space. *)
Lemma clause_split_consumes st st' :
  Matches _CLAUSE_SPLIT_RE st st' ->
  exists c w, char_in c (py ",;:") = true /\ w <> [] /\ all_space w /\
              before st' = rev w ++ c :: before st /\
              after st = c :: w ++ after st'.
Proof.
  intros H. cbv [_CLAUSE_SPLIT_RE seq_of] in H.
  inversion H as [| |? ? ? st1 ? Hpunct Hrest| | | | | | | | |]; subst; clear H.
  inversion Hrest as [| |? ? ? st2 ? Hws Hahead| | | | | | | | |]; subst; clear Hrest.
  inversion Hpunct as [|? x pre suf cs Hc| | | | | | | | | |]; subst; clear Hpunct.
  inv Hahead.
  apply Matches_ws1 in Hws as (w & Hne & Hw & Hb & Ha).
  exists x, w. cbn [before after with_caps] in *.
  repeat split; [exact Hc | assumption.. | congruence].
Qed.

Lemma rev_app_inj (w w' a : list char) : rev w ++ a = rev w' ++ a -> w = w'.
Proof.
  intros H. apply app_inv_tail in H.
  rewrite <- (rev_involutive w), <- (rev_involutive w'). congruence.
Qed.

(** [_SENTENCE_END_RE.search(buffer, search_start)]: the buffer is
    [a ++ w ++ b] with the match on the white space [w]. *)
Lemma search_sentence_end buffer search_start m :
  search _SENTENCE_END_RE buffer search_start = Some m ->
  exists a w b,
    buffer = a ++ w ++ b /\ w <> [] /\ all_space w /\
    m_start m = length a /\ m_end m = length a + length w /\
    Nat.min search_start (length buffer) <= length a.
Proof.
  intros H. apply search_sound in H
    as (a & w & b & st' & Hs & Hm & Hb & Ha & _ & Hst & He & Hmin).
  apply sentence_end_consumes in Hm as (w' & Hne & Hw & Hb' & Ha').
  simpl in *. rewrite Hb in Hb'. apply rev_app_inj in Hb'. subst w'.
  exists a, w, b. repeat split; assumption.
Qed.

(** [_CLAUSE_SPLIT_RE.search(buffer, start)]: the buffer is
    [a ++ c :: w ++ b] with the match on the punctuation [c] and the white
    space [w]. *)
Lemma search_clause_split buffer start m :
  search _CLAUSE_SPLIT_RE buffer start = Some m ->
  exists a c w b,
    buffer = a ++ c :: w ++ b /\ char_in c (py ",;:") = true /\
    w <> [] /\ all_space w /\
    m_start m = length a /\ m_end m = length a + 1 + length w /\
    Nat.min start (length buffer) <= length a.
Proof.
  intros H. apply search_sound in H
    as (a & w0 & b & st' & Hs & Hm & Hb & Ha & _ & Hst & He & Hmin).
  apply clause_split_consumes in Hm as (c & w & Hc & Hne & Hw & Hb' & Ha').
  simpl in *.
  assert (w0 = c :: w) as ->.
  { apply (rev_app_inj _ _ (rev a)). rewrite <- Hb, Hb'. simpl.
    rewrite <- app_assoc. reflexivity. }
  exists a, c, w, b. simpl in *. repeat split; try assumption. lia.
Qed.

Lemma finditer_from_search fuel r s start m :
  In m (finditer_from fuel r s start) ->
  exists start', search r s start' = Some m.
Proof.
  revert start. induction fuel as [|fuel IH]; intros start H; simpl in H.
  - destruct H.
  - destruct (length s <? start); [destruct H|].
    destruct (search r s start) as [m0|] eqn:E; [|destruct H].
    destruct H as [<-|H]; [exists start; exact E | eapply IH, H].
Qed.
End SplitPatterns.

(** ** [SentenceBuffer]: every character is accounted for *)

Section SegmenterFacts.
Context `{U : Unicode}.

Lemma append_if_app prev sentences s :
  prev ++ append_if sentences s = append_if (prev ++ sentences) s.
Proof. unfold append_if. destruct (nonempty s); [apply app_assoc | reflexivity]. Qed.

Lemma all_space_NLNL : all_space NLNL.
Proof. repeat constructor. Qed.

Lemma accounts_emit_if prev input sentences x dropped rest :
  accounts prev input sentences (x ++ dropped ++ rest) -> all_space dropped ->
  accounts prev input (append_if sentences (strip x)) rest.
Proof.
  intros (text & Hw & Hin) Hd. exists (text ++ x ++ dropped). split.
  - rewrite append_if_app. apply weave_emit_if; assumption.
  - rewrite Hin, <- !app_assoc. reflexivity.
Qed.

Lemma accounts_emit prev input sentences x dropped rest :
  accounts prev input sentences (x ++ dropped ++ rest) -> all_space dropped ->
  accounts prev input (sentences ++ [strip x]) rest.
Proof.
  intros (text & Hw & Hin) Hd. exists (text ++ x ++ dropped). split.
  - rewrite app_assoc. apply weave_emit; assumption.
  - rewrite Hin, <- !app_assoc. reflexivity.
Qed.

Lemma paragraph_loop_spec prev input fuel : forall buffer sentences,
  length buffer <= fuel ->
  accounts prev input sentences buffer ->
  exists buffer' sentences',
    paragraph_loop fuel buffer sentences = Some (buffer', sentences') /\
    accounts prev input sentences' buffer'.
Proof.
  induction fuel as [|fuel IH]; intros buffer sentences Hlen Hacc; simpl;
    destruct (split_once NLNL buffer) as [[b a]|] eqn:E;
    try (exists buffer, sentences; split; [reflexivity | exact Hacc]);
    apply split_once_split in E; subst buffer;
    rewrite !length_app in Hlen; simpl in Hlen.
  - lia.
  - apply IH; [lia|]. eapply accounts_emit_if; [exact Hacc | apply all_space_NLNL].
Qed.

Lemma sentence_loop_spec prev input fuel : forall buffer search_start sentences,
  search_start <= length buffer ->
  length buffer * (length buffer + 1) + (length buffer - search_start) < fuel ->
  accounts prev input sentences buffer ->
  exists buffer' sentences',
    sentence_loop fuel buffer search_start sentences = Some (buffer', sentences') /\
    accounts prev input sentences' buffer'.
Proof.
  induction fuel as [|fuel IH]; intros buffer ss sentences Hss Hfuel Hacc; [lia|].
  simpl. destruct (search _SENTENCE_END_RE buffer ss) as [m|] eqn:E.
  2: { exists buffer, sentences. split; [reflexivity | exact Hacc]. }
  apply search_sentence_end in E as (a & w & b & Hbuf & Hne & Hw & Hst & He & Hmin).
  assert (Hwl : 0 < length w) by (destruct w; [congruence | simpl; lia]).
  assert (Hlen : length buffer = length a + length w + length b)
    by (rewrite Hbuf, !length_app; lia).
  assert (Hskip : exists buffer' sentences',
            sentence_loop fuel buffer (m_end m) sentences = Some (buffer', sentences') /\
            accounts prev input sentences' buffer').
  { apply IH; [lia | | exact Hacc]. lia. }
  destruct (ends_with_abbreviation _); [exact Hskip|].
  destruct (found _SINGLE_LETTER_ABBR_RE _); [exact Hskip|].
  destruct (found _DECIMAL_END_RE _); [exact Hskip|].
  destruct (length _ <? MIN_SENTENCE_LENGTH); [exact Hskip|].
  assert (Htake : take (m_start m) buffer = a)
    by (rewrite Hst, Hbuf; apply take_app_length).
  assert (Hdrop : drop (m_end m) buffer = b).
  { rewrite He, Hbuf, app_assoc, <- length_app. apply drop_app_length. }
  rewrite Htake, Hdrop. apply IH.
  - lia.
  - assert (length b < length buffer) by lia. nia.
  - eapply accounts_emit; [|exact Hw]. rewrite <- Hbuf. exact Hacc.
Qed.

Lemma force_split_spec prev input buffer sentences :
  accounts prev input sentences buffer ->
  accounts prev input (snd (force_split buffer sentences))
                      (fst (force_split buffer sentences)).
Proof.
  intros Hacc. unfold force_split.
  destruct (MAX_BUFFER_LENGTH <? length buffer); [|exact Hacc].
  destruct (last (finditer _CLAUSE_SPLIT_RE buffer)) as [m|] eqn:E; [|exact Hacc].
  apply last_Some in E as (l' & E).
  assert (Hin : In m (finditer _CLAUSE_SPLIT_RE buffer))
    by (rewrite E; apply in_or_app; right; left; reflexivity).
  apply finditer_from_search in Hin as (start' & Hs).
  apply search_clause_split in Hs
    as (a & c & w & b & Hbuf & Hc & Hne & Hw & Hst & He & _).
  simpl.
  assert (Htake : take (m_start m + 1) buffer = a ++ [c]).
  { rewrite Hst, Hbuf. replace (length a + 1) with (length (a ++ [c]))
      by (rewrite length_app; reflexivity).
    change (a ++ c :: w ++ b) with (a ++ [c] ++ w ++ b).
    rewrite app_assoc. apply take_app_length. }
  assert (Hdrop : drop (m_end m) buffer = b).
  { rewrite He, Hbuf. replace (length a + 1 + length w)
      with (length (a ++ c :: w)) by (rewrite length_app; simpl; lia).
    change (a ++ c :: w ++ b) with (a ++ (c :: w) ++ b).
    rewrite app_assoc. apply drop_app_length. }
  rewrite Htake, Hdrop. eapply accounts_emit_if; [|exact Hw].
  rewrite <- app_assoc. simpl. rewrite <- Hbuf. exact Hacc.
Qed.

(** [add] always returns, and keeps the account. *)
Lemma add_spec prev input self token :
  accounts prev input [] (_buffer self) ->
  exists self' out,
    add self token = Some (self', out) /\
    accounts prev (input ++ token) out (_buffer self').
Proof.
  intros (text & Hw & Hin). unfold add, add_passes.
  destruct (paragraph_loop_spec prev (input ++ token)
              (length (_buffer self ++ token)) (_buffer self ++ token) [])
    as (b1 & s1 & -> & H1); [lia | |].
  { exists text. split; [exact Hw | rewrite Hin, app_assoc; reflexivity]. }
  destruct (sentence_loop_spec prev (input ++ token)
              (S (length b1) * S (length b1)) b1 0 s1)
    as (b2 & s2 & -> & H2); [lia | nia | exact H1 |].
  pose proof (force_split_spec _ _ _ _ H2) as H3.
  destruct (force_split b2 s2) as [b3 s3]. simpl in H3.
  eexists _, _. split; [reflexivity | exact H3].
Qed.

(** [add] returns, whatever the buffer and the fragment. *)
Lemma add_returns self token : exists r, add self token = Some r.
Proof.
  destruct (add_spec [] (_buffer self) self token) as (self' & out & H & _).
  { exists []. split; [constructor; constructor | reflexivity]. }
  eauto.
Qed.

Lemma feed_spec tokens : forall prev input self,
  accounts prev input [] (_buffer self) ->
  exists self' outs,
    feed self tokens = Some (self', outs) /\
    accounts (prev ++ outs) (input ++ concat tokens) [] (_buffer self').
Proof.
  induction tokens as [|token tokens IH]; intros prev input self Hacc; simpl.
  - exists self, []. rewrite !app_nil_r. split; [reflexivity | exact Hacc].
  - destruct (add_spec prev input self token Hacc) as (self1 & out & -> & H1).
    destruct (IH (prev ++ out) (input ++ token) self1) as (self2 & outs & -> & H2).
    { destruct H1 as (text & Hw & Hin). exists text.
      rewrite app_nil_r. split; assumption. }
    exists self2, (out ++ outs). split; [reflexivity|].
    rewrite !app_assoc in *. exact H2.
Qed.
End SegmenterFacts.

(** ** Claims about [SentenceBuffer] *)

Section SegmenterClaims.
Context `{U : Unicode}.

(** C1. For every sequence of fragments fed in order to [add] and followed
    by one [flush], all the calls return, and the sentences they return, in
    order, together with the result of [flush], are the whole input with
    white space removed around them and nothing else: the input is these
    sentences woven with white space, so its characters other than white
    space are exactly theirs, each once and in the original order. *)
Theorem add_flush_reconstructs (tokens : list str) :
  exists self outs,
    feed new_buffer tokens = Some (self, outs) /\
    let emitted := outs ++ option_list (snd (flush self)) in
    weave emitted (concat tokens) /\
    non_space (concat emitted) = non_space (concat tokens).
Proof.
  destruct (feed_spec tokens [] [] new_buffer) as (self & outs & Hfeed & Hacc).
  { exists []. split; [constructor; constructor | reflexivity]. }
  exists self, outs. split; [exact Hfeed|].
  assert (Hw : weave (outs ++ option_list (snd (flush self))) (concat tokens)).
  { destruct Hacc as (text & Hw & Hin). simpl in Hw, Hin.
    rewrite app_nil_r in Hw. rewrite Hin. unfold flush. simpl.
    destruct (strip (_buffer self)) as [|c r] eqn:E; simpl.
    - rewrite app_nil_r. destruct (strip_split (_buffer self)) as (l & t & Hb & Hl & Ht).
      rewrite E in Hb. simpl in Hb. rewrite Hb.
      apply weave_app_space; [exact Hw | apply all_space_app; assumption].
    - rewrite <- E. rewrite <- (app_nil_r (_buffer self)) at 2.
      apply weave_emit; [exact Hw | constructor]. }
  split; [exact Hw | symmetry; apply weave_non_space, Hw].
Qed.

(** The result of [add] on the fragment of C3. *)
Lemma dr_smith_stays_buffered :
  add new_buffer (py "Dr. Smith arrived. He left.") =
    Some ({| _buffer := py "Dr. Smith arrived. He left." |}, []).
Proof. vm_compute. reflexivity. Qed.

(** C3, as the code has it.  The fragment "Dr. Smith arrived. He left." fed
    to a fresh buffer yields no sentence from [add]: there is no split after
    "Dr.", and the candidate "Dr. Smith arrived." has 18 characters, fewer
    than [MIN_SENTENCE_LENGTH], so it is merged forward.  The text stays in
    the buffer and [flush] returns it whole. *)
Theorem add_dr_smith :
  add new_buffer (py "Dr. Smith arrived. He left.") =
    Some ({| _buffer := py "Dr. Smith arrived. He left." |}, []) /\
  length (py "Dr. Smith arrived.") < MIN_SENTENCE_LENGTH /\
  flush {| _buffer := py "Dr. Smith arrived. He left." |} =
    (new_buffer, Some (py "Dr. Smith arrived. He left.")).
Proof.
  split; [exact dr_smith_stays_buffered | split; [vm_compute; lia | reflexivity]].
Qed.

(** With a first sentence of at least [MIN_SENTENCE_LENGTH] characters the
    split after it is made, and still none after "Dr.". *)
Example dr_smith_longer_sentence :
  add new_buffer (py "Dr. Smith arrived safely. He left.") =
    Some ({| _buffer := py "He left." |}, [py "Dr. Smith arrived safely."]).
Proof. vm_compute. reflexivity. Qed.

(** The decimal guard of the specification: no split inside or after
    "3.14". *)
Example add_decimal :
  add new_buffer (py "The value is 3.14 and rising.") =
    Some ({| _buffer := py "The value is 3.14 and rising." |}, []).
Proof. vm_compute. reflexivity. Qed.
End SegmenterClaims.

(** C3, as the specification has it, fails: whatever the Unicode tables,
    [add] does not return the two sentences. *)
Lemma add_dr_smith_not_two_sentences :
  ~ exists (U : Unicode) (self : SentenceBuffer),
      add new_buffer (py "Dr. Smith arrived. He left.") =
        Some (self, [py "Dr. Smith arrived."; py "He left."]).
Proof.
  intros (U & self & H). rewrite dr_smith_stays_buffered in H. discriminate.
Qed.

(** ** Claims about the page-request detector *)

Section PageRequestClaims.
Context `{U : Unicode}.

(** C6. The detector maps "read page 5 of the manual" to page 5 with the
    hint "the manual", "what is on page 2" to page 2 without a hint, and
    finds no page request in "tell me about the budget report". *)
Theorem detect_page_request_examples :
  _detect_page_request (py "read page 5 of the manual") =
    Some (5%N, Some (py "the manual")) /\
  _detect_page_request (py "what is on page 2") = Some (2%N, None) /\
  _detect_page_request (py "tell me about the budget report") = None.
Proof. repeat split; vm_compute; reflexivity. Qed.
End PageRequestClaims.

(** ** The forced split and the clause boundaries *)

Ltac bool_to_prop H :=
  repeat first
    [ rewrite orb_true_iff in H | rewrite andb_true_iff in H
    | rewrite N.leb_le in H | rewrite N.eqb_eq in H ].

Lemma space_not_alpha c : is_space c = true -> is_ascii_alpha c = false.
Proof.
  intros Hs. apply not_true_is_false. intros Ha. revert Hs Ha.
  unfold is_space, is_ascii_alpha, is_ascii_upper, is_ascii_lower, in_range, char_in.
  cbn [existsb]. intros Hs Ha. bool_to_prop Hs. bool_to_prop Ha. lia.
Qed.

Lemma space_not_punct c : is_space c = true -> is_clause_punct c = false.
Proof.
  intros Hs. apply not_true_is_false. intros Ha. revert Hs Ha.
  unfold is_space, is_clause_punct, in_range, char_in.
  cbn. intros Hs Ha. bool_to_prop Hs. bool_to_prop Ha. lia.
Qed.

Lemma take_drop_while p s : take_while p s ++ drop_while p s = s.
Proof.
  induction s as [|c s IH]; simpl; [reflexivity|].
  destruct (p c); simpl; [rewrite IH|]; reflexivity.
Qed.

Lemma take_while_all p s : Forall (fun c => p c = true) (take_while p s).
Proof.
  induction s as [|c s IH]; simpl; [constructor|].
  destruct (p c) eqn:E; constructor; assumption.
Qed.

Lemma take_while_app p w x rest :
  Forall (fun c => p c = true) w -> p x = false ->
  take_while p (w ++ x :: rest) = w /\ drop_while p (w ++ x :: rest) = x :: rest.
Proof.
  induction 1 as [|c w Hc _ IH]; intros Hx; simpl.
  - rewrite Hx. split; reflexivity.
  - rewrite Hc. destruct (IH Hx) as [-> ->]. split; reflexivity.
Qed.

Section ClauseBoundaries.
Context `{U : Unicode}.

(** Greedy repetition of one character class, before a rest of the pattern
    that cannot succeed in front of a character of the class, runs to the
    end of the run of such characters. *)
Lemma star_loop_cls_greedy c (k : cont) :
  (forall pre x suf cs, cls_match c x = true -> k (MState pre (x :: suf) cs) = None) ->
  forall fuel pre suf cs,
    length suf < fuel ->
    star_loop (rmatch (Cls c)) true fuel (MState pre suf cs) k =
      k (MState (rev (take_while (cls_match c) suf) ++ pre)
                (drop_while (cls_match c) suf) cs).
Proof.
  intros Hk. induction fuel as [|fuel IH]; intros pre suf cs Hlen; [lia|].
  destruct suf as [|x suf]; [reflexivity|].
  cbn [star_loop rmatch after before caps take_while drop_while].
  destruct (cls_match c x) eqn:E; [|reflexivity].
  replace (length suf <? length (x :: suf)) with true
    by (symmetry; apply Nat.ltb_lt; simpl; lia).
  rewrite IH by (simpl in Hlen; lia).
  cbn [rev]. rewrite <- app_assoc. cbn [app].
  destruct (k _) eqn:Ek; [reflexivity|]. apply Hk, E.
Qed.

(** The equations of the matcher. *)
Lemma rmatch_seq r1 r2 st k :
  rmatch (Seq r1 r2) st k = rmatch r1 st (fun st1 => rmatch r2 st1 k).
Proof. reflexivity. Qed.

Lemma rmatch_cls c pre x suf cs k :
  rmatch (Cls c) (MState pre (x :: suf) cs) k =
    if cls_match c x then k (MState (x :: pre) suf cs) else None.
Proof. reflexivity. Qed.

Lemma rmatch_cls_nil c pre cs k : rmatch (Cls c) (MState pre [] cs) k = None.
Proof. reflexivity. Qed.

Lemma rmatch_star g r st k :
  rmatch (Star g r) st k = star_loop (rmatch r) g (S (length (after st))) st k.
Proof. reflexivity. Qed.

Lemma rmatch_ahead r st k :
  rmatch (Ahead r) st k =
    match rmatch r st Some with
    | Some st' => k (with_caps st (caps st'))
    | None => None
    end.
Proof. reflexivity. Qed.

(** Where [_CLAUSE_SPLIT_RE] matches, and how far. *)
Lemma rmatch_clause pre suf cs :
  option_map pos (rmatch _CLAUSE_SPLIT_RE (MState pre suf cs) Some) =
    option_map (Nat.add (length pre)) (clause_at suf).
Proof.
  unfold _CLAUSE_SPLIT_RE, seq_of, ws1, Plus, clause_at.
  rewrite rmatch_seq.
  destruct suf as [|c rest]; [reflexivity|].
  rewrite rmatch_cls. change (cls_match (OneOf (py ",;:")) c) with (is_clause_punct c).
  destruct (is_clause_punct c); [|reflexivity].
  rewrite !rmatch_seq.
  destruct rest as [|x rest]; [reflexivity|].
  rewrite rmatch_cls. cbn [take_while drop_while].
  change (cls_match Space x) with (is_space x).
  destruct (is_space x) eqn:Ex; [|reflexivity].
  rewrite rmatch_star. cbn [after].
  rewrite star_loop_cls_greedy.
  - change (cls_match Space) with is_space. rewrite rmatch_ahead.
    destruct (drop_while is_space rest) as [|l rest'] eqn:Ed; [reflexivity|].
    rewrite rmatch_cls.
    change (cls_match (Union (Range (chr "A") (chr "Z")) (Range (chr "a") (chr "z"))) l)
      with (is_ascii_alpha l).
    destruct (is_ascii_alpha l); [|reflexivity].
    cbn [option_map]. f_equal. unfold pos, with_caps. cbn [before].
    rewrite length_app, length_rev. simpl. lia.
  - intros pre' x' suf' cs' Hx'. rewrite rmatch_ahead, rmatch_cls.
    change (cls_match Space x') with (is_space x') in Hx'.
    change (cls_match (Union (Range (chr "A") (chr "Z")) (Range (chr "a") (chr "z"))) x')
      with (is_ascii_alpha x').
    rewrite (space_not_alpha _ Hx'). reflexivity.
  - simpl. lia.
Qed.

Lemma scan_clause s pre suf :
  option_map (fun m => (m_start m, m_end m)) (scan _CLAUSE_SPLIT_RE s pre suf) =
    first_clause (length pre) suf.
Proof.
  revert pre. induction suf as [|c suf IH]; intros pre;
    cbn [scan first_clause];
    pose proof (rmatch_clause pre) as Hr.
  - specialize (Hr [] []).
    destruct (rmatch _ _ _) as [st'|]; destruct (clause_at []) as [n|];
      simpl in Hr; try discriminate; [|reflexivity].
    injection Hr as Hr. simpl. rewrite Hr. reflexivity.
  - specialize (Hr (c :: suf) []).
    destruct (rmatch _ _ _) as [st'|]; destruct (clause_at (c :: suf)) as [n|];
      simpl in Hr; try discriminate.
    + injection Hr as Hr. simpl. rewrite Hr. reflexivity.
    + rewrite IH. reflexivity.
Qed.
End ClauseBoundaries.

Lemma alpha_not_space c : is_ascii_alpha c = true -> is_space c = false.
Proof.
  intros Ha. destruct (is_space c) eqn:E; [|reflexivity].
  rewrite (space_not_alpha _ E) in Ha. discriminate.
Qed.

(** The function [clause_at] decides [clause_boundary]. *)
Lemma clause_boundary_at s i :
  clause_boundary s i <-> exists n, clause_at (drop i s) = Some n.
Proof.
  split.
  - intros (c & w & l & Hc & Hne & Hw & Hl & Ht).
    assert (Hd : drop i s = c :: w ++ l :: drop (length w + 2) (drop i s)).
    { rewrite <- (take_drop (length w + 2) (drop i s)) at 1. rewrite Ht.
      simpl. rewrite <- app_assoc. reflexivity. }
    rewrite Hd. unfold clause_at. rewrite Hc.
    destruct (take_while_app is_space w l (drop (length w + 2) (drop i s)) Hw
                (alpha_not_space _ Hl)) as [-> ->].
    rewrite Hl. destruct w; [congruence | eexists; reflexivity].
  - intros (n & H). unfold clause_at in H.
    destruct (drop i s) as [|c rest] eqn:Ed; [discriminate|].
    destruct (is_clause_punct c) eqn:Hc; [|discriminate].
    pose proof (take_drop_while is_space rest) as Hr.
    pose proof (take_while_all is_space rest) as Hw.
    destruct (take_while is_space rest) as [|x w] eqn:Ew; [discriminate|].
    destruct (drop_while is_space rest) as [|l r]; [discriminate|].
    destruct (is_ascii_alpha l) eqn:Hl; [|discriminate].
    exists c, (x :: w), l. repeat split; try assumption; [discriminate|].
    rewrite Ed, <- Hr. replace (length (x :: w) + 2) with (S (length ((x :: w) ++ [l])))
      by (rewrite length_app; simpl; lia).
    cbn [take]. f_equal.
    change ((x :: w) ++ l :: r) with ((x :: w) ++ [l] ++ r).
    rewrite app_assoc. apply take_app_length.
Qed.

Lemma clause_at_length suf n : clause_at suf = Some n -> 2 <= n < length suf.
Proof.
  unfold clause_at. destruct suf as [|c rest]; [discriminate|].
  destruct (is_clause_punct c); [|discriminate].
  pose proof (take_drop_while is_space rest) as Hr.
  destruct (take_while is_space rest) as [|x w]; [discriminate|].
  destruct (drop_while is_space rest) as [|l r]; [discriminate|].
  destruct (is_ascii_alpha l); [|discriminate].
  intros H. injection H as <-. subst rest. simpl. rewrite length_app. simpl. lia.
Qed.

(** No clause boundary starts inside the white space of another one. *)
Lemma clause_at_gap suf n j :
  clause_at suf = Some n -> 0 < j < n -> clause_at (drop j suf) = None.
Proof.
  unfold clause_at at 1. destruct suf as [|c rest]; [discriminate|].
  destruct (is_clause_punct c); [|discriminate].
  pose proof (take_drop_while is_space rest) as Hr.
  pose proof (take_while_all is_space rest) as Hw.
  destruct (take_while is_space rest) as [|x w]; [discriminate|].
  destruct (drop_while is_space rest) as [|l r]; [discriminate|].
  destruct (is_ascii_alpha l); [|discriminate].
  intros H Hj. injection H as <-.
  destruct j as [|j]; [lia|]. cbn [drop]. rewrite <- Hr.
  assert (Hjw : j < length (x :: w)) by (simpl; lia).
  rewrite drop_app_le by lia.
  destruct (drop j (x :: w)) as [|y w'] eqn:Ed.
  { apply (f_equal length) in Ed. rewrite length_drop in Ed. simpl in Ed, Hjw. lia. }
  assert (Hy : is_space y = true).
  { assert (Hin : In y (x :: w)).
    { rewrite <- (take_drop j (x :: w)), Ed. apply in_or_app. right. left. reflexivity. }
    rewrite List.Forall_forall in Hw. apply Hw, Hin. }
  simpl. rewrite (space_not_punct _ Hy). reflexivity.
Qed.

Lemma first_clause_some suf : forall i a e,
  first_clause i suf = Some (a, e) ->
  exists j n, a = i + j /\ e = a + n /\ clause_at (drop j suf) = Some n /\
              forall j', j' < j -> clause_at (drop j' suf) = None.
Proof.
  induction suf as [|c suf IH]; intros i a e H; cbn [first_clause] in H.
  - destruct (clause_at []) as [n|] eqn:E; [|discriminate].
    injection H as <- <-. exists 0, n. repeat split; [lia | exact E | lia].
  - destruct (clause_at (c :: suf)) as [n|] eqn:E.
    + injection H as <- <-. exists 0, n. repeat split; [lia | exact E | lia].
    + apply IH in H as (j & n & -> & -> & Hn & Hmin).
      exists (S j), n. repeat split; [lia | exact Hn |].
      intros [|j'] Hj'; [exact E | apply Hmin; lia].
Qed.

Lemma first_clause_none suf : forall i,
  first_clause i suf = None -> forall j, clause_at (drop j suf) = None.
Proof.
  induction suf as [|c suf IH]; intros i H j; cbn [first_clause] in H.
  - rewrite drop_nil. reflexivity.
  - destruct (clause_at (c :: suf)) as [n|] eqn:E; [discriminate|].
    destruct j as [|j]; [exact E | exact (IH _ H j)].
Qed.

Section ClauseSearch.
Context `{U : Unicode}.

Lemma search_clause_first s start :
  start <= length s ->
  option_map (fun m => (m_start m, m_end m)) (search _CLAUSE_SPLIT_RE s start) =
    first_clause start (drop start s).
Proof.
  intros Hs. unfold search. rewrite scan_clause, length_rev, length_take.
  f_equal. lia.
Qed.

Lemma search_clause_some s start m :
  start <= length s ->
  search _CLAUSE_SPLIT_RE s start = Some m ->
  exists n, clause_at (drop (m_start m) s) = Some n /\
            m_end m = m_start m + n /\ start <= m_start m /\
            forall j, start <= j < m_start m -> clause_at (drop j s) = None.
Proof.
  intros Hs H. pose proof (search_clause_first s start Hs) as Hf.
  rewrite H in Hf. simpl in Hf. symmetry in Hf.
  apply first_clause_some in Hf as (j & n & Ha & He & Hn & Hmin).
  rewrite drop_drop in Hn. exists n. rewrite Ha. repeat split.
  - exact Hn.
  - lia.
  - lia.
  - intros j' Hj'. specialize (Hmin (j' - start)). rewrite drop_drop in Hmin.
    replace (start + (j' - start)) with j' in Hmin by lia. apply Hmin. lia.
Qed.

Lemma search_clause_none s start :
  start <= length s ->
  search _CLAUSE_SPLIT_RE s start = None ->
  forall j, start <= j -> clause_at (drop j s) = None.
Proof.
  intros Hs H j Hj. pose proof (search_clause_first s start Hs) as Hf.
  rewrite H in Hf. simpl in Hf. symmetry in Hf.
  pose proof (first_clause_none _ _ Hf (j - start)) as Hn.
  rewrite drop_drop in Hn. replace (start + (j - start)) with j in Hn by lia.
  exact Hn.
Qed.

(** The last match of [finditer] is the last clause boundary. *)
Lemma finditer_clause_last s : forall fuel start,
  start <= length s -> length s + 2 <= fuel + start ->
  match last (finditer_from fuel _CLAUSE_SPLIT_RE s start) with
  | Some m =>
      exists n, clause_at (drop (m_start m) s) = Some n /\
                m_end m = m_start m + n /\ start <= m_start m /\
                forall j n', clause_at (drop j s) = Some n' -> j <= m_start m
  | None => forall j, start <= j -> clause_at (drop j s) = None
  end.
Proof.
  induction fuel as [|fuel IH]; intros start Hs Hfuel; [lia|].
  cbn [finditer_from].
  replace (length s <? start) with false by (symmetry; apply Nat.ltb_ge; lia).
  destruct (search _CLAUSE_SPLIT_RE s start) as [m|] eqn:E.
  2: { simpl. apply search_clause_none; assumption. }
  destruct (search_clause_some s start m Hs E) as (n & Hn & He & Hst & Hmin).
  pose proof (clause_at_length _ _ Hn) as Hlen. rewrite length_drop in Hlen.
  replace (m_start m <? m_end m) with true by (symmetry; apply Nat.ltb_lt; lia).
  specialize (IH (m_end m)). rewrite last_cons.
  destruct (last (finditer_from fuel _CLAUSE_SPLIT_RE s (m_end m))) as [m'|].
  - destruct IH as (n' & Hn' & He' & Hst' & Hmax'); [lia | lia |].
    exists n'. repeat split; [exact Hn' | exact He' | lia | exact Hmax'].
  - exists n. repeat split; [exact Hn | exact He | exact Hst |].
    intros j n' Hj.
    destruct (le_lt_dec j (m_start m)) as [Hle|Hgt]; [exact Hle|].
    destruct (le_lt_dec (m_end m) j) as [Hle'|Hgt'].
    + rewrite IH in Hj by lia. discriminate.
    + pose proof (clause_at_gap _ n (j - m_start m) Hn) as Hg.
      rewrite drop_drop in Hg. replace (m_start m + (j - m_start m)) with j in Hg by lia.
      rewrite Hg in Hj by lia. discriminate.
Qed.
End ClauseSearch.

Lemma clause_at_inv suf n :
  clause_at suf = Some n ->
  exists c rest,
    suf = c :: rest /\ is_clause_punct c = true /\
    n = 1 + length (take_while is_space rest).
Proof.
  unfold clause_at. destruct suf as [|c rest]; [discriminate|].
  destruct (is_clause_punct c) eqn:Hc; [|discriminate].
  destruct (take_while is_space rest) as [|x w] eqn:Ew; [discriminate|].
  destruct (drop_while is_space rest) as [|l r]; [discriminate|].
  destruct (is_ascii_alpha l); [|discriminate].
  intros H. injection H as <-. exists c, rest. rewrite Ew. repeat split. exact Hc.
Qed.

Lemma drop_while_snoc p a c :
  p c = false -> exists a', drop_while p (a ++ [c]) = a' ++ [c].
Proof.
  intros Hc. induction a as [|x a (a' & IH)]; simpl.
  - rewrite Hc. exists []. reflexivity.
  - destruct (p x); [exists a'; exact IH | exists (x :: a); reflexivity].
Qed.

(** A text that ends in a character other than white space only loses
    leading white space to [strip]. *)
Lemma strip_snoc a c : is_space c = false -> strip (a ++ [c]) = lstrip (a ++ [c]).
Proof.
  intros Hc. unfold strip, rstrip, lstrip.
  destruct (drop_while_snoc is_space a c Hc) as (a' & ->).
  rewrite rev_app_distr. simpl. rewrite Hc. simpl. rewrite rev_involutive. reflexivity.
Qed.

Lemma punct_not_space c : is_clause_punct c = true -> is_space c = false.
Proof.
  intros Hc. destruct (is_space c) eqn:E; [|reflexivity].
  rewrite (space_not_punct _ E) in Hc. discriminate.
Qed.

Lemma drop_length_take_while p s : drop (length (take_while p s)) s = drop_while p s.
Proof.
  rewrite <- (take_drop_while p s) at 2. apply drop_app_length.
Qed.

Section ForcedSplit.
Context `{U : Unicode}.

(** What [force_split] does on a buffer over the limit that has a clause
    boundary. *)
Lemma force_split_last_boundary buffer sentences :
  MAX_BUFFER_LENGTH < length buffer ->
  (exists i, clause_boundary buffer i) ->
  exists p,
    clause_boundary buffer p /\
    (forall i, clause_boundary buffer i -> i <= p) /\
    force_split buffer sentences =
      (drop_while is_space (drop (p + 1) buffer),
       sentences ++ [lstrip (take (p + 1) buffer)]).
Proof.
  intros Hlen (i & Hi). unfold force_split.
  replace (MAX_BUFFER_LENGTH <? length buffer) with true
    by (symmetry; apply Nat.ltb_lt; exact Hlen).
  pose proof (finditer_clause_last buffer (S (S (length buffer))) 0) as Hlast.
  fold (finditer _CLAUSE_SPLIT_RE buffer) in Hlast.
  destruct (last (finditer _CLAUSE_SPLIT_RE buffer)) as [m|].
  2: { apply clause_boundary_at in Hi as (n & Hn).
       rewrite Hlast in Hn by lia. discriminate. }
  destruct Hlast as (n & Hn & He & _ & Hmax); [lia | lia |].
  exists (m_start m). split; [apply clause_boundary_at; exists n; exact Hn|].
  split.
  { intros j Hj. apply clause_boundary_at in Hj as (n' & Hn'). eapply Hmax, Hn'. }
  destruct (clause_at_inv _ _ Hn) as (c & rest & Hd & Hc & Hnw).
  assert (Htake : take (m_start m + 1) buffer = take (m_start m) buffer ++ [c]).
  { assert (Hlt : m_start m < length buffer).
    { apply (f_equal length) in Hd. rewrite length_drop in Hd. simpl in Hd. lia. }
    rewrite <- (take_drop (m_start m) buffer) at 1. rewrite Hd.
    rewrite (take_app_add' _ _ (m_start m) 1) by (rewrite length_take; lia).
    reflexivity. }
  assert (Hdrop : drop (m_end m) buffer = drop_while is_space (drop (m_start m + 1) buffer)).
  { rewrite He, Hnw, <- !drop_drop, Hd. cbn [drop Nat.add].
    rewrite drop_0. apply drop_length_take_while. }
  rewrite Hdrop, Htake, strip_snoc by (apply punct_not_space, Hc).
  f_equal. unfold append_if.
  destruct (drop_while_snoc is_space (take (m_start m) buffer) c (punct_not_space _ Hc))
    as (a' & Ha').
  unfold lstrip. rewrite Ha'. destruct a'; reflexivity.
Qed.

(** C7, as the code has it.  If after the paragraph and sentence passes the
    buffer is longer than [MAX_BUFFER_LENGTH] and has a clause boundary (one
    of [,;:] followed by white space and an ASCII letter), [add] emits, as
    its last sentence, the buffer up to and including the last such
    punctuation with its leading white space removed, and keeps the text
    after the white space that follows the punctuation. *)
Theorem add_force_split self token buffer sentences :
  add_passes self token = Some (buffer, sentences) ->
  MAX_BUFFER_LENGTH < length buffer ->
  (exists i, clause_boundary buffer i) ->
  exists p,
    clause_boundary buffer p /\
    (forall i, clause_boundary buffer i -> i <= p) /\
    add self token =
      Some ({| _buffer := drop_while is_space (drop (p + 1) buffer) |},
            sentences ++ [lstrip (take (p + 1) buffer)]).
Proof.
  intros Hp Hlen Hex.
  destruct (force_split_last_boundary buffer sentences Hlen Hex)
    as (p & Hb & Hmax & Hfs).
  exists p. split; [exact Hb | split; [exact Hmax|]].
  unfold add. rewrite Hp, Hfs. reflexivity.
Qed.
End ForcedSplit.

(** The forced split of the specification: 600 characters without sentence
    end and a comma at index 549 give a forced sentence that ends at the
    comma. *)
Lemma add_run_on `{U : Unicode} :
  length run_on = 600 /\
  add new_buffer run_on =
    Some ({| _buffer := repeat (chr "b") 49 |}, [repeat (chr "a") 549 ++ py ","]).
Proof. split; vm_compute; reflexivity. Qed.

Lemma add_run_on_padded `{U : Unicode} :
  add_passes new_buffer run_on_padded = Some (run_on_padded, []) /\
  add new_buffer run_on_padded =
    Some ({| _buffer := repeat (chr "b") 49 |}, [repeat (chr "a") 548 ++ py ","]).
Proof. split; vm_compute; reflexivity. Qed.

Lemma clause_boundary_run_on : clause_boundary run_on 549.
Proof.
  exists (chr ","), [chr " "], (chr "b").
  repeat split; [discriminate | repeat constructor].
Qed.

Lemma clause_boundary_run_on_padded : clause_boundary run_on_padded 549.
Proof.
  exists (chr ","), [chr " "], (chr "b").
  repeat split; [discriminate | repeat constructor].
Qed.

(** The forced split on the 600 characters of [run_on]. *)
Lemma add_force_split_witness :
  exists p,
    clause_boundary run_on p /\
    (forall i, clause_boundary run_on i -> i <= p) /\
    @add ascii_db new_buffer run_on =
      Some ({| _buffer := drop_while is_space (drop (p + 1) run_on) |},
            [] ++ [lstrip (take (p + 1) run_on)]).
Proof.
  apply (@add_force_split ascii_db new_buffer run_on run_on []).
  - vm_compute. reflexivity.
  - vm_compute. lia.
  - exists 549. exact clause_boundary_run_on.
Defined.

(** C7, as the specification has it, fails: the forced sentence is not
    always everything up to the punctuation.  On [run_on_padded], which
    starts with a space, the sentence starts at the first letter. *)
Lemma force_split_not_whole_prefix :
  ~ (forall (U : Unicode) self token buffer sentences,
       add_passes self token = Some (buffer, sentences) ->
       MAX_BUFFER_LENGTH < length buffer ->
       (exists i, clause_boundary buffer i) ->
       exists p self',
         clause_boundary buffer p /\
         (forall i, clause_boundary buffer i -> i <= p) /\
         add self token = Some (self', sentences ++ [take (p + 1) buffer])).
Proof.
  intros H.
  destruct (H ascii_db new_buffer run_on_padded run_on_padded [])
    as (p & self' & _ & _ & Hadd).
  - exact (proj1 add_run_on_padded).
  - vm_compute. lia.
  - exists 549. exact clause_boundary_run_on_padded.
  - rewrite (proj2 add_run_on_padded) in Hadd.
    injection Hadd as _ Hs. rewrite Nat.add_1_r in Hs. discriminate Hs.
Qed.

(** ** Claims about the session records *)

Lemma get_persist_store sid s mgr :
  get sid (_persist sid (store sid s mgr)) = Some s.
Proof.
  unfold _persist, store, get. cbn [_sessions].
  rewrite lookup_insert_eq. cbn [_sessions]. apply lookup_insert_eq.
Qed.

(** [update_title] stamps the record with the clock reading of the call. *)
Lemma update_title_updated_at now sid t mgr s :
  get sid mgr = Some s ->
  exists s', get sid (fst (update_title now sid t mgr)) = Some s' /\
             title s' = t /\ updated_at s' = now.
Proof.
  unfold get, update_title. intros ->. cbn [fst].
  eexists. split; [apply get_persist_store | split; reflexivity].
Qed.

(** [append_history] stamps the record with the clock reading of the call. *)
Lemma append_history_updated_at now sid r c mgr s :
  get sid mgr = Some s ->
  exists s', get sid (append_history now sid r c mgr) = Some s' /\
             conversation_history s' = conversation_history s ++ [Message r c] /\
             updated_at s' = now.
Proof.
  unfold get, append_history. intros ->.
  eexists. split; [apply get_persist_store|].
  destruct (str_eqb r (py "user") && str_eqb _ New_chat); split; reflexivity.
Qed.

(** C4, where the code departs from it.  Toggling the retrieval-enabled
    flag changes the record and leaves [updated_at] as it was, whatever the
    time of the call. *)
Theorem set_rag_enabled_keeps_updated_at sid enabled mgr s :
  get sid mgr = Some s ->
  exists s', get sid (set_rag_enabled sid enabled mgr) = Some s' /\
             rag_enabled s' = enabled /\ updated_at s' = updated_at s.
Proof.
  unfold get, set_rag_enabled. intros ->.
  eexists. split; [apply get_persist_store | split; reflexivity].
Qed.

(** The session of [one_session_manager], updated at time 100 with
    retrieval enabled, has retrieval disabled and is still updated at time
    100 after the toggle. *)
Lemma set_rag_enabled_keeps_updated_at_witness :
  exists s', get (py "s1") (set_rag_enabled (py "s1") false one_session_manager) = Some s' /\
             rag_enabled s' = false /\ updated_at s' = updated_at one_session.
Proof.
  apply (set_rag_enabled_keeps_updated_at (py "s1") false one_session_manager one_session).
  unfold get, one_session_manager. cbn [_sessions]. apply lookup_singleton_eq.
Defined.

(** ** Claims about [generate_stream] *)

Lemma yielded_app a b : yielded (a ++ b) = yielded a ++ yielded b.
Proof. apply flat_map_app. Qed.

Lemma yielded_map_Yield l : yielded (List.map Yield l) = l.
Proof. induction l as [|x l IH]; simpl; [reflexivity | rewrite IH; reflexivity]. Qed.

Lemma caught_retryable attempt r e :
  snd (run_attempt r) = Raises e ->
  caught attempt e = retryable r && negb (attempt =? MAX_RETRIES).
Proof.
  unfold retryable. intros ->. destruct e; reflexivity.
Qed.

Lemma returns_not_retryable r : snd (run_attempt r) = Returns -> retryable r = false.
Proof. unfold retryable. intros ->. reflexivity. Qed.

(** The attempts made from number [attempt] on: they go on to some number
    [n], all those before it failed in a retryable way, and what they
    yielded stays yielded. *)
Lemma attempts_spec server : forall todo attempt last_error,
  0 < todo -> attempt + todo = MAX_RETRIES + 1 ->
  exists n,
    attempt <= n <= MAX_RETRIES /\
    (forall i, attempt <= i < n -> retryable (server i) = true) /\
    (n < MAX_RETRIES -> retryable (server n) = false) /\
    yielded (fst (attempts server attempt todo last_error)) =
      flat_map (fun i => fst (run_attempt (server i))) (seq attempt (S n - attempt)) /\
    snd (attempts server attempt todo last_error) = snd (run_attempt (server n)).
Proof.
  induction todo as [|todo IH]; intros attempt last_error Htodo Hsum; [lia|].
  cbn [attempts].
  pose proof (caught_retryable attempt (server attempt)) as Hc.
  pose proof (returns_not_retryable (server attempt)) as Hr.
  destruct (run_attempt (server attempt)) as [fragments fin] eqn:Erun.
  cbn [snd] in Hc, Hr.
  assert (Hone : flat_map (fun i => fst (run_attempt (server i)))
                   (seq attempt (S attempt - attempt)) = fragments).
  { replace (S attempt - attempt) with 1 by lia. simpl.
    rewrite Erun, app_nil_r. reflexivity. }
  destruct fin as [|e].
  - exists attempt. cbn [fst snd]. rewrite yielded_map_Yield, Erun.
    repeat split; [lia | lia | intros; lia | intros _; apply Hr; reflexivity
                  | symmetry; exact Hone].
  - specialize (Hc e eq_refl). destruct (caught attempt e) eqn:Ecaught.
    + symmetry in Hc. apply andb_prop in Hc as [Hret Hatt].
      apply negb_true_iff, Nat.eqb_neq in Hatt.
      destruct (IH (S attempt) e) as (n & Hn & Hbefore & Hstop & Hy & Hfin);
        [unfold MAX_RETRIES in *; lia | lia |].
      destruct (attempts server (S attempt) todo e) as [events fin'].
      cbn [fst snd] in *. exists n. repeat split; [lia | lia | | exact Hstop | | exact Hfin].
      * intros i Hi. destruct (Nat.eq_dec i attempt) as [->|Hne];
          [exact Hret | apply Hbefore; lia].
      * rewrite yielded_app, yielded_map_Yield. cbn [yielded flat_map app].
        fold (yielded events). rewrite Hy.
        replace (S n - attempt) with (S (S n - S attempt)) by lia.
        cbn [seq flat_map]. rewrite Erun. reflexivity.
    + exists attempt. cbn [fst snd]. rewrite yielded_map_Yield, Erun.
      repeat split; [lia | unfold MAX_RETRIES in *; lia | intros; lia | | symmetry; exact Hone].
      intros Hlt. symmetry in Hc. apply andb_false_iff in Hc as [Hc|Hc]; [exact Hc|].
      apply negb_false_iff, Nat.eqb_eq in Hc. lia.
Qed.

(** C5, as the code has it.  [generate_stream] makes the attempts
    [0 .. n] for some [n <= MAX_RETRIES]: every attempt before [n] failed in
    a retryable way (a connection or read error at any point of the attempt,
    before or after fragments were yielded, or a status 500, 502 or 503),
    attempt [n] is the last one allowed or did not fail in a retryable way,
    the stream yields the fragments of all the attempts made, in order, and
    it ends as attempt [n] ends. *)
Theorem generate_stream_attempts (server : nat -> response) :
  exists n,
    n <= MAX_RETRIES /\
    (forall i, i < n -> retryable (server i) = true) /\
    (n < MAX_RETRIES -> retryable (server n) = false) /\
    yielded (fst (generate_stream server)) =
      flat_map (fun i => fst (run_attempt (server i))) (seq 0 (S n)) /\
    snd (generate_stream server) = snd (run_attempt (server n)).
Proof.
  destruct (attempts_spec server (MAX_RETRIES + 1) 0 OtherError) as
    (n & Hn & Hbefore & Hstop & Hy & Hfin); [unfold MAX_RETRIES; lia | lia |].
  exists n. rewrite Nat.sub_0_r in Hy.
  repeat split; [lia | intros i Hi; apply Hbefore; lia | exact Hstop | exact Hy | exact Hfin].
Qed.


(** C5, as the specification has it, fails.  The first response of
    [flaky_server] breaks with a read error after the fragment "Hel"; the
    failure is retried after one second, the stream ends without error, and
    "Hel" is yielded twice. *)
Lemma generate_stream_retries_mid_stream :
  run_attempt (flaky_server 0) = ([py "Hel"], Raises ReadError) /\
  generate_stream flaky_server =
    ([Yield (py "Hel"); Sleep 1; Yield (py "Hel"); Yield (py "lo")], Returns).
Proof. split; reflexivity. Qed.

(** ** Claims about the context builder *)


Section ContextClaims.
Context `{S : Services}.


End ContextClaims.

(** Two passages of page 3 of document "d1" give one citation; a passage
    without page number gives a citation without page number. *)
Example source_loop_same_page :
  let p text := {| chunk_text := py text; chunk_doc_id := Some (py "d1");
                   chunk_filename := Some (py "a.pdf"); chunk_page_number := Some 3%Z |} in
  snd (fst (source_loop [p "one"; p "two"]%string [] [] ∅)) =
    [ {| filename := py "a.pdf"; page_number := Some 3%Z; doc_id := py "d1" |} ].
Proof. vm_compute. reflexivity. Qed.

Example source_loop_no_page :
  snd (fst (source_loop
              [ {| chunk_text := py "one"; chunk_doc_id := Some (py "d1");
                   chunk_filename := Some (py "a.txt");
                   chunk_page_number := Some (-1)%Z |} ] [] [] ∅)) =
    [ {| filename := py "a.txt"; page_number := None; doc_id := py "d1" |} ].
Proof. vm_compute. reflexivity. Qed.

(** ** Claims about the pipelines *)

Section PipelineClaims.
Context `{U : Unicode} `{S : Services}.

(** C10. If the transcription is empty or white space only, [process_voice]
    and [process_voice_stream] return at once an empty transcript, an empty
    response, no sources and the transcription timing alone; all they have
    done is the status notice, when there is a status callback, and the
    transcription: no retrieval, generation or synthesis, and the sessions,
    with their histories, are as before. *)
Theorem empty_transcript_returns_early (self : PipelineOrchestrator) (audio : bytes)
    (status_callback : bool) (w : world) :
  strip (fst (transcribe_bytes audio)) = [] ->
  let stt_ms : gmap string Z :=
    {[ "stt_ms"%string := (time (Datatypes.S (clock w)) - time (clock w))%Z ]} in
  let heard :=
    (if status_callback then [EStatus (py "transcribing")] else []) ++ [ETranscribe audio] in
  (exists w',
     process_voice self audio status_callback w =
       (Return {| transcript := []; response_text := []; audio_url := None;
                  audio_bytes := None; timings := stt_ms; sources := [] |}, w') /\
     sessions w' = sessions w /\ trace w' = trace w ++ heard) /\
  (forall audio_chunk_callback transcript_callback cancel_event,
   exists w',
     process_voice_stream self audio status_callback audio_chunk_callback
         transcript_callback cancel_event w =
       (Return {| stream_transcript := []; stream_response_text := [];
                  stream_timings := stt_ms; stream_sources := [] |}, w') /\
     sessions w' = sessions w /\ trace w' = trace w ++ heard).
Proof.
  intros Hempty. split; [|intros audio_chunk_callback transcript_callback cancel_event];
    unfold process_voice, process_voice_stream, bind, when, tell, now, ret;
    destruct (transcribe_bytes audio) as [transcript duration];
    cbn [fst] in Hempty; rewrite Hempty;
    destruct status_callback; cbn;
    eexists; (split; [reflexivity | split; [reflexivity|]]);
    cbn; rewrite <- ?app_assoc; reflexivity.
Qed.
End PipelineClaims.

(** The microphone of [silent_services] gives white space only. *)
Lemma empty_transcript_returns_early_witness :
  let self := new_orchestrator (py "s1") in
  let w := start_world true in
  let stt_ms : gmap string Z := {[ "stt_ms"%string := 1%Z ]} in
  let heard := [EStatus (py "transcribing"); ETranscribe []] in
  (exists w',
     @process_voice ascii_db silent_services self [] true w =
       (Return {| transcript := []; response_text := []; audio_url := None;
                  audio_bytes := None; timings := stt_ms; sources := [] |}, w') /\
     sessions w' = sessions w /\ trace w' = trace w ++ heard) /\
  (forall audio_chunk_callback transcript_callback cancel_event,
   exists w',
     @process_voice_stream ascii_db silent_services self [] true audio_chunk_callback
         transcript_callback cancel_event w =
       (Return {| stream_transcript := []; stream_response_text := [];
                  stream_timings := stt_ms; stream_sources := [] |}, w') /\
     sessions w' = sessions w /\ trace w' = trace w ++ heard).
Proof.
  apply (@empty_transcript_returns_early ascii_db silent_services
           (new_orchestrator (py "s1")) [] true (start_world true)).
  reflexivity.
Defined.

Section PipelineExamples.
Context `{U : Unicode}.

(** C9, where the code departs from it.  With retrieval disabled, the
    request "read page 1" on a document whose file name has a line break,
    [two_line_name], and whose page 1 is "Hello world": the four pipelines
    skip generation, and answer with the end of the label and the page
    text instead of the page text. *)
Theorem page_read_keeps_label_after_line_break :
  let S := one_page_services two_line_name in
  let self := new_orchestrator (py "s1") in
  let w := start_world false in
  let answer := py "b.pdf]" ++ [10%N] ++ py "Hello world" in
  page_text <$> get_page (py "d1") 1%N = Some (py "Hello world") /\
  text_response (fst (process_text self (py "read page 1") w)) = answer /\
  fst (process_text_stream self (py "read page 1") w) = [answer] /\
  (exists r, fst (process_voice self [] true w) = Return r /\ response_text r = answer) /\
  (exists r, fst (process_voice_stream self [] true true true None w) = Return r /\
             stream_response_text r = answer).
Proof.
  cbv zeta. split; [reflexivity|]. split; [vm_compute; reflexivity|].
  split; [vm_compute; reflexivity|]. split.
  - eexists. split; [vm_compute; reflexivity | reflexivity].
  - eexists. split; [vm_compute; reflexivity | reflexivity].
Qed.

End PipelineExamples.

(** ** The direct page read, whatever the retrieval flag *)

Lemma char_in_forallb (f : char -> bool) x l :
  char_in x l = true -> forallb f l = true -> f x = true.
Proof.
  unfold char_in. induction l as [|y l IH]; simpl; [discriminate|].
  intros Hin Hall. apply andb_prop in Hall as [Hy Hall].
  apply orb_prop in Hin as [Hxy|Hin]; [|apply IH; assumption].
  apply N.eqb_eq in Hxy. subst y. exact Hy.
Qed.

Lemma strip_nil_all_space s : strip s = [] -> all_space s.
Proof.
  intros H. destruct (strip_split s) as (l & t & Hs & Hl & Ht).
  rewrite H in Hs. simpl in Hs. rewrite Hs. apply all_space_app; assumption.
Qed.

Section SolidPatterns.
Context `{U : Unicode}.

Lemma cls_solid_sound c x :
  cls_solid c = true -> cls_match c x = true -> is_space x = false.
Proof.
  destruct c; simpl; try discriminate; intros Hs Hm.
  - apply N.eqb_eq in Hm. subst x. apply negb_true_iff, Hs.
  - apply negb_true_iff. exact (char_in_forallb _ _ _ Hm Hs).
  - apply negb_true_iff. exact (char_in_forallb _ _ _ Hm Hs).
Qed.

(** A match of a solid pattern consumes a character that is not white
    space. *)
Lemma solid_consumes r st st' :
  Matches r st st' -> solid r = true ->
  exists w c, before st' = rev w ++ before st /\ In c w /\ is_space c = false.
Proof.
  induction 1 as [st|c x pre suf cs Hc|r1 r2 st1 st2 st3 H1 IH1 H2 IH2
                 |r1 r2 st st' _ IH|r1 r2 st st' _ IH|g r st
                 |g r st1 st2 st3 _ IH1 _ IH2|n r st st' _ IH|r st st' _ IH
                 |c x pre suf cs Hc|st He|st Hb]; simpl; try discriminate; intros Hs.
  - exists [x], x. repeat split; [left; reflexivity | eapply cls_solid_sound; eassumption].
  - destruct (Matches_consumed _ _ _ H1) as (w1 & Hb1 & _).
    destruct (Matches_consumed _ _ _ H2) as (w2 & Hb2 & _).
    apply orb_prop in Hs as [Hs|Hs].
    + destruct (IH1 Hs) as (w & c & Hw & Hin & Hc).
      rewrite Hw in Hb1. apply rev_app_inj in Hb1. subst w1.
      exists (w ++ w2), c. rewrite Hb2, Hw, rev_app_distr, <- app_assoc.
      repeat split; [apply in_or_app; left; exact Hin | exact Hc].
    + destruct (IH2 Hs) as (w & c & Hw & Hin & Hc).
      exists (w1 ++ w), c. rewrite Hw, Hb1, rev_app_distr, <- app_assoc.
      repeat split; [apply in_or_app; right; exact Hin | exact Hc].
  - apply andb_prop in Hs as [Hs _]. exact (IH Hs).
  - apply andb_prop in Hs as [_ Hs]. exact (IH Hs).
  - exact (IH Hs).
Qed.

(** A text in which a solid pattern is found is not blank. *)
Lemma search_solid_not_blank r s start m :
  solid r = true -> search r s start = Some m -> nonempty (strip s) = true.
Proof.
  intros Hs H. apply search_sound in H
    as (a & w & b & st' & Heq & Hm & Hb & _).
  destruct (solid_consumes _ _ _ Hm Hs) as (w' & c & Hw' & Hin & Hc).
  simpl in Hw'. rewrite Hb in Hw'. apply rev_app_inj in Hw'. subst w'.
  destruct (strip s) eqn:E; [|reflexivity].
  apply strip_nil_all_space in E. unfold all_space in E.
  rewrite List.Forall_forall in E. rewrite (E c) in Hc; [discriminate|].
  rewrite Heq. apply in_or_app. right. apply in_or_app. left. exact Hin.
Qed.

Lemma page_request_solid : solid _PAGE_REQUEST_RE = true.
Proof. reflexivity. Qed.

(** A query in which a page request is detected is not blank. *)
Lemma detect_page_request_not_blank query r :
  _detect_page_request query = Some r -> nonempty (strip query) = true.
Proof.
  unfold _detect_page_request.
  destruct (search _PAGE_REQUEST_RE query 0) as [m|] eqn:E; [|discriminate].
  intros _. exact (search_solid_not_blank _ _ _ _ page_request_solid E).
Qed.
End SolidPatterns.

(** *** Computations that do not call the language model *)

Lemma bind_unfold {A B} (m : M A) (k : A -> M B) w :
  bind m k w = k (fst (m w)) (snd (m w)).
Proof. unfold bind. destruct (m w). reflexivity. Qed.

Lemma gf_ret {A} (a : A) : generation_free (ret a).
Proof. intros w. reflexivity. Qed.

Lemma gf_bind {A B} (m : M A) (k : A -> M B) :
  generation_free m -> (forall a, generation_free (k a)) -> generation_free (bind m k).
Proof. intros Hm Hk w. rewrite bind_unfold, Hk, Hm. reflexivity. Qed.

(** The same when the value of [m] is known. *)
Lemma gf_bind_value {A B} (m : M A) (k : A -> M B) (a : A) :
  generation_free m -> (forall w, fst (m w) = a) -> generation_free (k a) ->
  generation_free (bind m k).
Proof. intros Hm Ha Hk w. rewrite bind_unfold, Ha, Hk, Hm. reflexivity. Qed.

Lemma gf_tell e : is_generation e = false -> generation_free (tell e).
Proof.
  intros He w. unfold tell. cbn [snd trace].
  rewrite List.filter_app. simpl. rewrite He. apply app_nil_r.
Qed.

Lemma gf_when b (m : M unit) : generation_free m -> generation_free (when b m).
Proof. intros Hm. destruct b; [exact Hm | apply gf_ret]. Qed.

Lemma gf_with_sessions f : generation_free (with_sessions f).
Proof. intros w. reflexivity. Qed.

Lemma gf_read_sessions : generation_free read_sessions.
Proof. intros w. reflexivity. Qed.

Lemma gf_for_each {A} (l : list A) (body : A -> M unit) :
  (forall x, generation_free (body x)) -> generation_free (for_each l body).
Proof.
  intros Hb. induction l as [|x l IH]; simpl; [apply gf_ret|].
  apply gf_bind; [apply Hb | intros _; exact IH].
Qed.

Lemma gf_cancelled cancel_event t n : generation_free (cancelled cancel_event t n).
Proof.
  unfold cancelled. destruct cancel_event as [is_set|]; [|apply gf_ret].
  apply gf_bind; [apply gf_tell; reflexivity | intros _; apply gf_ret].
Qed.

(** Steps through a computation made of the operations above. *)
Ltac gf_step :=
  first
    [ apply gf_ret
    | apply gf_with_sessions
    | apply gf_read_sessions
    | apply gf_cancelled
    | apply gf_tell; reflexivity
    | apply gf_when
    | apply gf_for_each; intros
    | apply gf_bind; [|intros]
    | match goal with
      | |- generation_free (match ?x with _ => _ end) => destruct x
      | |- generation_free (let '(_, _) := ?x in _) => destruct x
      end ].

Section DirectRead.
Context `{U : Unicode} `{S : Services}.

Lemma gf_now : generation_free now.
Proof. intros w. reflexivity. Qed.

Lemma gf_new_uuid : generation_free new_uuid.
Proof. intros w. reflexivity. Qed.

Lemma gf_append_history self r c : generation_free (_append_history self r c).
Proof.
  unfold _append_history. repeat first [apply gf_now | gf_step].
Qed.

Lemma gf_commit self user_text assistant_text :
  generation_free (commit self user_text assistant_text).
Proof.
  unfold commit. repeat first [apply gf_append_history | gf_step].
Qed.

Lemma gf_speak audio_chunk_callback sentence chunk_index :
  generation_free (speak audio_chunk_callback sentence chunk_index).
Proof. unfold speak. repeat gf_step. Qed.

Lemma gf_speak_all audio_chunk_callback sentences : forall chunk_index,
  generation_free (speak_all audio_chunk_callback sentences chunk_index).
Proof.
  induction sentences as [|s l IH]; intros chunk_index; simpl; [apply gf_ret|].
  apply gf_bind; [apply gf_speak | intros n; apply IH].
Qed.

Lemma gf_speak_words cancel_event audio_chunk_callback words : forall n buf chunk_index,
  generation_free (speak_words cancel_event audio_chunk_callback words n buf chunk_index).
Proof.
  induction words as [|word rest IH]; intros n buf chunk_index; simpl; [apply gf_ret|].
  apply gf_bind; [apply gf_cancelled | intros stop].
  destruct stop; [apply gf_ret|]. destruct (buf_add buf (word ++ py " ")) as [buf1 sentences].
  apply gf_bind; [apply gf_speak_all | intros k; apply IH].
Qed.

Lemma gf_speak_page cancel_event audio_chunk_callback full_response :
  generation_free (speak_page cancel_event audio_chunk_callback full_response).
Proof.
  unfold speak_page. apply gf_bind; [apply gf_speak_words | intros [buf chunk_index]].
  repeat gf_step.
Qed.

Lemma gf_fetch_page self page_num doc_hint :
  generation_free (_fetch_page self page_num doc_hint).
Proof. unfold _fetch_page. repeat gf_step. Qed.

Lemma gf_try_direct_page_read self query :
  generation_free (_try_direct_page_read self query).
Proof.
  unfold _try_direct_page_read. repeat first [apply gf_fetch_page | gf_step].
Qed.

Lemma wb_ret {A} (a : A) : world_blind (ret a).
Proof. intros w w'. reflexivity. Qed.

Lemma wb_tell e : world_blind (tell e).
Proof. intros w w'. reflexivity. Qed.

Lemma wb_bind {A B} (m : M A) (k : A -> M B) :
  world_blind m -> (forall a, world_blind (k a)) -> world_blind (bind m k).
Proof.
  intros Hm Hk w w'. rewrite !bind_unfold, (Hm w w'). apply Hk.
Qed.

Ltac wb_step :=
  first
    [ apply wb_ret
    | apply wb_tell
    | apply wb_bind; [|intros]
    | match goal with
      | |- world_blind (match ?x with _ => _ end) => destruct x
      end ].

Lemma wb_try_direct_page_read self query :
  world_blind (_try_direct_page_read self query).
Proof.
  unfold _try_direct_page_read, _fetch_page. repeat wb_step.
Qed.

(** The answer of the direct page read is the same in every world. *)
Lemma try_direct_page_read_answer self query w :
  fst (_try_direct_page_read self query w) = direct_answer self query.
Proof. apply wb_try_direct_page_read. Qed.

Lemma direct_answer_detect self query answer :
  direct_answer self query = Some answer ->
  exists r, _detect_page_request query = Some r.
Proof.
  unfold direct_answer, _try_direct_page_read.
  destruct (_detect_page_request query) as [r|]; [eauto | discriminate].
Qed.
End DirectRead.

Section Bypass.
Context `{U : Unicode} `{S : Services}.
Variable self : PipelineOrchestrator.
Variables (query text : str) (cited : list citation).
Hypothesis Hdirect : direct_answer self query = Some (text, cited).

Ltac run :=
  repeat first
    [ rewrite bind_unfold
    | rewrite try_direct_page_read_answer, Hdirect
    | progress cbn [ret fst snd] ].

Ltac gf_run :=
  repeat first
    [ apply gf_now | apply gf_new_uuid | apply gf_commit | apply gf_speak_page
    | apply gf_try_direct_page_read | gf_step ].

Lemma direct_value w : fst (_try_direct_page_read self query w) = Some (text, cited).
Proof. rewrite try_direct_page_read_answer. exact Hdirect. Qed.

Lemma query_not_blank : nonempty (strip query) = true.
Proof.
  destruct (direct_answer_detect _ _ _ Hdirect) as (r & Hr).
  exact (detect_page_request_not_blank _ _ Hr).
Qed.

(** [process_text] on a page request that resolves: the answer is the text
    of the direct read, with its citation and no generation time, and the
    language model is not called; the world, and so the retrieval flag of
    the session, is any. *)
Lemma process_text_bypass w :
  text_response (fst (process_text self query w)) = text /\
  text_sources (fst (process_text self query w)) = cited /\
  text_timings (fst (process_text self query w)) !! "llm_ms"%string = Some 0%Z /\
  List.filter is_generation (trace (snd (process_text self query w))) =
    List.filter is_generation (trace w).
Proof.
  split; [|split; [|split]].
  - unfold process_text. run. reflexivity.
  - unfold process_text. run. reflexivity.
  - unfold process_text. run. apply lookup_insert_eq.
  - revert w. change (generation_free (process_text self query)).
    unfold process_text. apply gf_bind; [apply gf_now | intros t0].
    apply (gf_bind_value _ _ (Some (text, cited)));
      [apply gf_try_direct_page_read | apply direct_value |].
    gf_run.
Qed.

Lemma process_text_stream_bypass w :
  fst (process_text_stream self query w) = [text] /\
  List.filter is_generation (trace (snd (process_text_stream self query w))) =
    List.filter is_generation (trace w).
Proof.
  split.
  - unfold process_text_stream. run. reflexivity.
  - revert w. change (generation_free (process_text_stream self query)).
    unfold process_text_stream.
    apply (gf_bind_value _ _ (Some (text, cited)));
      [apply gf_try_direct_page_read | apply direct_value |].
    gf_run.
Qed.

Lemma process_voice_bypass audio status_callback w :
  fst (transcribe_bytes audio) = query ->
  match fst (process_voice self audio status_callback w) with
  | Return r => transcript r = query /\ response_text r = text /\ sources r = cited /\
                timings r !! "llm_ms"%string = Some 0%Z
  | Raise => synthesize text = None
  | Block => False
  end /\
  List.filter is_generation (trace (snd (process_voice self audio status_callback w))) =
    List.filter is_generation (trace w).
Proof.
  intros Haudio. split.
  - unfold process_voice. run.
    destruct (transcribe_bytes audio) as [transcript duration]. cbn [fst] in Haudio.
    subst transcript. rewrite query_not_blank. cbn [negb]. run.
    destruct (synthesize text) as [audio_wav|]; run; [|reflexivity].
    repeat split.
  - revert w. change (generation_free (process_voice self audio status_callback)).
    unfold process_voice.
    destruct (transcribe_bytes audio) as [transcript duration]. cbn [fst] in Haudio.
    subst transcript. rewrite query_not_blank. cbn [negb].
    do 4 (apply gf_bind; [gf_run | intros]).
    do 2 (apply gf_bind; [gf_run | intros]).
    apply (gf_bind_value _ _ (Some (text, cited)));
      [apply gf_try_direct_page_read | apply direct_value |].
    gf_run.
Qed.

Lemma process_voice_stream_bypass audio status_callback audio_chunk_callback
    transcript_callback cancel_event w :
  fst (transcribe_bytes audio) = query ->
  (exists r,
     fst (process_voice_stream self audio status_callback audio_chunk_callback
            transcript_callback cancel_event w) = Return r /\
     stream_transcript r = query /\ stream_response_text r = text /\
     stream_sources r = cited /\
     stream_timings r !! "llm_ms"%string = Some 0%Z) /\
  List.filter is_generation
    (trace (snd (process_voice_stream self audio status_callback audio_chunk_callback
                   transcript_callback cancel_event w))) =
    List.filter is_generation (trace w).
Proof.
  intros Haudio. split.
  - unfold process_voice_stream. run.
    destruct (transcribe_bytes audio) as [transcript duration]. cbn [fst] in Haudio.
    subst transcript. rewrite query_not_blank. cbn [negb]. run.
    eexists. split; [reflexivity|]. cbn [stream_transcript stream_response_text
      stream_sources stream_timings]. repeat split.
  - revert w.
    change (generation_free (process_voice_stream self audio status_callback
              audio_chunk_callback transcript_callback cancel_event)).
    unfold process_voice_stream.
    destruct (transcribe_bytes audio) as [transcript duration]. cbn [fst] in Haudio.
    subst transcript. rewrite query_not_blank. cbn [negb].
    do 4 (apply gf_bind; [gf_run | intros]).
    do 3 (apply gf_bind; [gf_run | intros]).
    apply (gf_bind_value _ _ (Some (text, cited)));
      [apply gf_try_direct_page_read | apply direct_value |].
    gf_run.
Qed.
End Bypass.

(** *** The label of a page and the line break that ends it *)

Lemma find_char_none c s : find [c] s = None -> ~ In c s.
Proof.
  induction s as [|x s IH]; simpl; [tauto|].
  destruct (x =? c)%N eqn:E.
  - replace (c =? x)%N with true by (symmetry; rewrite N.eqb_sym; exact E).
    discriminate.
  - replace (c =? x)%N with false by (symmetry; rewrite N.eqb_sym; exact E).
    simpl. destruct (find [c] s); [discriminate|].
    intros _ [Hx|Hin]; [apply N.eqb_neq in E; congruence | exact (IH eq_refl Hin)].
Qed.

Lemma split_once_first c a b :
  ~ In c a -> split_once [c] (a ++ c :: b) = Some (a, b).
Proof.
  intros Hnot. unfold split_once.
  assert (Hfind : find [c] (a ++ c :: b) = Some (length a)).
  { induction a as [|x a IH]; simpl.
    - rewrite N.eqb_refl. reflexivity.
    - destruct (c =? x)%N eqn:E.
      + apply N.eqb_eq in E. subst x. exfalso. apply Hnot. left. reflexivity.
      + simpl. rewrite IH; [reflexivity|]. intros Hin. apply Hnot. right. exact Hin. }
  rewrite Hfind. simpl. rewrite take_app_length.
  replace (length a + 1) with (length (a ++ [c])) by (rewrite length_app; reflexivity).
  change (a ++ c :: b) with (a ++ [c] ++ b). rewrite app_assoc, drop_app_length.
  reflexivity.
Qed.

Lemma uint_no_line_break d : ~ In 10%N (py (NilEmpty.string_of_uint d)).
Proof.
  induction d as [|d IH|d IH|d IH|d IH|d IH|d IH|d IH|d IH|d IH|d IH]; simpl;
    try tauto; intros [H|H]; try discriminate; exact (IH H).
Qed.

Lemma str_of_Z_no_line_break n : ~ In 10%N (str_of_Z n).
Proof.
  unfold str_of_Z, NilZero.string_of_int, NilZero.string_of_uint.
  destruct (Z.to_int n) as [d|d].
  - destruct d; try apply uint_no_line_break. simpl. intros [H|[]]. discriminate.
  - change (py (String "-" ?s)) with (chr "-" :: py s). intros [H|H]; [discriminate|].
    revert H. destruct d; try apply uint_no_line_break. simpl. intros [H|[]]. discriminate.
Qed.

Section PageText.
Context `{U : Unicode} `{S : Services}.

(** What the direct page read answers: a page request is detected in the
    query, a page is found for it, the citation is that of the page, and
    the text is the text of the page when the file name of the page has no
    line break. *)
Lemma direct_answer_page_text self query text cited :
  direct_answer self query = Some (text, cited) ->
  exists page_num doc_hint doc pg,
    _detect_page_request query = Some (page_num, doc_hint) /\
    In doc (list_documents (orch_session_id self)) /\
    get_page (document_doc_id doc) page_num = Some pg /\
    cited = [ {| filename := page_filename pg;
                 page_number := Some (Z.of_N page_num);
                 doc_id := page_doc_id pg |} ] /\
    (contains [10%N] (page_filename pg) = false -> text = page_text pg).
Proof.
  unfold direct_answer, _try_direct_page_read, _fetch_page.
  destruct (_detect_page_request query) as [[page_num doc_hint]|]; [|discriminate].
  rewrite !bind_unfold. cbn [tell fst snd]. unfold sid.
  destruct (list_documents (orch_session_id self)) as [|first_doc more_docs] eqn:Edocs;
    [discriminate|].
  destruct (target_doc (first_doc :: more_docs) doc_hint) as [doc|] eqn:Etarget;
    [|discriminate].
  assert (Hin : In doc (first_doc :: more_docs)).
  { unfold target_doc in Etarget. destruct doc_hint as [[|h hint]|].
    - destruct more_docs; [injection Etarget as <-; left; reflexivity|].
      apply List.find_some in Etarget. tauto.
    - destruct (List.find _ (first_doc :: more_docs)) as [d|] eqn:Ef.
      + injection Etarget as <-. apply List.find_some in Ef. tauto.
      + apply List.find_some in Etarget. tauto.
    - destruct more_docs; [injection Etarget as <-; left; reflexivity|].
      apply List.find_some in Etarget. tauto. }
  rewrite !bind_unfold. cbn [tell fst snd].
  destruct (get_page (document_doc_id doc) page_num) as [pg|] eqn:Epage; [|discriminate].
  cbn [ret fst]. intros H.
  exists page_num, doc_hint, doc, pg.
  split; [reflexivity|]. split; [exact Hin|]. split; [exact Epage|].
  revert H. rewrite !app_assoc.
  match goal with
  | |- context [split_once [10%N] ((?label ++ [10%N]) ++ page_text pg)] =>
      rewrite <- (app_assoc label); cbn [app]; intros H
  end.
  split.
  - destruct (split_once _ _) as [[? after_label]|]; injection H as _ <-; reflexivity.
  - intros Hname. rewrite split_once_first in H; [injection H as <- _; reflexivity|].
    rewrite !in_app_iff. intros [[[[Hl|Hl]|Hl]|Hl]|Hl].
    + revert Hl. simpl. intuition discriminate.
    + exact (str_of_Z_no_line_break _ Hl).
    + revert Hl. simpl. intuition discriminate.
    + unfold contains in Hname.
      destruct (find [10%N] (page_filename pg)) eqn:Ef; [discriminate|].
      exact (find_char_none _ _ Ef Hl).
    + revert Hl. simpl. intuition discriminate.
Qed.
End PageText.

(** ** The check points of the cancellation flag *)

Section Cancellation.
Context `{U : Unicode} `{S : Services}.

(** The producer that reads the flag set returns at once: nothing more is
    put on the queue, not even the end marker. *)
Lemma produce_sentences_stops is_set token rest n buf full_response first_token_time w :
  is_set Producer n = true ->
  produce_sentences (Some is_set) (token :: rest) n buf full_response first_token_time w =
    (([], full_response, first_token_time), snd (tell (ECancelCheck true) w)).
Proof.
  intros Hset. cbn [produce_sentences cancelled]. rewrite !bind_unfold, Hset.
  reflexivity.
Qed.

(** The consumer that reads the flag set ends at once: the sentence it took
    from the queue is not synthesized. *)
Lemma consume_sentences_stops is_set status_callback audio_chunk_callback sentence rest
    n chunk_index first_chunk_time w :
  is_set Consumer n = true ->
  consume_sentences (Some is_set) status_callback audio_chunk_callback
      (Some sentence :: rest) n chunk_index first_chunk_time w =
    ((chunk_index, first_chunk_time, true), snd (tell (ECancelCheck true) w)).
Proof.
  intros Hset. cbn [consume_sentences cancelled]. rewrite !bind_unfold, Hset.
  reflexivity.
Qed.

(** The loop over the words of a page that reads the flag set stops at
    once; the buffer keeps what the words before left in it. *)
Lemma speak_words_stops is_set audio_chunk_callback word rest n buf chunk_index w :
  is_set MainTask n = true ->
  speak_words (Some is_set) audio_chunk_callback (word :: rest) n buf chunk_index w =
    ((buf, chunk_index), snd (tell (ECancelCheck true) w)).
Proof.
  intros Hset. cbn [speak_words cancelled]. rewrite !bind_unfold, Hset.
  reflexivity.
Qed.

(** What follows that loop is not guarded: a buffer that is not blank is
    flushed and synthesized. *)
Lemma speak_page_flushes cancel_event audio_chunk_callback full_response w buf chunk_index w1 :
  speak_words cancel_event audio_chunk_callback (split_ws full_response) 0
    new_buffer 0 w = ((buf, chunk_index), w1) ->
  nonempty (strip (_buffer buf)) = true ->
  exists w2,
    snd (speak_page cancel_event audio_chunk_callback full_response w) = w2 /\
    In (ESynthesize (strip (_buffer buf))) (trace w2).
Proof.
  intros Hloop Hrest. unfold speak_page. rewrite bind_unfold, Hloop. cbn [fst snd flush].
  rewrite Hrest. rewrite bind_unfold. cbn [tell fst snd].
  eexists. split; [reflexivity|].
  destruct (synthesize (strip (_buffer buf))) as [wav|].
  - rewrite bind_unfold. destruct audio_chunk_callback; cbn [when tell ret fst snd trace].
    + rewrite !in_app_iff. left. right. left. reflexivity.
    + rewrite in_app_iff. right. left. reflexivity.
  - cbn [ret snd trace]. rewrite in_app_iff. right. left. reflexivity.
Qed.
End Cancellation.

(** * Further properties of the code *)

(** ** [str.strip] *)

Lemma drop_while_head p s c r : drop_while p s = c :: r -> p c = false.
Proof.
  induction s as [|x s IH]; simpl; [discriminate|].
  destruct (p x) eqn:E; [exact IH|]. intros H. injection H as <- _. exact E.
Qed.

Lemma drop_while_fix p s :
  match s with [] => True | c :: _ => p c = false end -> drop_while p s = s.
Proof. destruct s as [|c s]; simpl; [reflexivity|]. intros ->. reflexivity. Qed.

Lemma drop_while_idemp p s : drop_while p (drop_while p s) = drop_while p s.
Proof.
  apply drop_while_fix. destruct (drop_while p s) as [|c r] eqn:E; [exact I|].
  exact (drop_while_head _ _ _ _ E).
Qed.

Lemma rstrip_prefix s : exists t, s = rstrip s ++ t.
Proof.
  unfold rstrip. destruct (drop_while_split is_space (rev s)) as (l & Hs & _).
  exists (rev l). rewrite <- rev_app_distr, <- Hs, rev_involutive. reflexivity.
Qed.

(** Stripping twice is stripping once. *)
Lemma strip_idemp s : strip (strip s) = strip s.
Proof.
  unfold strip at 1.
  assert (Hl : lstrip (strip s) = strip s).
  { unfold lstrip. apply drop_while_fix. unfold strip.
    destruct (rstrip (lstrip s)) as [|c r] eqn:E; [exact I|].
    destruct (rstrip_prefix (lstrip s)) as (t & Ht). rewrite E in Ht.
    simpl in Ht. unfold lstrip in Ht. exact (drop_while_head _ _ _ _ Ht). }
  rewrite Hl. unfold strip, rstrip. rewrite rev_involutive, drop_while_idemp.
  reflexivity.
Qed.

Lemma trimmed_strip x : nonempty (strip x) = true -> trimmed (strip x).
Proof. intros H. split; [exact H | apply strip_idemp]. Qed.

Lemma Forall_append_if (P : str -> Prop) sentences x :
  Forall P sentences -> (nonempty x = true -> P x) ->
  Forall P (append_if sentences x).
Proof.
  intros Hs Hx. unfold append_if. destruct (nonempty x) eqn:E; [|exact Hs].
  apply Forall_app. split; [exact Hs | constructor; [apply Hx; reflexivity | constructor]].
Qed.

Lemma nonempty_length s : 0 < length s -> nonempty s = true.
Proof. destruct s; simpl; [lia | reflexivity]. Qed.

(** ** [SentenceBuffer]: what [add] returns and what it keeps *)

Lemma find_tail sep c s : find sep (c :: s) = None -> find sep s = None.
Proof.
  cbn [find]. destruct (starts_with sep (c :: s)); [discriminate|].
  destruct (find sep s); [discriminate | reflexivity].
Qed.

Lemma find_drop sep k : forall s, find sep s = None -> find sep (drop k s) = None.
Proof.
  induction k as [|k IH]; intros s H; [rewrite drop_0; exact H|].
  destruct s as [|c s]; [exact H|]. simpl. apply IH. exact (find_tail _ _ _ H).
Qed.

Lemma split_once_none sep s : split_once sep s = None <-> find sep s = None.
Proof. unfold split_once. destruct (find sep s); split; congruence. Qed.


Lemma last_snoc_char (a : str) c : last (a ++ [c]) = Some c.
Proof. apply last_snoc. Qed.

Section SegmenterInvariants.
Context `{U : Unicode}.


Lemma paragraph_loop_post (P : str -> Prop) :
  (forall x, nonempty (strip x) = true -> P (strip x)) ->
  forall fuel buffer sentences b' s',
    paragraph_loop fuel buffer sentences = Some (b', s') ->
    Forall P sentences ->
    Forall P s' /\ find NLNL b' = None.
Proof.
  intros HP. induction fuel as [|fuel IH]; intros buffer sentences b' s' H Hs;
    simpl in H; destruct (split_once NLNL buffer) as [[b a]|] eqn:E;
    try discriminate;
    try (injection H as <- <-; split; [exact Hs | apply split_once_none, E]).
  eapply IH; [exact H|]. apply Forall_append_if; [exact Hs | apply HP].
Qed.


Lemma sentence_loop_post (P : str -> Prop) :
  (forall buf start m,
     search _SENTENCE_END_RE buf start = Some m ->
     let candidate := strip (take (m_start m) buf) in
     guarded candidate = false -> MIN_SENTENCE_LENGTH <= length candidate ->
     P candidate) ->
  forall fuel buffer search_start sentences b' s',
    sentence_loop fuel buffer search_start sentences = Some (b', s') ->
    Forall P sentences ->
    Forall P s' /\ exists k, b' = drop k buffer.
Proof.
  intros HP. induction fuel as [|fuel IH];
    intros buffer ss sentences b' s' H Hs; [discriminate|].
  simpl in H. destruct (search _SENTENCE_END_RE buffer ss) as [m|] eqn:E.
  2: { injection H as <- <-. split; [exact Hs | exists 0; reflexivity]. }
  specialize (HP buffer ss m E). cbv zeta in HP. unfold guarded in HP.
  destruct (ends_with_abbreviation _); [eapply IH; eassumption|].
  destruct (found _SINGLE_LETTER_ABBR_RE _); [eapply IH; eassumption|].
  destruct (found _DECIMAL_END_RE _); [eapply IH; eassumption|].
  destruct (length _ <? MIN_SENTENCE_LENGTH) eqn:El; [eapply IH; eassumption|].
  apply Nat.ltb_ge in El.
  destruct (IH _ _ _ _ _ H) as (Hs' & k & Hk).
  { apply Forall_app. split; [exact Hs | constructor; [|constructor]].
    apply HP; [reflexivity | exact El]. }
  split; [exact Hs'|]. exists (m_end m + k). rewrite Hk. apply drop_drop.
Qed.

Lemma force_split_post (P : str -> Prop) buffer sentences :
  (forall x, nonempty (strip x) = true -> P (strip x)) ->
  Forall P sentences ->
  Forall P (snd (force_split buffer sentences)) /\
  exists k, fst (force_split buffer sentences) = drop k buffer.
Proof.
  intros HP Hs. unfold force_split.
  destruct (MAX_BUFFER_LENGTH <? length buffer);
    [|split; [exact Hs | exists 0; reflexivity]].
  destruct (last (finditer _CLAUSE_SPLIT_RE buffer)) as [m|];
    [|split; [exact Hs | exists 0; reflexivity]].
  simpl. split; [|eexists; reflexivity].
  apply Forall_append_if; [exact Hs | apply HP].
Qed.


(** The three passes of [add], with what each keeps. *)
Lemma add_post (P : str -> Prop) self token :
  (forall x, nonempty (strip x) = true -> P (strip x)) ->
  exists self' out,
    add self token = Some (self', out) /\ Forall P out /\
    find NLNL (_buffer self') = None.
Proof.
  intros HP. destruct (add_returns self token) as ([self' out] & Hadd).
  exists self', out. split; [exact Hadd|].
  unfold add, add_passes in Hadd.
  destruct (paragraph_loop _ _ _) as [[b1 s1]|] eqn:E1; [|discriminate].
  destruct (sentence_loop _ _ _ _) as [[b2 s2]|] eqn:E2; [|discriminate].
  destruct (paragraph_loop_post P HP _ _ _ _ _ E1) as (H1 & Hf1); [constructor|].
  destruct (sentence_loop_post P) with (2 := E2) as (H2 & k2 & Hk2); [|exact H1|].
  { intros buf start m _ candidate _ Hmin. apply HP, nonempty_length.
    fold candidate. unfold MIN_SENTENCE_LENGTH in Hmin. lia. }
  destruct (force_split_post P b2 s2 HP H2) as (H3 & k3 & Hk3).
  destruct (force_split b2 s2) as [b3 s3]. simpl in H3, Hk3.
  injection Hadd as <- <-. split; [exact H3|]. simpl.
  rewrite Hk3, Hk2. apply find_drop, find_drop, Hf1.
Qed.
End SegmenterInvariants.

Section SegmenterGuarantees.
Context `{U : Unicode}.

(** Every sentence that [add] returns is a non-empty text without white
    space at either end, and so is the text that a later [flush] returns. *)
Theorem add_sentences_trimmed (self : SentenceBuffer) (token : str) :
  exists self' out,
    add self token = Some (self', out) /\
    Forall trimmed out /\
    forall rest, snd (flush self') = Some rest -> trimmed rest.
Proof.
  destruct (add_post trimmed self token trimmed_strip) as (self' & out & Hadd & Hout & _).
  exists self', out. split; [exact Hadd | split; [exact Hout|]].
  unfold flush. simpl. intros rest.
  destruct (nonempty (strip (_buffer self'))) eqn:E; [|discriminate].
  intros H. injection H as <-. apply trimmed_strip, E.
Qed.

(** After [add] the buffer holds no paragraph break: every text before a
    double line feed has been handed over. *)
Theorem add_leaves_no_paragraph_break (self : SentenceBuffer) (token : str) :
  exists self' out,
    add self token = Some (self', out) /\
    contains NLNL (_buffer self') = false.
Proof.
  destruct (add_post (fun _ => True) self token (fun _ _ => I))
    as (self' & out & Hadd & _ & Hf).
  exists self', out. split; [exact Hadd|]. unfold contains. rewrite Hf. reflexivity.
Qed.

Lemma force_split_bound buffer sentences :
  let buffer' := fst (force_split buffer sentences) in
  length buffer' <= MAX_BUFFER_LENGTH \/ forall i, ~ clause_boundary buffer' i.
Proof.
  unfold force_split.
  destruct (MAX_BUFFER_LENGTH <? length buffer) eqn:El;
    [|left; apply Nat.ltb_ge in El; exact El].
  right. pose proof (finditer_clause_last buffer (S (S (length buffer))) 0) as Hlast.
  fold (finditer _CLAUSE_SPLIT_RE buffer) in Hlast.
  destruct (last (finditer _CLAUSE_SPLIT_RE buffer)) as [m|]; simpl.
  - destruct Hlast as (n & Hn & He & _ & Hmax); [lia | lia |].
    intros i Hi. apply clause_boundary_at in Hi as (n' & Hn').
    rewrite drop_drop in Hn'. apply Hmax in Hn'.
    pose proof (clause_at_length _ _ Hn). lia.
  - intros i Hi. apply clause_boundary_at in Hi as (n' & Hn').
    rewrite Hlast in Hn' by lia. discriminate.
Qed.

(** After [add] the buffer is longer than [MAX_BUFFER_LENGTH] only when it
    has no clause boundary at which it could have been split. *)
Theorem add_bounds_buffer (self : SentenceBuffer) (token : str) :
  exists self' out,
    add self token = Some (self', out) /\
    (length (_buffer self') <= MAX_BUFFER_LENGTH \/
     forall i, ~ clause_boundary (_buffer self') i).
Proof.
  destruct (add_returns self token) as ([self' out] & Hadd).
  exists self', out. split; [exact Hadd|].
  unfold add in Hadd. destruct (add_passes self token) as [[b2 s2]|]; [|discriminate].
  pose proof (force_split_bound b2 s2) as Hb.
  destruct (force_split b2 s2) as [b3 s3]. injection Hadd as <- <-. exact Hb.
Qed.


End SegmenterGuarantees.


(** ** The page-request detector *)

Section PageRequestFacts.
Context `{U : Unicode}.

(** A match of a pattern that needs a digit consumes a decimal digit. *)
Lemma needs_digit_consumes r st st' :
  Matches r st st' -> needs_digit r = true ->
  exists w c, before st' = rev w ++ before st /\ In c w /\ is_digit c = true.
Proof.
  induction 1 as [st|c x pre suf cs Hc|r1 r2 st1 st2 st3 H1 IH1 H2 IH2
                 |r1 r2 st st' _ IH|r1 r2 st st' _ IH|g r st
                 |g r st1 st2 st3 _ IH1 _ IH2|n r st st' _ IH|r st st' _ IH
                 |c x pre suf cs Hc|st He|st Hb]; simpl; try discriminate; intros Hs.
  - destruct c; try discriminate. exists [x], x.
    repeat split; [left; reflexivity | exact Hc].
  - destruct (Matches_consumed _ _ _ H1) as (w1 & Hb1 & _).
    destruct (Matches_consumed _ _ _ H2) as (w2 & Hb2 & _).
    apply orb_prop in Hs as [Hs|Hs].
    + destruct (IH1 Hs) as (w & c & Hw & Hin & Hc).
      rewrite Hw in Hb1. apply rev_app_inj in Hb1. subst w1.
      exists (w ++ w2), c. rewrite Hb2, Hw, rev_app_distr, <- app_assoc.
      repeat split; [apply in_or_app; left; exact Hin | exact Hc].
    + destruct (IH2 Hs) as (w & c & Hw & Hin & Hc).
      exists (w1 ++ w), c. rewrite Hw, Hb1, rev_app_distr, <- app_assoc.
      repeat split; [apply in_or_app; right; exact Hin | exact Hc].
  - apply andb_prop in Hs as [Hs _]. exact (IH Hs).
  - apply andb_prop in Hs as [_ Hs]. exact (IH Hs).
  - exact (IH Hs).
Qed.

Lemma search_needs_digit r s start m :
  needs_digit r = true -> search r s start = Some m ->
  exists c, In c s /\ is_digit c = true.
Proof.
  intros Hs H. apply search_sound in H
    as (a & w & b & st' & Heq & Hm & Hb & _).
  destruct (needs_digit_consumes _ _ _ Hm Hs) as (w' & c & Hw' & Hin & Hc).
  simpl in Hw'. rewrite Hb in Hw'. apply rev_app_inj in Hw'. subst w'.
  exists c. split; [|exact Hc].
  rewrite Heq. apply in_or_app. right. apply in_or_app. left. exact Hin.
Qed.

Lemma page_request_needs_digit : needs_digit _PAGE_REQUEST_RE = true.
Proof. reflexivity. Qed.

(** A query in which [_detect_page_request] finds a page request holds a
    decimal digit and is not blank, and the document hint it returns has no
    white space at its ends. *)
Theorem detect_page_request_needs (query : str) (page_num : N) (doc_hint : option str) :
  _detect_page_request query = Some (page_num, doc_hint) ->
  (exists c, In c query /\ is_digit c = true) /\
  nonempty (strip query) = true /\
  forall hint, doc_hint = Some hint -> strip hint = hint.
Proof.
  intros H. split; [|split].
  - unfold _detect_page_request in H.
    destruct (search _PAGE_REQUEST_RE query 0) as [m|] eqn:E; [|discriminate].
    exact (search_needs_digit _ _ _ _ page_request_needs_digit E).
  - exact (detect_page_request_not_blank _ _ H).
  - unfold _detect_page_request in H.
    destruct (search _PAGE_REQUEST_RE query 0) as [m|]; [|discriminate].
    destruct (or_else _ _) as [page_str|]; [|discriminate].
    destruct (nonempty page_str); [|discriminate].
    destruct (py_int page_str); [|discriminate].
    injection H as _ <-. intros hint Hh.
    destruct (group m 4) as [g|]; [|discriminate].
    destruct (nonempty g); [|discriminate].
    injection Hh as <-. apply strip_idemp.
Qed.
End PageRequestFacts.

Lemma detect_page_request_needs_witness :
  _detect_page_request (U := ascii_db) (py "read page 12 of  the manual ") =
    Some (12%N, Some (py "the manual")) /\
  (exists c, In c (py "read page 12 of  the manual ") /\ is_digit (U := ascii_db) c = true) /\
  nonempty (strip (py "read page 12 of  the manual ")) = true /\
  forall hint, Some (py "the manual") = Some hint -> strip hint = hint.
Proof.
  split; [vm_compute; reflexivity|].
  apply (detect_page_request_needs (U := ascii_db)
           (py "read page 12 of  the manual ") 12%N (Some (py "the manual"))).
  vm_compute. reflexivity.
Defined.

(** ** [SessionManager] *)

Lemma persist_store sid s mgr :
  _persist sid (store sid s mgr) =
    {| _sessions := <[sid := s]> (_sessions mgr);
       session_files := <[sid := s]> (session_files mgr) |}.
Proof.
  unfold _persist, store. cbn [_sessions session_files].
  rewrite lookup_insert_eq. reflexivity.
Qed.

Lemma consistent_persist_store sid s mgr :
  consistent mgr -> session_id s = sid ->
  consistent (_persist sid (store sid s mgr)).
Proof.
  intros [Hf Hk] Hs. rewrite persist_store. split; cbn [_sessions session_files].
  - rewrite Hf. reflexivity.
  - intros k s' H. destruct (decide (k = sid)) as [->|Hne].
    + rewrite lookup_insert_eq in H. congruence.
    + rewrite lookup_insert_ne in H by congruence. exact (Hk _ _ H).
Qed.

(** Every operation of the manager keeps the files equal to the records in
    memory, and every record under its own identifier. *)
Theorem operations_keep_consistent (mgr : SessionManager) (now : Z)
    (uuid sid t r c : str) (enabled : bool) (wanted : option str) :
  consistent mgr ->
  consistent (fst (create now uuid t mgr)) /\
  consistent (fst (get_or_create now uuid wanted mgr)) /\
  consistent (fst (update_title now sid t mgr)) /\
  consistent (append_history now sid r c mgr) /\
  consistent (set_rag_enabled sid enabled mgr) /\
  consistent (fst (delete sid mgr)).
Proof.
  intros Hc.
  assert (Hcreate : forall t', consistent (fst (create now uuid t' mgr))).
  { intros t'. apply consistent_persist_store; [exact Hc | reflexivity]. }
  split; [apply Hcreate|]. split.
  { unfold get_or_create. destruct wanted as [id|]; [|apply Hcreate].
    destruct (nonempty id); [|apply Hcreate].
    destruct (_sessions mgr !! id); [exact Hc | apply Hcreate]. }
  pose proof Hc as [Hf Hk].
  split; [|split; [|split]].
  - unfold update_title. destruct (_sessions mgr !! sid) as [s|] eqn:E; [|exact Hc].
    apply consistent_persist_store; [exact Hc | exact (Hk _ _ E)].
  - unfold append_history. destruct (_sessions mgr !! sid) as [s|] eqn:E; [|exact Hc].
    apply consistent_persist_store; [exact Hc|].
    destruct (_ && _); exact (Hk _ _ E).
  - unfold set_rag_enabled. destruct (_sessions mgr !! sid) as [s|] eqn:E; [|exact Hc].
    apply consistent_persist_store; [exact Hc | exact (Hk _ _ E)].
  - unfold delete. destruct (_sessions mgr !! sid) as [s|] eqn:E; [|exact Hc].
    split; cbn [fst _sessions session_files].
    + rewrite Hf. reflexivity.
    + intros k s' H. apply lookup_delete_Some in H as [_ H]. exact (Hk _ _ H).
Qed.

Lemma one_session_manager_consistent : consistent one_session_manager.
Proof.
  split; [reflexivity|]. intros sid s H. unfold one_session_manager in H.
  cbn [_sessions] in H. apply lookup_singleton_Some in H as [<- <-]. reflexivity.
Qed.

Lemma operations_keep_consistent_witness :
  consistent one_session_manager /\
  consistent (append_history 200 (py "s1") (py "user") (py "hello") one_session_manager).
Proof.
  split; [exact one_session_manager_consistent|].
  exact (proj1 (proj2 (proj2 (proj2
    (operations_keep_consistent one_session_manager 200 (py "u") (py "s1") (py "t")
       (py "user") (py "hello") true None one_session_manager_consistent))))).
Defined.

Lemma lookup_persist_store other sid s mgr :
  other <> sid ->
  _sessions (_persist sid (store sid s mgr)) !! other = _sessions mgr !! other /\
  session_files (_persist sid (store sid s mgr)) !! other = session_files mgr !! other.
Proof.
  intros Hne. rewrite persist_store. cbn [_sessions session_files].
  rewrite !lookup_insert_ne by congruence. split; reflexivity.
Qed.

(** An operation on one session leaves the record and the file of every
    other session as they were. *)
Theorem operations_touch_one_session (mgr : SessionManager) (now : Z)
    (sid other t r c : str) (enabled : bool) :
  other <> sid ->
  let same mgr' :=
    _sessions mgr' !! other = _sessions mgr !! other /\
    session_files mgr' !! other = session_files mgr !! other in
  same (fst (create now sid t mgr)) /\
  same (fst (update_title now sid t mgr)) /\
  same (append_history now sid r c mgr) /\
  same (set_rag_enabled sid enabled mgr) /\
  same (fst (delete sid mgr)).
Proof.
  intros Hne same. unfold same. repeat split;
    try (apply lookup_persist_store; exact Hne);
    unfold update_title, append_history, set_rag_enabled, delete;
    destruct (_sessions mgr !! sid) as [s|]; try reflexivity;
    try (apply lookup_persist_store; exact Hne);
    cbn [fst _sessions session_files]; apply lookup_delete_ne; congruence.
Qed.

Lemma operations_touch_one_session_witness :
  get (py "s1")
    (append_history 300 (py "s2") (py "user") (py "hi")
       (fst (create 200 (py "s2") New_chat one_session_manager))) = Some one_session.
Proof.
  unfold get.
  rewrite (proj1 (proj1 (proj2 (proj2
    (operations_touch_one_session (fst (create 200 (py "s2") New_chat one_session_manager))
       300 (py "s2") (py "s1") (py "t") (py "user") (py "hi") true
       ltac:(discriminate)))))).
  rewrite (proj1 (proj1
    (operations_touch_one_session one_session_manager
       200 (py "s2") (py "s1") New_chat (py "user") (py "hi") true
       ltac:(discriminate)))).
  apply lookup_singleton_eq.
Defined.

(** [delete] removes the record, and the file when the two agreed; it
    answers whether there was a record.  What is later sent to the deleted
    session is dropped without notice: [append_history] changes nothing and
    [get_history] is empty. *)
Theorem delete_forgets (mgr : SessionManager) (now : Z) (sid r c : str) (n : nat) :
  let mgr' := fst (delete sid mgr) in
  get sid mgr' = None /\
  (snd (delete sid mgr) = true <-> get sid mgr <> None) /\
  (session_files mgr = _sessions mgr -> session_files mgr' !! sid = None) /\
  append_history now sid r c mgr' = mgr' /\
  get_history sid n mgr' = [].
Proof.
  cbv zeta.
  assert (Hget : get sid (fst (delete sid mgr)) = None).
  { unfold get, delete. destruct (_sessions mgr !! sid) as [s|] eqn:E; [|exact E].
    cbn [fst _sessions]. apply lookup_delete_eq. }
  split; [exact Hget|]. unfold get in *. repeat split.
  - unfold delete. destruct (_sessions mgr !! sid); [congruence | discriminate].
  - unfold delete. destruct (_sessions mgr !! sid); [reflexivity | congruence].
  - intros Hf. unfold delete. destruct (_sessions mgr !! sid) as [s|] eqn:E.
    + cbn [fst session_files]. apply lookup_delete_eq.
    + cbn [fst]. rewrite Hf. exact E.
  - unfold append_history. rewrite Hget. reflexivity.
  - unfold get_history. rewrite Hget. reflexivity.
Qed.

(** [get_history] returns the end of the conversation: the last
    [max_entries] messages when there are that many, all of them otherwise,
    and all of them as well when [max_entries] is 0, since the slice
    [[-0:]] is the whole list. *)
Theorem get_history_suffix (mgr : SessionManager) (sid : str) (max_entries : nat)
    (s : SessionData) :
  get sid mgr = Some s ->
  exists older,
    conversation_history s = older ++ get_history sid max_entries mgr /\
    (0 < max_entries ->
       length (get_history sid max_entries mgr) =
         Nat.min max_entries (length (conversation_history s))) /\
    (max_entries = 0 -> older = []).
Proof.
  unfold get, get_history. intros ->. unfold last_entries.
  destruct (Nat.eqb_spec max_entries 0) as [->|Hne].
  - exists []. repeat split. lia.
  - exists (take (length (conversation_history s) - max_entries) (conversation_history s)).
    repeat split.
    + symmetry. apply take_drop.
    + intros _. rewrite length_drop. lia.
    + intros ->. congruence.
Qed.

Lemma get_history_suffix_witness :
  exists older,
    conversation_history talk_session = older ++ get_history (py "s2") 2 talk_manager /\
    (0 < 2 ->
       length (get_history (py "s2") 2 talk_manager) =
         Nat.min 2 (length (conversation_history talk_session))) /\
    (2 = 0 -> older = []).
Proof.
  apply (get_history_suffix talk_manager (py "s2") 2 talk_session).
  unfold get, talk_manager. cbn [_sessions]. apply lookup_singleton_eq.
Defined.

Lemma strip_length s : length (strip s) <= length s.
Proof.
  destruct (strip_split s) as (l & t & Hs & _).
  rewrite Hs at 2. rewrite !length_app. lia.
Qed.

Lemma str_eqb_eq a : forall b, str_eqb a b = true <-> a = b.
Proof.
  induction a as [|x a IH]; intros [|y b]; simpl; split; try congruence.
  - intros H. apply andb_prop in H as [Hx Ha]. apply N.eqb_eq in Hx.
    apply IH in Ha. congruence.
  - intros H. injection H as -> ->. rewrite N.eqb_refl. apply IH. reflexivity.
Qed.

(** [append_history] adds the message, stamps the record, and writes the
    file.  It changes the title only for a user message to a session still
    titled "New chat", and the title it then sets has at most 63 characters;
    the identifier, the creation time and the retrieval flag are kept. *)
Theorem append_history_titles (mgr : SessionManager) (now : Z) (sid r c : str)
    (s : SessionData) :
  get sid mgr = Some s ->
  exists s',
    get sid (append_history now sid r c mgr) = Some s' /\
    session_files (append_history now sid r c mgr) !! sid = Some s' /\
    conversation_history s' = conversation_history s ++ [Message r c] /\
    updated_at s' = now /\
    session_id s' = session_id s /\ created_at s' = created_at s /\
    rag_enabled s' = rag_enabled s /\
    (r <> py "user" \/ title s <> New_chat -> title s' = title s) /\
    (r = py "user" -> title s = New_chat -> length (title s') <= 63).
Proof.
  unfold get, append_history. intros ->. rewrite persist_store.
  cbn [_sessions session_files]. rewrite !lookup_insert_eq.
  eexists. split; [reflexivity|]. split; [reflexivity|].
  cbn [set_updated_at push_message title].
  destruct (str_eqb r (py "user")) eqn:Er; destruct (str_eqb (title s) New_chat) eqn:Et;
    cbn [andb set_title conversation_history updated_at session_id created_at
         rag_enabled title]; repeat split;
    try (intros [H|H]; exfalso; apply H; apply str_eqb_eq; assumption);
    try (intros Hr Ht; apply str_eqb_eq in Hr, Ht; congruence).
  intros _ _. pose proof (strip_length (take 60 c)) as Hs.
  rewrite length_take in Hs.
  destruct (60 <? length c); [rewrite length_app; simpl|]; lia.
Qed.

Lemma append_history_titles_witness :
  exists s',
    get (py "s9")
      (append_history 7 (py "s9") (py "user") (repeat (chr "x") 70)
         (fst (create 5 (py "s9") New_chat one_session_manager))) = Some s' /\
    title s' = repeat (chr "x") 60 ++ py "..." /\ length (title s') <= 63.
Proof.
  destruct (append_history_titles (fst (create 5 (py "s9") New_chat one_session_manager))
              7 (py "s9") (py "user") (repeat (chr "x") 70)
              (snd (create 5 (py "s9") New_chat one_session_manager))
              (get_persist_store _ _ _))
    as (s' & Hget & _ & _ & _ & _ & _ & _ & _ & Hlen).
  exists s'. split; [exact Hget|]. split; [|apply Hlen; reflexivity].
  unfold get, append_history, create in Hget. cbn [fst] in Hget.
  rewrite !persist_store in Hget. cbn [_sessions] in Hget.
  rewrite !lookup_insert_eq in Hget. injection Hget as <-. vm_compute. reflexivity.
Defined.

(** The session that [get_or_create] returns is the record kept under its
    identifier afterwards.  A known identifier gives its record and changes
    nothing; no identifier, an empty one or an unknown one gives a fresh
    session titled "New chat", with no message and retrieval enabled, under
    the identifier drawn. *)
Theorem get_or_create_returns_stored (mgr : SessionManager) (now : Z) (uuid : str)
    (wanted : option str) :
  consistent mgr ->
  let r := get_or_create now uuid wanted mgr in
  get (session_id (snd r)) (fst r) = Some (snd r) /\
  (forall id s, wanted = Some id -> id <> [] -> get id mgr = Some s ->
     r = (mgr, s)) /\
  ((forall id, wanted = Some id -> id = [] \/ get id mgr = None) ->
     snd r = {| session_id := uuid; title := New_chat; created_at := now;
                updated_at := now; conversation_history := []; rag_enabled := true |}).
Proof.
  intros [_ Hk] r. subst r. unfold get_or_create, get. repeat split.
  - destruct wanted as [id|]; [|apply get_persist_store].
    destruct (nonempty id); [|apply get_persist_store].
    destruct (_sessions mgr !! id) as [s|] eqn:E; [|apply get_persist_store].
    cbn [fst snd]. rewrite (Hk _ _ E). exact E.
  - intros id s -> Hid Hs. destruct id; [congruence|]. cbn [nonempty].
    rewrite Hs. reflexivity.
  - intros H. destruct wanted as [id|]; [|reflexivity].
    destruct (nonempty id) eqn:En; [|reflexivity].
    destruct (H id eq_refl) as [->|Hn]; [discriminate|].
    rewrite Hn. reflexivity.
Qed.

Lemma get_or_create_returns_stored_witness :
  get_or_create 9 (py "u1") (Some (py "s1")) one_session_manager =
    (one_session_manager, one_session) /\
  session_id (snd (get_or_create 9 (py "u1") (Some (py "gone")) one_session_manager)) = py "u1".
Proof.
  pose proof (get_or_create_returns_stored one_session_manager 9 (py "u1")
                (Some (py "s1")) one_session_manager_consistent) as (_ & H & _).
  split.
  - apply (H (py "s1") one_session eq_refl); [discriminate|].
    unfold get, one_session_manager. cbn [_sessions]. apply lookup_singleton_eq.
  - pose proof (get_or_create_returns_stored one_session_manager 9 (py "u1")
                  (Some (py "gone")) one_session_manager_consistent) as (_ & _ & H').
    rewrite H'; [reflexivity|]. intros id Hid. injection Hid as <-. right.
    unfold get, one_session_manager. cbn [_sessions].
    apply lookup_singleton_ne. discriminate.
Defined.

(** ** [LLMService]: the retry loops *)

Lemma sleeps_app a b : sleeps (a ++ b) = sleeps a ++ sleeps b.
Proof. apply flat_map_app. Qed.

Lemma sleeps_map_Yield l : sleeps (List.map Yield l) = [].
Proof. induction l as [|x l IH]; simpl; [reflexivity | exact IH]. Qed.

Lemma attempts_trace server : forall todo attempt last_error,
  0 < todo -> attempt + todo = MAX_RETRIES + 1 ->
  exists n,
    attempt <= n <= MAX_RETRIES /\
    (forall i, attempt <= i < n -> retryable (server i) = true) /\
    fst (attempts server attempt todo last_error) =
      flat_map (fun i => List.map Yield (fst (run_attempt (server i))) ++
                         [Sleep (RETRY_DELAY * (i + 1))])
               (seq attempt (n - attempt)) ++
      List.map Yield (fst (run_attempt (server n))).
Proof.
  induction todo as [|todo IH]; intros attempt last_error Htodo Hsum; [lia|].
  cbn [attempts].
  pose proof (caught_retryable attempt (server attempt)) as Hc.
  destruct (run_attempt (server attempt)) as [fragments fin] eqn:Erun.
  cbn [snd] in Hc.
  assert (Hstop : forall fin' : finish, exists n,
            attempt <= n <= MAX_RETRIES /\
            (forall i, attempt <= i < n -> retryable (server i) = true) /\
            fst (List.map Yield fragments, fin') =
              flat_map (fun i => List.map Yield (fst (run_attempt (server i))) ++
                                 [Sleep (RETRY_DELAY * (i + 1))])
                       (seq attempt (n - attempt)) ++
              List.map Yield (fst (run_attempt (server n)))).
  { intros fin'. exists attempt. rewrite Nat.sub_diag, Erun.
    repeat split; [lia | unfold MAX_RETRIES in *; lia | intros; lia]. }
  destruct fin as [|e]; [apply Hstop|].
  specialize (Hc e eq_refl). destruct (caught attempt e) eqn:Ecaught; [|apply Hstop].
  symmetry in Hc. apply andb_prop in Hc as [Hret Hatt].
  apply negb_true_iff, Nat.eqb_neq in Hatt.
  destruct (IH (S attempt) e) as (n & Hn & Hbefore & Hev);
    [unfold MAX_RETRIES in *; lia | lia |].
  destruct (attempts server (S attempt) todo e) as [events fin'].
  cbn [fst] in *. exists n. repeat split; [lia | lia | |].
  - intros i Hi. destruct (Nat.eq_dec i attempt) as [->|Hne];
      [exact Hret | apply Hbefore; lia].
  - replace (n - attempt) with (S (n - S attempt)) by lia.
    cbn [seq flat_map]. rewrite Erun, Hev, <- !app_assoc. reflexivity.
Qed.

(** The whole run of [generate_stream]: for some [n <= MAX_RETRIES], the
    attempts [0 .. n-1] failed in a retryable way, the stream is the
    fragments of each of them followed by a pause of [RETRY_DELAY * (i + 1)]
    seconds, then the fragments of attempt [n]; so it pauses for 1 second,
    then 2, and never more than twice. *)
Theorem generate_stream_trace (server : nat -> response) :
  exists n,
    n <= MAX_RETRIES /\
    (forall i, i < n -> retryable (server i) = true) /\
    fst (generate_stream server) =
      flat_map (fun i => List.map Yield (fst (run_attempt (server i))) ++
                         [Sleep (RETRY_DELAY * (i + 1))]) (seq 0 n) ++
      List.map Yield (fst (run_attempt (server n))) /\
    sleeps (fst (generate_stream server)) = firstn n [1; 2].
Proof.
  destruct (attempts_trace server (MAX_RETRIES + 1) 0 OtherError)
    as (n & Hn & Hbefore & Hev); [unfold MAX_RETRIES; lia | lia |].
  rewrite Nat.sub_0_r in Hev. fold (generate_stream server) in Hev.
  exists n. repeat split; [lia | intros i Hi; apply Hbefore; lia | exact Hev |].
  rewrite Hev. unfold MAX_RETRIES in Hn.
  destruct n as [|[|[|n]]]; [| | |lia]; cbn [seq flat_map];
    rewrite ?sleeps_app, ?sleeps_map_Yield; reflexivity.
Qed.


Section Generate.
Context `{U : Unicode}.

Lemma caught_retried attempt r e :
  run_post r = Error e ->
  caught attempt e = retried r && negb (attempt =? MAX_RETRIES).
Proof. unfold retried. intros ->. destruct e; reflexivity. Qed.

Lemma posts_spec server : forall todo attempt last_error,
  0 < todo -> attempt + todo = MAX_RETRIES + 1 ->
  exists n,
    attempt <= n <= MAX_RETRIES /\
    (forall i, attempt <= i < n -> retried (server i) = true) /\
    (n < MAX_RETRIES -> retried (server n) = false) /\
    fst (posts server attempt todo last_error) =
      List.map (fun i => RETRY_DELAY * (i + 1)) (seq attempt (n - attempt)) /\
    snd (posts server attempt todo last_error) = run_post (server n).
Proof.
  induction todo as [|todo IH]; intros attempt last_error Htodo Hsum; [lia|].
  cbn [posts].
  pose proof (caught_retried attempt (server attempt)) as Hc.
  assert (Hstop : forall res, run_post (server attempt) = res ->
            (attempt < MAX_RETRIES -> retried (server attempt) = false) ->
            exists n,
              attempt <= n <= MAX_RETRIES /\
              (forall i, attempt <= i < n -> retried (server i) = true) /\
              (n < MAX_RETRIES -> retried (server n) = false) /\
              fst ([] : list nat, res) =
                List.map (fun i => RETRY_DELAY * (i + 1)) (seq attempt (n - attempt)) /\
              snd ([] : list nat, res) = run_post (server n)).
  { intros res Hres Hno. exists attempt. rewrite Nat.sub_diag.
    repeat split; [lia | unfold MAX_RETRIES in *; lia | intros; lia | exact Hno
                  | symmetry; exact Hres]. }
  destruct (run_post (server attempt)) as [s|e] eqn:Erun.
  { apply Hstop; [reflexivity|]. intros _. unfold retried. rewrite Erun. reflexivity. }
  specialize (Hc e eq_refl). destruct (caught attempt e) eqn:Ecaught.
  - symmetry in Hc. apply andb_prop in Hc as [Hret Hatt].
    apply negb_true_iff, Nat.eqb_neq in Hatt.
    destruct (IH (S attempt) e) as (n & Hn & Hbefore & Hlast & Hsl & Hres);
      [unfold MAX_RETRIES in *; lia | lia |].
    destruct (posts server (S attempt) todo e) as [sl res].
    cbn [fst snd] in *. exists n. repeat split; [lia | lia | | exact Hlast | | exact Hres].
    + intros i Hi. destruct (Nat.eq_dec i attempt) as [->|Hne];
        [exact Hret | apply Hbefore; lia].
    + replace (n - attempt) with (S (n - S attempt)) by lia.
      cbn [seq List.map]. rewrite Hsl. reflexivity.
  - apply Hstop; [reflexivity|]. intros Hlt.
    symmetry in Hc. apply andb_false_iff in Hc as [Hc|Hc]; [exact Hc|].
    apply negb_false_iff, Nat.eqb_eq in Hc. lia.
Qed.

(** [generate] sends the requests [0 .. n] for some [n <= MAX_RETRIES]:
    every request before [n] met a connection or read error or a status
    500, 502 or 503, request [n] is the last one allowed or met none of
    these, the call sleeps 1 second after the first failure and 2 after the
    second, and it ends as request [n] ends: with the content of the reply
    without its think blocks, or with the exception of that request. *)
Theorem llm_generate_attempts (server : nat -> reply) :
  exists n,
    n <= MAX_RETRIES /\
    (forall i, i < n -> retried (server i) = true) /\
    (n < MAX_RETRIES -> retried (server n) = false) /\
    fst (llm_generate server) = firstn n [1; 2] /\
    snd (llm_generate server) = run_post (server n).
Proof.
  destruct (posts_spec server (MAX_RETRIES + 1) 0 OtherError)
    as (n & Hn & Hbefore & Hlast & Hsl & Hres); [unfold MAX_RETRIES; lia | lia |].
  fold (llm_generate server) in Hsl, Hres.
  exists n. repeat split;
    [lia | intros i Hi; apply Hbefore; lia | exact Hlast | | exact Hres].
  rewrite Hsl, Nat.sub_0_r. unfold MAX_RETRIES in Hn.
  destruct n as [|[|[|n]]]; [reflexivity.. | lia].
Qed.
End Generate.

(** ** [_strip_think_tags] *)

Lemma starts_with_prefix sep rest : starts_with sep (sep ++ rest) = true.
Proof.
  induction sep as [|x sep IH]; simpl; [reflexivity|].
  rewrite N.eqb_refl. exact IH.
Qed.

Lemma find_occurrence sep a b : find sep (a ++ sep ++ b) <> None.
Proof.
  induction a as [|x a IH]; simpl.
  - destruct (sep ++ b) eqn:E; simpl; rewrite <- ?E, starts_with_prefix; discriminate.
  - destruct (starts_with sep (x :: a ++ sep ++ b)); [discriminate|].
    destruct (find sep (a ++ sep ++ b)); [discriminate | congruence].
Qed.

Section ThinkTags.
Context `{U : Unicode}.

Lemma Matches_lits l : forall st st',
  Matches (seq_of (List.map (fun c => Cls (Lit c)) l)) st st' ->
  after st = l ++ after st'.
Proof.
  induction l as [|c l IH]; intros st st' H.
  - inv H. reflexivity.
  - assert (Hone : forall st1 st2, Matches (Cls (Lit c)) st1 st2 ->
                     after st1 = c :: after st2).
    { intros st1 st2 H1. inv H1. simpl in *.
      match goal with E : (_ =? _)%N = true |- _ => apply N.eqb_eq in E; subst end.
      reflexivity. }
    destruct l as [|c' l].
    + simpl in H. rewrite (Hone _ _ H). reflexivity.
    + change (seq_of (List.map (fun c => Cls (Lit c)) (c :: c' :: l)))
        with (Seq (Cls (Lit c)) (seq_of (List.map (fun c => Cls (Lit c)) (c' :: l)))) in H.
      inversion H as [| |? ? ? st1 ? H1 H2| | | | | | | | |]; subst; clear H.
      rewrite (Hone _ _ H1), (IH _ _ H2). reflexivity.
Qed.

(** A match of [_THINK_PATTERN] holds a closing tag. *)
Lemma think_pattern_consumes st st' :
  Matches _THINK_PATTERN st st' ->
  exists x, after st = x ++ py "</think>" ++ after st'.
Proof.
  intros H.
  change _THINK_PATTERN
    with (Seq (lit "<think>") (Seq (Star false (Cls AnyChar)) (lit "</think>"))) in H.
  inversion H as [| |? ? ? st1 ? H1 H23| | | | | | | | |]; subst; clear H.
  inversion H23 as [| |? ? ? st2 ? H2 H3| | | | | | | | |]; subst; clear H23.
  destruct (Matches_consumed _ _ _ H1) as (w1 & _ & Ha1).
  destruct (Matches_consumed _ _ _ H2) as (w2 & _ & Ha2).
  apply Matches_lits in H3.
  exists (w1 ++ w2). rewrite Ha1, Ha2, H3, <- app_assoc. reflexivity.
Qed.

Lemma search_think_closing text start m :
  search _THINK_PATTERN text start = Some m ->
  contains (py "</think>") text = true.
Proof.
  intros H. apply search_sound in H as (a & w & b & st' & Hs & Hm & _ & Ha & _).
  apply think_pattern_consumes in Hm as (x & Hx). cbn [after] in Hx.
  unfold contains. destruct (find (py "</think>") text) eqn:E; [reflexivity|].
  exfalso. revert E. rewrite Hs, Hx, !app_assoc, <- (app_assoc _ (py "</think>")).
  apply find_occurrence.
Qed.

(** A text without a closing tag [</think>] is only stripped: a think
    block that was opened and not closed stays in the answer. *)
Theorem strip_think_tags_unclosed (text : str) :
  contains (py "</think>") text = false ->
  _strip_think_tags text = strip text.
Proof.
  intros H. unfold _strip_think_tags, sub. cbn [sub_from Nat.ltb Nat.leb].
  destruct (search _THINK_PATTERN text 0) as [m|] eqn:E; [|reflexivity].
  apply search_think_closing in E. congruence.
Qed.
End ThinkTags.

Lemma strip_think_tags_unclosed_witness :
  _strip_think_tags (U := ascii_db) (py " <think>so far Hello ") = py "<think>so far Hello".
Proof.
  rewrite (strip_think_tags_unclosed (U := ascii_db) (py " <think>so far Hello "));
    vm_compute; reflexivity.
Defined.

Section ThinkBlock.
Context `{U : Unicode}.

Lemma rmatch_lits l : forall pre suf cs k,
  rmatch (seq_of (List.map (fun c => Cls (Lit c)) l)) (MState pre (l ++ suf) cs) k =
    k (MState (rev l ++ pre) suf cs).
Proof.
  induction l as [|c l IH]; intros pre suf cs k; [reflexivity|].
  destruct l as [|c' l].
  - cbn [List.map seq_of app]. rewrite rmatch_cls. cbn [cls_match].
    rewrite N.eqb_refl. reflexivity.
  - change (seq_of (List.map (fun c => Cls (Lit c)) (c :: c' :: l)))
      with (Seq (Cls (Lit c)) (seq_of (List.map (fun c => Cls (Lit c)) (c' :: l)))).
    rewrite rmatch_seq. change ((c :: c' :: l) ++ suf) with (c :: (c' :: l) ++ suf).
    rewrite rmatch_cls. cbn [cls_match]. rewrite N.eqb_refl, IH.
    change (rev (c :: c' :: l)) with (rev (c' :: l) ++ [c]).
    rewrite <- app_assoc. reflexivity.
Qed.

Lemma rmatch_lits_fail c l x pre suf cs k :
  x <> c ->
  rmatch (seq_of (List.map (fun c => Cls (Lit c)) (c :: l))) (MState pre (x :: suf) cs) k =
    None.
Proof.
  intros Hx. assert (E : (x =? c)%N = false) by (apply N.eqb_neq; exact Hx).
  destruct l as [|c' l].
  - cbn [List.map seq_of]. rewrite rmatch_cls. cbn [cls_match]. rewrite E. reflexivity.
  - change (seq_of (List.map (fun c => Cls (Lit c)) (c :: c' :: l)))
      with (Seq (Cls (Lit c)) (seq_of (List.map (fun c => Cls (Lit c)) (c' :: l)))).
    rewrite rmatch_seq, rmatch_cls. cbn [cls_match]. rewrite E. reflexivity.
Qed.

Lemma any_char x : cls_match AnyChar x = true.
Proof. cbn [AnyChar cls_match]. destruct (x =? 10)%N; reflexivity. Qed.

(** The lazy [.*?] goes on as long as what follows it does not match. *)
Lemma star_lazy_any (b : str) : forall fuel pre rest cs (k : cont) res,
  (forall pre' x suf', x <> 60%N -> k (MState pre' (x :: suf') cs) = None) ->
  ~ In 60%N b -> length b <= fuel ->
  k (MState (rev b ++ pre) rest cs) = Some res ->
  star_loop (rmatch (Cls AnyChar)) false fuel (MState pre (b ++ rest) cs) k = Some res.
Proof.
  induction b as [|x b IH]; intros fuel pre rest cs k res Hk Hb Hlen Hres.
  - destruct fuel; cbn [star_loop app rev] in *; [exact Hres | rewrite Hres; reflexivity].
  - destruct fuel as [|fuel]; [simpl in Hlen; lia|].
    cbn [star_loop app]. rewrite Hk by (intros ->; apply Hb; left; reflexivity).
    rewrite rmatch_cls, any_char. cbn [after].
    match goal with |- context [?n <? ?m] =>
      destruct (Nat.ltb_spec n m) as [_|Hge]; [|simpl in Hge; lia] end.
    apply IH.
    + exact Hk.
    + intros Hin. apply Hb. right. exact Hin.
    + simpl in Hlen. lia.
    + cbn [rev] in Hres. rewrite <- app_assoc in Hres. exact Hres.
Qed.

Lemma think_at pre (b c : str) :
  ~ In 60%N b ->
  rmatch _THINK_PATTERN (MState pre (py "<think>" ++ b ++ py "</think>" ++ c) []) Some =
    Some (MState (rev (py "</think>") ++ rev b ++ rev (py "<think>") ++ pre) c []).
Proof.
  intros Hb.
  change _THINK_PATTERN
    with (Seq (lit "<think>") (Seq (Star false (Cls AnyChar)) (lit "</think>"))).
  rewrite rmatch_seq. unfold lit at 1. rewrite rmatch_lits, rmatch_seq, rmatch_star.
  apply star_lazy_any.
  - intros pre' x suf' Hx. unfold lit.
    change (py "</think>") with (60%N :: py "/think>").
    apply rmatch_lits_fail, Hx.
  - exact Hb.
  - cbn [after]. rewrite length_app. lia.
  - unfold lit. apply rmatch_lits.
Qed.

Lemma think_not_at x pre suf :
  x <> 60%N -> rmatch _THINK_PATTERN (MState pre (x :: suf) []) Some = None.
Proof.
  intros Hx.
  change _THINK_PATTERN
    with (Seq (lit "<think>") (Seq (Star false (Cls AnyChar)) (lit "</think>"))).
  rewrite rmatch_seq. unfold lit.
  change (py "<think>") with (60%N :: py "think>").
  apply rmatch_lits_fail, Hx.
Qed.

Lemma scan_skip_think s (a : str) : forall pre rest,
  ~ In 60%N a ->
  scan _THINK_PATTERN s pre (a ++ rest) = scan _THINK_PATTERN s (rev a ++ pre) rest.
Proof.
  induction a as [|x a IH]; intros pre rest Ha; [reflexivity|].
  cbn [app scan]. rewrite think_not_at by (intros ->; apply Ha; left; reflexivity).
  rewrite IH by (intros Hin; apply Ha; right; exact Hin).
  cbn [rev]. rewrite <- app_assoc. reflexivity.
Qed.

Lemma scan_hit r s pre suf st' :
  rmatch r (MState pre suf []) Some = Some st' ->
  scan r s pre suf = Some (MatchObj s (length pre) (pos st') (caps st')).
Proof. intros H. destruct suf; cbn [scan]; rewrite H; reflexivity. Qed.

Lemma search_think_none (text : str) start :
  ~ In 60%N (drop start text) -> search _THINK_PATTERN text start = None.
Proof.
  intros H. unfold search.
  rewrite <- (app_nil_r (drop start text)), scan_skip_think by exact H.
  reflexivity.
Qed.

(** A think block is taken out and the text around it is kept: when the
    text before the block, the text inside it and the text after it hold no
    [<], the result is the text before and the text after it, together,
    stripped. *)
Theorem strip_think_tags_block (a b c : str) :
  ~ In 60%N a -> ~ In 60%N b -> ~ In 60%N c ->
  _strip_think_tags (a ++ py "<think>" ++ b ++ py "</think>" ++ c) = strip (a ++ c).
Proof.
  intros Ha Hb Hc. unfold _strip_think_tags. f_equal. unfold sub.
  set (text := a ++ py "<think>" ++ b ++ py "</think>" ++ c).
  pose (p := a ++ py "<think>" ++ b ++ py "</think>").
  assert (Htext : text = p ++ c) by (unfold text, p; rewrite <- !app_assoc; reflexivity).
  assert (Hfirst : search _THINK_PATTERN text 0 =
            Some (MatchObj text (length a) (length p) [])).
  { unfold search. rewrite take_0, drop_0. cbn [rev]. unfold text.
    rewrite scan_skip_think by exact Ha.
    rewrite (scan_hit _ _ _ _ _ (think_at _ b c Hb)). f_equal.
    unfold pos. cbn [before caps]. f_equal.
    - rewrite app_nil_r. apply length_rev.
    - unfold p. rewrite !length_app, !length_rev. cbn [length]. lia. }
  cbn [sub_from]. replace (length text <? 0) with false by reflexivity.
  rewrite Hfirst. cbn [m_start m_end app].
  replace (length a <? length p) with true
    by (symmetry; apply Nat.ltb_lt; unfold p; rewrite !length_app; simpl; lia).
  replace (length text <? length p) with false
    by (symmetry; apply Nat.ltb_ge; rewrite Htext, length_app; lia).
  assert (Hdrop : drop (length p) text = c) by (rewrite Htext; apply drop_app_length).
  rewrite search_think_none by (rewrite Hdrop; exact Hc).
  rewrite Hdrop, Nat.sub_0_r, drop_0. unfold text. rewrite take_app_length. reflexivity.
Qed.
End ThinkBlock.

Lemma strip_think_tags_block_witness :
  _strip_think_tags (U := ascii_db) (py "Sure. <think>let me see</think> It is on page 3.") =
    py "Sure.  It is on page 3.".
Proof.
  change (py "Sure. <think>let me see</think> It is on page 3.")
    with (py "Sure. " ++ py "<think>" ++ py "let me see" ++ py "</think>" ++
          py " It is on page 3.").
  rewrite (strip_think_tags_block (U := ascii_db)).
  - vm_compute. reflexivity.
  - vm_compute. intuition discriminate.
  - vm_compute. intuition discriminate.
  - vm_compute. intuition discriminate.
Defined.

(** ** The pipelines and the conversation history *)

Section Keeps.
Variable R : world -> world -> Prop.
Hypothesis R_refl : forall w, R w w.
Hypothesis R_trans : forall w1 w2 w3, R w1 w2 -> R w2 w3 -> R w1 w3.

Lemma keeps_ret {A} (a : A) : keeps R (ret a).
Proof. intros w. apply R_refl. Qed.

Lemma keeps_bind {A B} (m : M A) (k : A -> M B) :
  keeps R m -> (forall a, keeps R (k a)) -> keeps R (bind m k).
Proof.
  intros Hm Hk w. rewrite bind_unfold. eapply R_trans; [apply Hm | apply Hk].
Qed.

Lemma keeps_when b (m : M unit) : keeps R m -> keeps R (when b m).
Proof. intros Hm. destruct b; [exact Hm | apply keeps_ret]. Qed.

Lemma keeps_for_each {A} (l : list A) (body : A -> M unit) :
  (forall x, keeps R (body x)) -> keeps R (for_each l body).
Proof.
  intros Hb. induction l as [|x l IH]; simpl; [apply keeps_ret|].
  apply keeps_bind; [apply Hb | intros _; exact IH].
Qed.

Lemma keeps_read_sessions : keeps R read_sessions.
Proof. intros w. apply R_refl. Qed.
End Keeps.

Lemma same_sessions_refl w : same_sessions w w.
Proof. reflexivity. Qed.

Lemma same_sessions_trans w1 w2 w3 :
  same_sessions w1 w2 -> same_sessions w2 w3 -> same_sessions w1 w3.
Proof. unfold same_sessions. congruence. Qed.

Lemma ss_tell e : keeps same_sessions (tell e).
Proof. intros w. reflexivity. Qed.

Lemma ss_now `{S : Services} : keeps same_sessions now.
Proof. intros w. reflexivity. Qed.

Lemma ss_new_uuid `{S : Services} : keeps same_sessions new_uuid.
Proof. intros w. reflexivity. Qed.

(** Steps through a computation that leaves the sessions alone. *)
Ltac ss_step :=
  first
    [ apply (keeps_ret _ same_sessions_refl)
    | apply (keeps_read_sessions _ same_sessions_refl)
    | apply ss_tell
    | apply ss_now
    | apply ss_new_uuid
    | apply (keeps_when _ same_sessions_refl)
    | apply (keeps_for_each _ same_sessions_refl same_sessions_trans); intros
    | apply (keeps_bind _ same_sessions_trans); [|intros]
    | match goal with
      | |- keeps same_sessions (match ?x with _ => _ end) => destruct x
      | |- keeps same_sessions (let '(_, _) := ?x in _) => destruct x
      | |- keeps same_sessions (if ?x then _ else _) => destruct x
      end ].

Lemma append_history_other now sid other r c mgr :
  other <> sid -> get other (append_history now sid r c mgr) = get other mgr.
Proof.
  intros Hne. unfold get, append_history.
  destruct (_sessions mgr !! sid) as [s|]; [|reflexivity].
  apply lookup_persist_store, Hne.
Qed.

Section Commit.
Context `{U : Unicode} `{S : Services}.
Variable self : PipelineOrchestrator.

Lemma ss_cancelled cancel_event t n : keeps same_sessions (cancelled cancel_event t n).
Proof. unfold cancelled. repeat ss_step. Qed.

Lemma ss_try_direct_page_read query :
  keeps same_sessions (_try_direct_page_read self query).
Proof. unfold _try_direct_page_read, _fetch_page. repeat ss_step. Qed.

Lemma ss_build_context query : keeps same_sessions (_build_context self query).
Proof. unfold _build_context, orch_rag_enabled. repeat ss_step. Qed.

Lemma ss_get_history : keeps same_sessions (_get_history self).
Proof. unfold _get_history. repeat ss_step. Qed.

Lemma ss_speak audio_chunk_callback sentence chunk_index :
  keeps same_sessions (speak audio_chunk_callback sentence chunk_index).
Proof. unfold speak. repeat ss_step. Qed.

Lemma ss_speak_all audio_chunk_callback sentences : forall chunk_index,
  keeps same_sessions (speak_all audio_chunk_callback sentences chunk_index).
Proof.
  induction sentences as [|s l IH]; intros chunk_index; simpl; [ss_step|].
  apply (keeps_bind _ same_sessions_trans); [apply ss_speak | intros n; apply IH].
Qed.

Lemma ss_speak_words cancel_event audio_chunk_callback words : forall n buf chunk_index,
  keeps same_sessions
    (speak_words cancel_event audio_chunk_callback words n buf chunk_index).
Proof.
  induction words as [|word rest IH]; intros n buf chunk_index; simpl; [ss_step|].
  apply (keeps_bind _ same_sessions_trans); [apply ss_cancelled | intros stop].
  destruct stop; [ss_step|]. destruct (buf_add buf (word ++ py " ")) as [buf1 sentences].
  apply (keeps_bind _ same_sessions_trans); [apply ss_speak_all | intros k; apply IH].
Qed.

Lemma ss_speak_page cancel_event audio_chunk_callback full_response :
  keeps same_sessions (speak_page cancel_event audio_chunk_callback full_response).
Proof.
  unfold speak_page.
  apply (keeps_bind _ same_sessions_trans); [apply ss_speak_words | intros [buf k]].
  repeat ss_step.
Qed.

Lemma ss_produce_sentences cancel_event tokens :
  forall n buf full_response first_token_time,
  keeps same_sessions
    (produce_sentences cancel_event tokens n buf full_response first_token_time).
Proof.
  induction tokens as [|token rest IH]; intros n buf full_response first_token_time;
    cbn [produce_sentences].
  - repeat ss_step.
  - apply (keeps_bind _ same_sessions_trans); [apply ss_cancelled | intros stop].
    destruct stop; [ss_step|].
    apply (keeps_bind _ same_sessions_trans); [repeat ss_step | intros ftt].
    destruct (buf_add buf token) as [buf1 sentences].
    apply (keeps_bind _ same_sessions_trans); [repeat ss_step | intros _].
    apply (keeps_bind _ same_sessions_trans); [apply IH | intros [[q f] t]; ss_step].
Qed.

Lemma ss_consume_sentences cancel_event status_callback audio_chunk_callback queue :
  forall n chunk_index first_chunk_time,
  keeps same_sessions
    (consume_sentences cancel_event status_callback audio_chunk_callback queue n
       chunk_index first_chunk_time).
Proof.
  induction queue as [|item rest IH]; intros n chunk_index first_chunk_time;
    cbn [consume_sentences]; [ss_step|].
  destruct item as [sentence|]; [|ss_step].
  apply (keeps_bind _ same_sessions_trans); [apply ss_cancelled | intros stop].
  destruct stop; [ss_step|].
  apply (keeps_bind _ same_sessions_trans); [repeat ss_step | intros _].
  apply (keeps_bind _ same_sessions_trans); [repeat ss_step | intros _].
  destruct (synthesize sentence); [|apply IH].
  apply (keeps_bind _ same_sessions_trans); [repeat ss_step | intros fct].
  apply (keeps_bind _ same_sessions_trans); [repeat ss_step | intros _]. apply IH.
Qed.

(** What [commit] does to the sessions. *)
Lemma commit_sessions user_text assistant_text w :
  sessions (snd (commit self user_text assistant_text w)) =
    match get (orch_session_id self) (sessions w) with
    | Some _ =>
        append_history (time (Datatypes.S (clock w))) (orch_session_id self)
          (py "assistant") assistant_text
          (append_history (time (clock w)) (orch_session_id self)
             (py "user") user_text (sessions w))
    | None => sessions w
    end.
Proof.
  unfold commit, _append_history, sid. rewrite !bind_unfold.
  cbn [read_sessions fst snd].
  destruct (get (orch_session_id self) (sessions w)) as [s|] eqn:E.
  - rewrite !bind_unfold. cbn [now with_sessions fst snd sessions clock].
    destruct (append_history_updated_at (time (clock w)) (orch_session_id self)
                (py "user") user_text (sessions w) s E) as (s1 & E1 & _).
    rewrite E1. rewrite !bind_unfold. reflexivity.
  - cbn [ret fst snd]. rewrite E. reflexivity.
Qed.

(** The history after [commit]. *)
Lemma commit_history user_text assistant_text w w0 :
  same_sessions w w0 ->
  recorded (orch_session_id self) user_text assistant_text w
    (snd (commit self user_text assistant_text w0)).
Proof.
  intros Hs. unfold recorded. rewrite commit_sessions, Hs. repeat split.
  - intros s E. rewrite E.
    destruct (append_history_updated_at (time (clock w0)) (orch_session_id self)
                (py "user") user_text (sessions w) s E) as (s1 & E1 & H1 & _).
    destruct (append_history_updated_at (time (Datatypes.S (clock w0)))
                (orch_session_id self) (py "assistant") assistant_text _ s1 E1)
      as (s2 & E2 & H2 & _).
    exists s2. split; [exact E2|]. rewrite H2, H1, <- app_assoc. reflexivity.
  - intros E. rewrite E. reflexivity.
  - intros other Hne. destruct (get (orch_session_id self) (sessions w)); [|reflexivity].
    rewrite !append_history_other by exact Hne. reflexivity.
Qed.
End Commit.

Lemma sessions_after {A} (m : M A) w :
  keeps same_sessions m -> sessions (snd (m w)) = sessions w.
Proof. intros H. apply H. Qed.

Section Records.
Context `{U : Unicode} `{S : Services}.
Variable self : PipelineOrchestrator.

Ltac run_binds :=
  repeat first
    [ rewrite bind_unfold
    | progress cbn [ret fst snd text_response]
    | match goal with
      | |- context [fst (_build_context ?o ?q ?w0)] =>
          let a := fresh "context" in let b := fresh "cited" in
          destruct (fst (_build_context o q w0)) as [a b]
      end ].

Ltac ss_known :=
  first
    [ apply ss_now | apply ss_new_uuid | apply ss_tell | apply ss_try_direct_page_read
    | apply ss_build_context | apply ss_get_history | apply ss_speak_page
    | apply ss_produce_sentences | apply ss_consume_sentences
    | apply (keeps_when _ same_sessions_refl); apply ss_tell ].

Ltac ss_world :=
  unfold same_sessions;
  repeat match goal with
         | |- context [sessions (snd (?m ?w))] =>
             rewrite (sessions_after m w) by ss_known
         end;
  try reflexivity.

Lemma process_text_commit_world message w :
  exists w0, same_sessions w w0 /\
    snd (process_text self message w) =
      snd (commit self message (text_response (fst (process_text self message w))) w0).
Proof.
  unfold process_text. rewrite !bind_unfold.
  destruct (fst (_try_direct_page_read self message (snd (now w)))) as [[text cited]|];
    run_binds; (eexists; split; [|reflexivity]); ss_world.
Qed.

Lemma process_text_stream_commit_world message w :
  exists w0, same_sessions w w0 /\
    snd (process_text_stream self message w) =
      snd (commit self message (concat (fst (process_text_stream self message w))) w0).
Proof.
  unfold process_text_stream. rewrite bind_unfold.
  destruct (fst (_try_direct_page_read self message w)) as [[text cited]|];
    run_binds; cbn [concat]; rewrite ?app_nil_r;
    (eexists; split; [|reflexivity]); ss_world.
Qed.

(** [process_text] and [process_text_stream] end by recording the exchange:
    the history of the session grows by the user turn with the message and
    the assistant turn with the answer returned, or with the fragments
    yielded put together; the other sessions stay as they were; and when
    the session does not exist, the answer is given and nothing is
    recorded. *)
Theorem text_pipelines_record_exchange (message : str) (w : world) :
  recorded (orch_session_id self) message
    (text_response (fst (process_text self message w))) w
    (snd (process_text self message w)) /\
  recorded (orch_session_id self) message
    (concat (fst (process_text_stream self message w))) w
    (snd (process_text_stream self message w)).
Proof.
  split.
  - destruct (process_text_commit_world message w) as (w0 & Hs & ->).
    apply (commit_history self message _ w w0 Hs).
  - destruct (process_text_stream_commit_world message w) as (w0 & Hs & ->).
    apply (commit_history self message _ w w0 Hs).
Qed.

Lemma process_voice_records audio status_callback w :
  match fst (process_voice self audio status_callback w) with
  | Return r =>
      if nonempty (strip (fst (transcribe_bytes audio))) then
        transcript r = fst (transcribe_bytes audio) /\
        recorded (orch_session_id self) (transcript r) (response_text r) w
          (snd (process_voice self audio status_callback w))
      else sessions (snd (process_voice self audio status_callback w)) = sessions w
  | Raise => sessions (snd (process_voice self audio status_callback w)) = sessions w
  | Block => False
  end.
Proof.
  unfold process_voice. rewrite !bind_unfold.
  destruct (transcribe_bytes audio) as [heard duration]. cbn [fst].
  rewrite !bind_unfold.
  destruct (nonempty (strip heard)); cbn [negb]; [|cbn [ret fst snd]; ss_world].
  rewrite !bind_unfold.
  match goal with |- context [fst (_try_direct_page_read self heard ?w0)] =>
    destruct (fst (_try_direct_page_read self heard w0)) as [[text cited]|] end;
    run_binds;
    match goal with |- context [synthesize ?t] => destruct (synthesize t) end;
    run_binds; try ss_world;
    (split; [reflexivity|]); cbn [transcript response_text];
    apply commit_history; ss_world.
Qed.

Lemma process_voice_stream_records audio status_callback audio_chunk_callback
    transcript_callback cancel_event w :
  let run := process_voice_stream self audio status_callback audio_chunk_callback
               transcript_callback cancel_event w in
  match fst run with
  | Return r =>
      if nonempty (strip (fst (transcribe_bytes audio))) then
        stream_transcript r = fst (transcribe_bytes audio) /\
        recorded (orch_session_id self) (stream_transcript r) (stream_response_text r) w
          (snd run)
      else sessions (snd run) = sessions w
  | Raise => False
  | Block => sessions (snd run) = sessions w
  end.
Proof.
  cbv zeta. unfold process_voice_stream. rewrite !bind_unfold.
  destruct (transcribe_bytes audio) as [transcript duration]. cbn [fst].
  rewrite !bind_unfold.
  destruct (nonempty (strip transcript)); cbn [negb]; [|cbn [ret fst snd]; ss_world].
  rewrite !bind_unfold.
  match goal with |- context [fst (_try_direct_page_read self transcript ?w0)] =>
    destruct (fst (_try_direct_page_read self transcript w0)) as [[text cited]|] end.
  - run_binds. (split; [reflexivity|]).
    cbn [stream_transcript stream_response_text]. apply commit_history. ss_world.
  - run_binds.
    match goal with |- context [fst (produce_sentences ?c ?t ?n ?b ?f ?x ?w0)] =>
      destruct (fst (produce_sentences c t n b f x w0)) as [[queue full_response] ftt] end.
    run_binds.
    match goal with |- context [fst (consume_sentences ?c ?s ?a ?q ?n ?k ?x ?w0)] =>
      destruct (fst (consume_sentences c s a q n k x w0)) as [[k' fct] ended] end.
    destruct ended; run_binds; [|ss_world].
    (split; [reflexivity|]).
    cbn [stream_transcript stream_response_text]. apply commit_history. ss_world.
Qed.

(** The voice pipelines record the exchange at their very end.  A call
    that returns after a transcript that is not blank has added the user
    turn with the transcript and the assistant turn with the answer to the
    history of the session; a call of [process_voice] that fails in the
    synthesis, and a call of [process_voice_stream] that never returns,
    leave every session as it was. *)
Theorem voice_pipelines_record_exchange (audio : bytes)
    (status_callback audio_chunk_callback transcript_callback : bool)
    (cancel_event : cancel_flag) (w : world) :
  nonempty (strip (fst (transcribe_bytes audio))) = true ->
  let voice := process_voice self audio status_callback w in
  let stream := process_voice_stream self audio status_callback audio_chunk_callback
                  transcript_callback cancel_event w in
  match fst voice with
  | Return r =>
      transcript r = fst (transcribe_bytes audio) /\
      recorded (orch_session_id self) (transcript r) (response_text r) w (snd voice)
  | Raise => sessions (snd voice) = sessions w
  | Block => False
  end /\
  match fst stream with
  | Return r =>
      stream_transcript r = fst (transcribe_bytes audio) /\
      recorded (orch_session_id self) (stream_transcript r) (stream_response_text r) w
        (snd stream)
  | Raise => False
  | Block => sessions (snd stream) = sessions w
  end.
Proof.
  intros Hne. cbv zeta. split.
  - pose proof (process_voice_records audio status_callback w) as H.
    rewrite Hne in H. exact H.
  - pose proof (process_voice_stream_records audio status_callback audio_chunk_callback
                  transcript_callback cancel_event w) as H.
    cbv zeta in H. rewrite Hne in H. exact H.
Qed.
End Records.

Lemma voice_pipelines_record_exchange_witness :
  let self := new_orchestrator (py "s1") in
  let w := start_world true in
  let voice := process_voice (U := ascii_db) (S := one_page_services (py "a.pdf"))
                 self [] true w in
  let stream := process_voice_stream (U := ascii_db) (S := one_page_services (py "a.pdf"))
                  self [] true true true None w in
  match fst voice with
  | Return r =>
      transcript r = py "read page 1" /\
      recorded (orch_session_id self) (transcript r) (response_text r) w (snd voice)
  | Raise => sessions (snd voice) = sessions w
  | Block => False
  end /\
  match fst stream with
  | Return r =>
      stream_transcript r = py "read page 1" /\
      recorded (orch_session_id self) (stream_transcript r) (stream_response_text r) w
        (snd stream)
  | Raise => False
  | Block => sessions (snd stream) = sessions w
  end.
Proof.
  apply (voice_pipelines_record_exchange (U := ascii_db)
           (S := one_page_services (py "a.pdf")) (new_orchestrator (py "s1"))
           [] true true true None (start_world true)).
  vm_compute. reflexivity.
Defined.

(** ** The two tasks of the streaming pipeline *)

Section Tasks.
Context `{U : Unicode} `{S : Services}.

(** A producer that never reads the flag set puts the end marker on the
    queue. *)
Lemma produce_sentences_sentinel cancel_event tokens :
  producer_clear cancel_event ->
  forall n buf full_response first_token_time w,
    In None (fst (fst (fst (produce_sentences cancel_event tokens n buf full_response
                              first_token_time w)))).
Proof.
  intros Hclear. induction tokens as [|token rest IH];
    intros n buf full_response first_token_time w; cbn [produce_sentences].
  - rewrite bind_unfold. cbn [ret fst].
    destruct (snd (flush buf)); simpl; tauto.
  - rewrite bind_unfold.
    assert (Hstop : fst (cancelled cancel_event Producer n w) = false).
    { unfold cancelled. destruct cancel_event as [is_set|]; [|reflexivity].
      rewrite bind_unfold. cbn [ret fst]. apply Hclear. }
    rewrite Hstop. rewrite bind_unfold.
    destruct (buf_add buf token) as [buf1 sentences]. rewrite !bind_unfold.
    match goal with |- context [produce_sentences ?c rest ?n' ?b ?f ?t ?w0] =>
      pose proof (IH n' b f t w0) as Hin;
      destruct (produce_sentences c rest n' b f t w0) as [[[queue f'] t'] w1] end.
    cbn [fst snd ret] in *. apply in_or_app. right. exact Hin.
Qed.

(** A consumer whose queue holds the end marker ends. *)
Lemma consume_sentences_ends cancel_event status_callback audio_chunk_callback queue :
  In None queue ->
  forall n chunk_index first_chunk_time w,
    snd (fst (consume_sentences cancel_event status_callback audio_chunk_callback queue
                n chunk_index first_chunk_time w)) = true.
Proof.
  induction queue as [|item rest IH]; intros Hin n chunk_index first_chunk_time w;
    [destruct Hin|].
  cbn [consume_sentences]. destruct item as [sentence|]; [|reflexivity].
  destruct Hin as [Hin|Hin]; [discriminate|].
  rewrite bind_unfold. destruct (fst (cancelled cancel_event Consumer n w)); [reflexivity|].
  rewrite !bind_unfold. destruct (synthesize sentence); [|apply IH, Hin].
  rewrite !bind_unfold. apply IH, Hin.
Qed.
End Tasks.

(** Runs a computation through its [bind]s. *)
Ltac run_binds :=
  repeat first [ rewrite bind_unfold | progress cbn [ret fst snd] ].

Section StreamEnds.
Context `{U : Unicode} `{S : Services}.
Variable self : PipelineOrchestrator.

(** As long as the producer does not read the cancellation flag set, and
    so whenever there is no flag, [process_voice_stream] returns: the
    producer puts the end marker on the queue and the consumer ends at it,
    or earlier when it reads the flag set itself. *)
Theorem process_voice_stream_returns (audio : bytes)
    (status_callback audio_chunk_callback transcript_callback : bool)
    (cancel_event : cancel_flag) (w : world) :
  producer_clear cancel_event ->
  exists r,
    fst (process_voice_stream self audio status_callback audio_chunk_callback
           transcript_callback cancel_event w) = Return r.
Proof.
  intros Hclear. unfold process_voice_stream. rewrite !bind_unfold.
  destruct (transcribe_bytes audio) as [transcript duration]. rewrite !bind_unfold.
  destruct (nonempty (strip transcript)); cbn [negb]; [|eexists; reflexivity].
  rewrite !bind_unfold.
  match goal with |- context [fst (_try_direct_page_read self transcript ?w0)] =>
    destruct (fst (_try_direct_page_read self transcript w0)) as [[text cited]|] end.
  - run_binds. eexists. reflexivity.
  - run_binds.
    match goal with |- context [fst (_build_context ?o ?q ?w0)] =>
      destruct (fst (_build_context o q w0)) as [context cited] end.
    run_binds.
    match goal with |- context [fst (produce_sentences ?c ?t ?n ?b ?f ?x ?w0)] =>
      pose proof (produce_sentences_sentinel c t Hclear n b f x w0) as Hin;
      destruct (fst (produce_sentences c t n b f x w0)) as [[queue full_response] ftt] end.
    cbn [fst] in Hin. run_binds.
    match goal with |- context [fst (consume_sentences ?c ?s ?a ?q ?n ?k ?x ?w0)] =>
      pose proof (consume_sentences_ends c s a q Hin n k x w0) as Hend;
      destruct (fst (consume_sentences c s a q n k x w0)) as [[k' fct] ended] end.
    cbn [snd] in Hend. subst ended. run_binds. eexists. reflexivity.
Qed.

(** When the flag is already set as the first fragment of the answer
    arrives, [process_voice_stream] never returns: the producer ends without
    the end marker, the consumer waits on the empty queue, and the exchange
    is not recorded. *)
Theorem process_voice_stream_hangs (audio : bytes)
    (status_callback audio_chunk_callback transcript_callback : bool)
    (is_set : task -> nat -> bool) (w : world) :
  nonempty (strip (fst (transcribe_bytes audio))) = true ->
  direct_answer self (fst (transcribe_bytes audio)) = None ->
  (forall context history,
     stream_tokens (fst (transcribe_bytes audio)) context history <> []) ->
  is_set Producer 0 = true ->
  let run := process_voice_stream self audio status_callback audio_chunk_callback
               transcript_callback (Some is_set) w in
  fst run = Block /\ sessions (snd run) = sessions w.
Proof.
  intros Hne Hdirect Htokens Hset. cbv zeta.
  assert (Hblock : fst (process_voice_stream self audio status_callback
                          audio_chunk_callback transcript_callback (Some is_set) w) = Block).
  { unfold process_voice_stream. rewrite !bind_unfold.
    destruct (transcribe_bytes audio) as [transcript duration]. cbn [fst] in *.
    rewrite !bind_unfold, Hne. cbn [negb]. rewrite !bind_unfold.
    rewrite try_direct_page_read_answer, Hdirect. run_binds.
    match goal with |- context [fst (_build_context ?o ?q ?w0)] =>
      destruct (fst (_build_context o q w0)) as [context cited] end.
    run_binds.
    match goal with |- context [stream_tokens transcript ?c ?h] =>
      pose proof (Htokens c h) as Hnil;
      destruct (stream_tokens transcript c h) as [|token rest] end; [congruence|].
    rewrite produce_sentences_stops by exact Hset. reflexivity. }
  split; [exact Hblock|].
  pose proof (process_voice_stream_records self audio status_callback
                audio_chunk_callback transcript_callback (Some is_set) w) as H.
  cbv zeta in H. rewrite Hblock in H. exact H.
Qed.
End StreamEnds.

Lemma process_voice_stream_returns_witness :
  exists r,
    fst (process_voice_stream (U := ascii_db) (S := chat_services)
           (new_orchestrator (py "s1")) [] true true true None (start_world true)) =
      Return r.
Proof.
  apply (process_voice_stream_returns (U := ascii_db) (S := chat_services)
           (new_orchestrator (py "s1")) [] true true true None (start_world true)).
  exact I.
Defined.

Lemma process_voice_stream_hangs_witness :
  let run := process_voice_stream (U := ascii_db) (S := chat_services)
               (new_orchestrator (py "s1")) [] true true true set_from_start
               (start_world true) in
  fst run = Block /\ sessions (snd run) = sessions (start_world true).
Proof.
  apply (process_voice_stream_hangs (U := ascii_db) (S := chat_services)
           (new_orchestrator (py "s1")) [] true true true (fun _ _ => true)
           (start_world true)).
  - vm_compute. reflexivity.
  - vm_compute. reflexivity.
  - intros context history. simpl. discriminate.
  - reflexivity.
Defined.

(** ** The indices of the audio chunks *)

Lemma same_chunks_refl w : same_chunks w w.
Proof. reflexivity. Qed.

Lemma same_chunks_trans w1 w2 w3 :
  same_chunks w1 w2 -> same_chunks w2 w3 -> same_chunks w1 w3.
Proof. unfold same_chunks. congruence. Qed.

Lemma chunk_indices_app a b : chunk_indices (a ++ b) = chunk_indices a ++ chunk_indices b.
Proof. apply flat_map_app. Qed.

Lemma sc_tell e : chunk_indices [e] = [] -> keeps same_chunks (tell e).
Proof.
  intros He w. unfold same_chunks, tell. cbn [snd trace].
  rewrite chunk_indices_app, He. apply app_nil_r.
Qed.

Lemma sc_now `{S : Services} : keeps same_chunks now.
Proof. intros w. reflexivity. Qed.

Lemma sc_new_uuid `{S : Services} : keeps same_chunks new_uuid.
Proof. intros w. reflexivity. Qed.

Lemma sc_with_sessions f : keeps same_chunks (with_sessions f).
Proof. intros w. reflexivity. Qed.

(** Steps through a computation that hands over no audio chunk. *)
Ltac sc_step :=
  first
    [ apply (keeps_ret _ same_chunks_refl)
    | apply (keeps_read_sessions _ same_chunks_refl)
    | apply sc_tell; reflexivity
    | apply sc_now
    | apply sc_new_uuid
    | apply sc_with_sessions
    | apply (keeps_when _ same_chunks_refl)
    | apply (keeps_for_each _ same_chunks_refl same_chunks_trans); intros
    | apply (keeps_bind _ same_chunks_trans); [|intros]
    | match goal with
      | |- keeps same_chunks (match ?x with _ => _ end) => destruct x
      | |- keeps same_chunks (let '(_, _) := ?x in _) => destruct x
      | |- keeps same_chunks (if ?x then _ else _) => destruct x
      end ].

Lemma chunks_after {A} (m : M A) w :
  keeps same_chunks m -> chunk_indices (trace (snd (m w))) = chunk_indices (trace w).
Proof. intros H. apply H. Qed.

Lemma chunks_from_quiet k w w' : same_chunks w w' -> chunks_from k k w w'.
Proof.
  intros H. split; [lia|]. exists []. rewrite app_nil_r, Nat.sub_diag.
  split; [exact H | constructor].
Qed.

Lemma chunks_from_trans a b c w1 w2 w3 :
  chunks_from a b w1 w2 -> chunks_from b c w2 w3 -> chunks_from a c w1 w3.
Proof.
  intros (Hab & l1 & H1 & S1) (Hbc & l2 & H2 & S2). split; [lia|].
  exists (l1 ++ l2). split; [rewrite H2, H1, app_assoc; reflexivity|].
  replace (c - a) with ((b - a) + (c - b)) by lia.
  rewrite seq_app. replace (a + (b - a)) with b by lia.
  apply sublist_app; assumption.
Qed.

Lemma chunks_from_quiet_l a b w1 w2 w3 :
  same_chunks w1 w2 -> chunks_from a b w2 w3 -> chunks_from a b w1 w3.
Proof.
  intros H (Hab & l & Hl & Hs). split; [exact Hab|]. exists l.
  split; [rewrite Hl, H; reflexivity | exact Hs].
Qed.

Lemma chunks_from_quiet_r a b w1 w2 w3 :
  chunks_from a b w1 w2 -> same_chunks w2 w3 -> chunks_from a b w1 w3.
Proof.
  intros (Hab & l & Hl & Hs) H. split; [exact Hab|]. exists l.
  split; [rewrite H, Hl; reflexivity | exact Hs].
Qed.

Lemma chunks_from_skip a b w w' : chunks_from (S a) b w w' -> chunks_from a b w w'.
Proof.
  intros (Hab & l & Hl & Hs). split; [lia|]. exists l. split; [exact Hl|].
  replace (b - a) with (S (b - S a)) by lia. cbn [seq].
  apply sublist_cons. exact Hs.
Qed.

(** Steps over the first computation of a [bind] when it hands over no
    audio chunk. *)
Ltac quiet_bind :=
  match goal with
  | |- chunks_from _ _ ?w0 (snd (bind ?m ?k ?w0)) =>
      rewrite (bind_unfold m k w0);
      apply (chunks_from_quiet_l _ _ w0 (snd (m w0)));
      [apply (chunks_after m w0); solve [repeat sc_step]|]
  end.

Section ChunkIndices.
Context `{U : Unicode} `{S : Services}.
Variable self : PipelineOrchestrator.

Lemma sc_cancelled cancel_event t n : keeps same_chunks (cancelled cancel_event t n).
Proof. unfold cancelled. repeat sc_step. Qed.

Lemma sc_try_direct_page_read query :
  keeps same_chunks (_try_direct_page_read self query).
Proof. unfold _try_direct_page_read, _fetch_page. repeat sc_step. Qed.

Lemma sc_build_context query : keeps same_chunks (_build_context self query).
Proof. unfold _build_context, orch_rag_enabled. repeat sc_step. Qed.

Lemma sc_get_history : keeps same_chunks (_get_history self).
Proof. unfold _get_history. repeat sc_step. Qed.

Lemma sc_commit user_text assistant_text :
  keeps same_chunks (commit self user_text assistant_text).
Proof. unfold commit, _append_history. repeat sc_step. Qed.

Lemma sc_produce_sentences cancel_event tokens :
  forall n buf full_response first_token_time,
  keeps same_chunks
    (produce_sentences cancel_event tokens n buf full_response first_token_time).
Proof.
  induction tokens as [|token rest IH]; intros n buf full_response first_token_time;
    cbn [produce_sentences].
  - repeat sc_step.
  - apply (keeps_bind _ same_chunks_trans); [apply sc_cancelled | intros stop].
    destruct stop; [sc_step|].
    apply (keeps_bind _ same_chunks_trans); [repeat sc_step | intros ftt].
    destruct (buf_add buf token) as [buf1 sentences].
    apply (keeps_bind _ same_chunks_trans); [repeat sc_step | intros _].
    apply (keeps_bind _ same_chunks_trans); [apply IH | intros [[q f] t]; sc_step].
Qed.

(** One synthesis: the chunk, if any, carries the index [chunk_index]. *)
Lemma speak_chunks audio_chunk_callback sentence chunk_index w :
  fst (speak audio_chunk_callback sentence chunk_index w) = Datatypes.S chunk_index /\
  chunks_from chunk_index (Datatypes.S chunk_index) w
    (snd (speak audio_chunk_callback sentence chunk_index w)).
Proof.
  unfold speak. rewrite bind_unfold.
  destruct (synthesize sentence) as [wav|]; run_binds.
  - split; [reflexivity|]. split; [lia|].
    destruct audio_chunk_callback; cbn [when tell ret snd trace].
    + exists [chunk_index]. rewrite !chunk_indices_app. cbn [chunk_indices flat_map app].
      rewrite app_nil_r. split; [reflexivity|].
      replace (Datatypes.S chunk_index - chunk_index) with 1 by lia. reflexivity.
    + exists []. rewrite chunk_indices_app. cbn [chunk_indices flat_map app].
      split; [reflexivity | apply sublist_nil_l].
  - split; [reflexivity|]. split; [lia|]. exists [].
    cbn [tell snd trace]. rewrite chunk_indices_app. cbn [chunk_indices flat_map app].
    split; [reflexivity | apply sublist_nil_l].
Qed.

Lemma speak_all_chunks audio_chunk_callback sentences : forall chunk_index w,
  chunks_from chunk_index (fst (speak_all audio_chunk_callback sentences chunk_index w)) w
    (snd (speak_all audio_chunk_callback sentences chunk_index w)).
Proof.
  induction sentences as [|s l IH]; intros chunk_index w; cbn [speak_all].
  - apply chunks_from_quiet. reflexivity.
  - rewrite bind_unfold.
    destruct (speak_chunks audio_chunk_callback s chunk_index w) as [-> H].
    eapply chunks_from_trans; [exact H | apply IH].
Qed.

Lemma speak_words_chunks cancel_event audio_chunk_callback words :
  forall n buf chunk_index w,
  chunks_from chunk_index
    (snd (fst (speak_words cancel_event audio_chunk_callback words n buf chunk_index w))) w
    (snd (speak_words cancel_event audio_chunk_callback words n buf chunk_index w)).
Proof.
  induction words as [|word rest IH]; intros n buf chunk_index w; cbn [speak_words].
  - apply chunks_from_quiet. reflexivity.
  - rewrite bind_unfold.
    pose proof (sc_cancelled cancel_event MainTask n w) as Hc.
    destruct (fst (cancelled cancel_event MainTask n w)).
    + apply chunks_from_quiet. exact Hc.
    + destruct (buf_add buf (word ++ py " ")) as [buf1 sentences].
      rewrite bind_unfold.
      eapply chunks_from_quiet_l; [exact Hc|].
      eapply chunks_from_trans; [apply speak_all_chunks | apply IH].
Qed.

Lemma speak_page_chunks cancel_event audio_chunk_callback full_response w :
  chunks_from 0 (fst (speak_page cancel_event audio_chunk_callback full_response w)) w
    (snd (speak_page cancel_event audio_chunk_callback full_response w)).
Proof.
  unfold speak_page. rewrite bind_unfold.
  pose proof (speak_words_chunks cancel_event audio_chunk_callback
                (split_ws full_response) 0 new_buffer 0 w) as Hw.
  destruct (speak_words _ _ _ _ _ _ w) as [[buf k] w1]. cbn [fst snd] in *.
  destruct (snd (flush buf)) as [remaining|]; [|exact Hw].
  rewrite bind_unfold. destruct (synthesize remaining) as [wav|]; run_binds.
  - eapply chunks_from_trans; [exact Hw|]. split; [lia|].
    destruct audio_chunk_callback; cbn [when tell ret snd trace].
    + exists [k]. rewrite !chunk_indices_app. cbn [chunk_indices flat_map app].
      rewrite app_nil_r. split; [reflexivity|].
      replace (Datatypes.S k - k) with 1 by lia. reflexivity.
    + exists []. rewrite chunk_indices_app. cbn [chunk_indices flat_map app].
      split; [reflexivity | apply sublist_nil_l].
  - eapply chunks_from_quiet_r; [exact Hw|]. apply sc_tell. reflexivity.
Qed.

Lemma consume_sentences_chunks cancel_event status_callback audio_chunk_callback queue :
  forall n chunk_index first_chunk_time w,
  let run := consume_sentences cancel_event status_callback audio_chunk_callback queue n
               chunk_index first_chunk_time w in
  chunks_from chunk_index (fst (fst (fst run))) w (snd run).
Proof.
  induction queue as [|item rest IH]; intros n chunk_index first_chunk_time w;
    cbv zeta; cbn [consume_sentences]; [apply chunks_from_quiet; reflexivity|].
  destruct item as [sentence|]; [|apply chunks_from_quiet; reflexivity].
  rewrite bind_unfold.
  pose proof (sc_cancelled cancel_event Consumer n w) as Hc.
  destruct (fst (cancelled cancel_event Consumer n w)).
  { apply chunks_from_quiet. exact Hc. }
  eapply chunks_from_quiet_l; [exact Hc|].
  quiet_bind. quiet_bind.
  destruct (synthesize sentence) as [wav|].
  - quiet_bind. rewrite bind_unfold.
    eapply chunks_from_trans; [|apply IH]. split; [lia|].
    destruct audio_chunk_callback; cbn [when tell ret snd trace].
    + exists [chunk_index]. rewrite !chunk_indices_app. cbn [chunk_indices flat_map app].
      rewrite ?app_nil_r. split; [reflexivity|].
      replace (Datatypes.S chunk_index - chunk_index) with 1 by lia. reflexivity.
    + exists []. rewrite app_nil_r. split; [reflexivity | apply sublist_nil_l].
  - apply chunks_from_skip. apply IH.
Qed.
End ChunkIndices.

Section StreamChunks.
Context `{U : Unicode} `{S : Services}.
Variable self : PipelineOrchestrator.

Ltac sc_known :=
  first
    [ apply sc_now | apply sc_new_uuid | apply sc_try_direct_page_read
    | apply sc_build_context | apply sc_get_history | apply sc_commit
    | apply sc_produce_sentences
    | apply sc_tell; reflexivity
    | apply (keeps_when _ same_chunks_refl); apply sc_tell; reflexivity ].

Ltac sc_world :=
  unfold same_chunks;
  repeat match goal with
         | |- context [chunk_indices (trace (snd (?m ?w)))] =>
             rewrite (chunks_after m w) by sc_known
         end;
  try reflexivity.

Ltac quiet_end :=
  repeat match goal with
         | |- chunks_from _ _ _ (snd (?m ?w0)) =>
             apply (chunks_from_quiet_r _ _ _ w0 (snd (m w0)));
             [|apply (chunks_after m w0); sc_known]
         end.

Lemma chunk_indices_of_run audio status_callback audio_chunk_callback
    transcript_callback cancel_event w :
  nonempty (strip (fst (transcribe_bytes audio))) = true ->
  match fst (process_voice_stream self audio status_callback audio_chunk_callback
               transcript_callback cancel_event w) with
  | Return r =>
      exists n, stream_timings r !! "tts_chunks"%string = Some (Z.of_nat n) /\
        chunks_from 0 n w
          (snd (process_voice_stream self audio status_callback audio_chunk_callback
                  transcript_callback cancel_event w))
  | _ => True
  end.
Proof.
  intros Hne. unfold process_voice_stream. rewrite !bind_unfold.
  destruct (transcribe_bytes audio) as [transcript duration]. cbn [fst] in Hne.
  rewrite !bind_unfold, Hne. cbn [negb]. rewrite !bind_unfold.
  match goal with |- context [fst (_try_direct_page_read self transcript ?w0)] =>
    destruct (fst (_try_direct_page_read self transcript w0)) as [[text cited]|] end.
  - run_binds. cbn [stream_timings].
    eexists. split; [apply lookup_insert_eq|].
    quiet_end.
    eapply chunks_from_quiet_l; [|apply speak_page_chunks]. sc_world.
  - run_binds.
    match goal with |- context [fst (_build_context ?o ?q ?w0)] =>
      destruct (fst (_build_context o q w0)) as [context cited] end.
    run_binds.
    match goal with |- context [fst (produce_sentences ?c ?t ?n ?b ?f ?x ?w0)] =>
      destruct (fst (produce_sentences c t n b f x w0)) as [[queue full_response] ftt] end.
    run_binds.
    match goal with |- context [consume_sentences ?c ?s ?a ?q ?n ?k ?x ?w0] =>
      pose proof (consume_sentences_chunks c s a q n k x w0) as Hc;
      destruct (consume_sentences c s a q n k x w0) as [[[k' fct] ended] w1] end.
    cbv zeta in Hc. cbn [fst snd] in Hc. cbn [fst snd].
    destruct ended; run_binds; [|exact I]. cbn [stream_timings].
    eexists. split; [apply lookup_insert_eq|].
    quiet_end.
    eapply chunks_from_quiet_l; [|exact Hc]. sc_world.
Qed.

(** The audio chunks that [process_voice_stream] hands to
    [audio_chunk_callback] carry some of the indices 0, ..., [tts_chunks] - 1
    of the result, each at most once and in increasing order. *)
Theorem stream_chunk_indices (audio : bytes)
    (status_callback audio_chunk_callback transcript_callback : bool)
    (cancel_event : cancel_flag) (w : world) (r : stream_result) :
  let run := process_voice_stream self audio status_callback audio_chunk_callback
               transcript_callback cancel_event w in
  nonempty (strip (fst (transcribe_bytes audio))) = true ->
  fst run = Return r ->
  exists n l,
    stream_timings r !! "tts_chunks"%string = Some (Z.of_nat n) /\
    chunk_indices (trace (snd run)) = chunk_indices (trace w) ++ l /\
    sublist l (seq 0 n).
Proof.
  cbv zeta. intros Hne Hr.
  pose proof (chunk_indices_of_run audio status_callback audio_chunk_callback
                transcript_callback cancel_event w Hne) as H.
  rewrite Hr in H. destruct H as (n & Ht & _ & l & Hl & Hs).
  exists n, l. rewrite Nat.sub_0_r in Hs. auto.
Qed.
End StreamChunks.

Lemma stream_chunk_indices_witness :
  let run := process_voice_stream (U := ascii_db) (S := chat_services)
               (new_orchestrator (py "s1")) [] true true true None (start_world true) in
  exists r n l,
    fst run = Return r /\
    stream_timings r !! "tts_chunks"%string = Some (Z.of_nat n) /\
    chunk_indices (trace (snd run)) = chunk_indices (trace (start_world true)) ++ l /\
    sublist l (seq 0 n).
Proof.
  cbv zeta. evar (r : stream_result).
  assert (Hr : fst (process_voice_stream (U := ascii_db) (S := chat_services)
                      (new_orchestrator (py "s1")) [] true true true None
                      (start_world true)) = Return r)
    by (subst r; vm_compute; reflexivity).
  destruct (stream_chunk_indices (U := ascii_db) (S := chat_services)
              (new_orchestrator (py "s1")) [] true true true None (start_world true) r
              eq_refl Hr) as (n & l & Ht & Hl & Hs).
  exists r, n, l. auto.
Defined.

(** ** Retrieval switched off *)

Lemma same_retrievals_refl w : same_retrievals w w.
Proof. reflexivity. Qed.

Lemma same_retrievals_trans w1 w2 w3 :
  same_retrievals w1 w2 -> same_retrievals w2 w3 -> same_retrievals w1 w3.
Proof. unfold same_retrievals. congruence. Qed.

Lemma sr_tell e : is_retrieval e = false -> keeps same_retrievals (tell e).
Proof.
  intros He w. unfold same_retrievals, tell. cbn [snd trace].
  rewrite List.filter_app. simpl. rewrite He. apply app_nil_r.
Qed.

Lemma sr_now `{S : Services} : keeps same_retrievals now.
Proof. intros w. reflexivity. Qed.

Lemma sr_with_sessions f : keeps same_retrievals (with_sessions f).
Proof. intros w. reflexivity. Qed.

(** Steps through a computation that makes no retrieval. *)
Ltac sr_step :=
  first
    [ apply (keeps_ret _ same_retrievals_refl)
    | apply (keeps_read_sessions _ same_retrievals_refl)
    | apply sr_tell; reflexivity
    | apply sr_now
    | apply sr_with_sessions
    | apply (keeps_when _ same_retrievals_refl)
    | apply (keeps_bind _ same_retrievals_trans); [|intros]
    | match goal with
      | |- keeps same_retrievals (match ?x with _ => _ end) => destruct x
      | |- keeps same_retrievals (let '(_, _) := ?x in _) => destruct x
      end ].

Lemma retrievals_after {A} (m : M A) w :
  keeps same_retrievals m ->
  List.filter is_retrieval (trace (snd (m w))) = List.filter is_retrieval (trace w).
Proof. intros H. apply H. Qed.

Section Disabled.
Context `{U : Unicode} `{S : Services}.
Variable self : PipelineOrchestrator.

Lemma sr_try_direct_page_read query :
  keeps same_retrievals (_try_direct_page_read self query).
Proof. unfold _try_direct_page_read, _fetch_page. repeat sr_step. Qed.

Lemma sr_get_history : keeps same_retrievals (_get_history self).
Proof. unfold _get_history. repeat sr_step. Qed.

Lemma sr_commit user_text assistant_text :
  keeps same_retrievals (commit self user_text assistant_text).
Proof. unfold commit, _append_history. repeat sr_step. Qed.

(** [_build_context] for a session with retrieval switched off. *)
Lemma build_context_disabled query w s :
  get (orch_session_id self) (sessions w) = Some s -> rag_enabled s = false ->
  _build_context self query w = (([], []), w).
Proof.
  intros Hs He. unfold _build_context, orch_rag_enabled, sid.
  rewrite !bind_unfold. cbn [read_sessions ret fst snd]. rewrite Hs, He. reflexivity.
Qed.

Ltac sr_known :=
  first
    [ apply sr_now | apply sr_try_direct_page_read | apply sr_get_history
    | apply sr_commit | apply sr_tell; reflexivity ].

(** With retrieval switched off for the session, [process_text] on a
    message that is not answered by a page read makes no retrieval, hands
    the language model the message with an empty context and the recent
    history, and returns its answer without sources. *)
Theorem process_text_without_retrieval (message : str) (w : world) (s : SessionData) :
  get (orch_session_id self) (sessions w) = Some s ->
  rag_enabled s = false ->
  direct_answer self message = None ->
  let run := process_text self message w in
  let history := last_entries (max_history self * 2) (conversation_history s) in
  text_response (fst run) = generate message [] history /\
  text_sources (fst run) = [] /\
  List.filter is_retrieval (trace (snd run)) = List.filter is_retrieval (trace w).
Proof.
  intros Hs He Hdirect. cbv zeta.
  unfold process_text. rewrite !bind_unfold.
  rewrite try_direct_page_read_answer, Hdirect.
  assert (Hctx : forall w0, sessions w0 = sessions w ->
            _build_context self message w0 = (([], []), w0)).
  { intros w0 Hw0. apply (build_context_disabled message w0 s); [|exact He].
    rewrite Hw0. exact Hs. }
  rewrite !bind_unfold.
  rewrite Hctx by (apply (ss_try_direct_page_read self message (snd (now w)))).
  run_binds. cbn [text_response text_sources].
  repeat split.
  - f_equal. unfold _get_history, sid. run_binds. cbn [read_sessions fst].
    unfold get_history. unfold get in Hs.
    cbn [now snd sessions].
    rewrite (ss_try_direct_page_read self message (snd (now w))).
    cbn [now snd sessions]. rewrite Hs. reflexivity.
  - repeat match goal with
           | |- context [List.filter is_retrieval (trace (snd (?m ?w0)))] =>
               rewrite (retrievals_after m w0) by sr_known
           end.
    reflexivity.
Qed.
End Disabled.

Lemma process_text_without_retrieval_witness :
  let run := process_text (U := ascii_db) (S := chat_services)
               (new_orchestrator (py "s1")) (py "hello") (start_world false) in
  text_response (fst run) = py "Hi there." /\
  text_sources (fst run) = [] /\
  List.filter is_retrieval (trace (snd run)) = [].
Proof.
  apply (process_text_without_retrieval (U := ascii_db) (S := chat_services)
           (new_orchestrator (py "s1")) (py "hello") (start_world false)
           (set_flag false one_session)).
  - unfold get, start_world, set_rag_enabled, one_session_manager.
    cbn [sessions _sessions orch_session_id new_orchestrator].
    rewrite lookup_singleton_eq. apply get_persist_store.
  - reflexivity.
  - vm_compute. reflexivity.
Defined.

(** ** [_chunk_text] *)

Lemma py_slice_window (s : str) (start size : Z) :
  (0 <= start)%Z -> (0 < size)%Z ->
  py_slice s start (start + size) = take (Z.to_nat size) (drop (Z.to_nat start) s).
Proof.
  intros Hs Hz. unfold py_slice, slice_index.
  destruct (Z.ltb_spec start 0) as [|_]; [lia|].
  destruct (Z.ltb_spec (start + size) 0) as [|_]; [lia|].
  destruct (Z.le_gt_cases (Z.of_nat (length s)) start) as [Hout|Hin].
  - rewrite !Z.min_r by lia. rewrite Z.sub_diag.
    rewrite !drop_ge by lia. rewrite !take_nil. reflexivity.
  - rewrite (Z.min_l start) by lia.
    destruct (Z.le_gt_cases (start + size) (Z.of_nat (length s))) as [Hfit|Hcut].
    + rewrite Z.min_l by lia. f_equal. lia.
    + rewrite Z.min_r by lia.
      rewrite !take_ge; [reflexivity | rewrite length_drop; lia..].
Qed.

(** The loop ends when it advances, and keeps what holds of every stripped
    window. *)
Lemma chunk_loop_ends (P : str -> Prop) text chunk_size overlap :
  (0 < chunk_size)%Z -> (overlap < chunk_size)%Z ->
  (forall x, nonempty (strip x) = true -> length x <= Z.to_nat chunk_size -> P (strip x)) ->
  forall fuel start chunks,
    (0 <= start)%Z -> (Z.of_nat (length text) - start <= Z.of_nat fuel)%Z ->
    Forall P chunks ->
    exists chunks',
      chunk_loop fuel text chunk_size overlap start chunks = Some chunks' /\
      Forall P chunks' /\
      forall more, chunk_loop (fuel + more) text chunk_size overlap start chunks =
                     Some chunks'.
Proof.
  intros Hsize Hstep HP. induction fuel as [|fuel IH]; intros start chunks Hs Hfuel Hc.
  - exists chunks. cbn [chunk_loop].
    destruct (Z.ltb_spec start (Z.of_nat (length text))); [lia|].
    split; [reflexivity|]. split; [exact Hc|].
    intros more. destruct more; cbn [Nat.add chunk_loop];
      destruct (Z.ltb_spec start (Z.of_nat (length text))); try lia; reflexivity.
  - cbn [chunk_loop Nat.add].
    destruct (Z.ltb_spec start (Z.of_nat (length text))).
    + apply IH; [lia | lia |].
      apply Forall_append_if; [exact Hc|]. intros Hne. apply HP; [exact Hne|].
      rewrite py_slice_window by lia. rewrite length_take. lia.
    + exists chunks. split; [reflexivity|]. split; [exact Hc|]. reflexivity.
Qed.

(** When the chunk size is positive and larger than the overlap,
    [_chunk_text] returns, within as many rounds as the stripped text has
    characters; every chunk is a non-empty text without white space at its
    ends and has at most [chunk_size] characters; a blank text gives no
    chunk. *)
Theorem chunk_text_returns (text : str) (chunk_size overlap : Z) :
  (0 < chunk_size)%Z -> (overlap < chunk_size)%Z ->
  exists chunks,
    (forall fuel, length (strip text) <= fuel ->
       _chunk_text fuel text chunk_size overlap = Some chunks) /\
    Forall (fun c => trimmed c /\ (Z.of_nat (length c) <= chunk_size)%Z) chunks /\
    (strip text = [] -> chunks = []).
Proof.
  intros Hsize Hstep. unfold _chunk_text.
  destruct (strip text) as [|c t] eqn:E; cbn [nonempty].
  { exists []. repeat split; constructor. }
  destruct (chunk_loop_ends
              (fun c => trimmed c /\ (Z.of_nat (length c) <= chunk_size)%Z)
              (c :: t) chunk_size overlap Hsize Hstep) with
    (fuel := length (c :: t)) (start := 0%Z) (chunks := @nil str)
    as (chunks & Hrun & Hall & Hmore); [| lia | lia | constructor |].
  { intros x Hne Hlen. split; [apply trimmed_strip, Hne|].
    pose proof (strip_length x). lia. }
  exists chunks. split; [|split; [exact Hall | discriminate]].
  intros fuel Hfuel. replace fuel with (length (c :: t) + (fuel - length (c :: t))) by lia.
  apply Hmore.
Qed.

Lemma chunk_text_returns_witness :
  exists chunks,
    (forall fuel, length (strip (py " one two three ")) <= fuel ->
       _chunk_text fuel (py " one two three ") 8 3 = Some chunks) /\
    Forall (fun c => trimmed c /\ (Z.of_nat (length c) <= 8)%Z) chunks /\
    (strip (py " one two three ") = [] -> chunks = []).
Proof. apply (chunk_text_returns (py " one two three ") 8 3); lia. Defined.

Lemma chunk_loop_never text chunk_size overlap :
  (chunk_size <= overlap)%Z ->
  forall fuel start chunks,
    (start <= 0)%Z -> text <> [] ->
    chunk_loop fuel text chunk_size overlap start chunks = None.
Proof.
  intros Hstep. induction fuel as [|fuel IH]; intros start chunks Hs Hne;
    cbn [chunk_loop];
    (destruct (Z.ltb_spec start (Z.of_nat (length text))) as [_|Hge];
      [|destruct text; [congruence | simpl in Hge; lia]]).
  - reflexivity.
  - apply IH; [lia | exact Hne].
Qed.

(** When the overlap is not smaller than the chunk size, [_chunk_text] on a
    text that is not blank never returns: its loop does not advance. *)
Theorem chunk_text_never_returns (text : str) (chunk_size overlap : Z) (fuel : nat) :
  (chunk_size <= overlap)%Z ->
  nonempty (strip text) = true ->
  _chunk_text fuel text chunk_size overlap = None.
Proof.
  intros Hstep Hne. unfold _chunk_text. rewrite Hne.
  apply chunk_loop_never; [exact Hstep | lia |].
  destruct (strip text); [discriminate | congruence].
Qed.

Lemma chunk_text_never_returns_witness :
  _chunk_text 1000 (py "one two three") 50 50 = None.
Proof.
  apply (chunk_text_never_returns (py "one two three") 50 50 1000); [lia|].
  vm_compute. reflexivity.
Defined.

Lemma chunk_loop_weave text chunk_size :
  (0 < chunk_size)%Z ->
  forall fuel start chunks,
    (0 <= start)%Z -> (Z.of_nat (length text) - start <= Z.of_nat fuel)%Z ->
    weave chunks (take (Z.to_nat start) text) ->
    exists chunks',
      chunk_loop fuel text chunk_size 0 start chunks = Some chunks' /\
      weave chunks' text.
Proof.
  intros Hsize. induction fuel as [|fuel IH]; intros start chunks Hs Hfuel Hw;
    cbn [chunk_loop]; destruct (Z.ltb_spec start (Z.of_nat (length text))); try lia.
  - exists chunks. split; [reflexivity|]. rewrite take_ge in Hw by lia. exact Hw.
  - apply IH; [lia | lia |].
    rewrite py_slice_window by lia.
    replace (Z.to_nat (start + (chunk_size - 0)))
      with (Z.to_nat start + Z.to_nat chunk_size) by lia.
    rewrite <- take_take_drop.
    rewrite <- (app_nil_r (take (Z.to_nat chunk_size) (drop (Z.to_nat start) text))) at 2.
    apply weave_emit_if; [exact Hw | constructor].
  - exists chunks. split; [reflexivity|]. rewrite take_ge in Hw by lia. exact Hw.
Qed.

(** Without overlap, chunking loses nothing but white space: the stripped
    text is the chunks, in order, with white space between them, so its
    characters other than white space are exactly theirs. *)
Theorem chunk_text_without_overlap (text : str) (chunk_size : Z) :
  (0 < chunk_size)%Z ->
  exists chunks,
    _chunk_text (length (strip text)) text chunk_size 0 = Some chunks /\
    weave chunks (strip text) /\
    non_space (concat chunks) = non_space text.
Proof.
  intros Hsize. unfold _chunk_text.
  assert (Hns : non_space (strip text) = non_space text).
  { destruct (strip_split text) as (l & t & Ht & Hl & Hr). rewrite Ht at 2.
    rewrite !non_space_app, (non_space_all_space l Hl), (non_space_all_space t Hr).
    rewrite app_nil_r. reflexivity. }
  destruct (strip text) as [|c t] eqn:E; cbn [nonempty].
  { exists []. split; [reflexivity|]. split; [constructor; constructor | exact Hns]. }
  destruct (chunk_loop_weave (c :: t) chunk_size Hsize (length (c :: t)) 0%Z [])
    as (chunks & Hrun & Hw); [lia | lia | constructor; constructor |].
  exists chunks. split; [exact Hrun|]. split; [exact Hw|].
  rewrite <- Hns. symmetry. apply weave_non_space, Hw.
Qed.

Lemma chunk_text_without_overlap_witness :
  exists chunks,
    _chunk_text (length (strip (py " one two three "))) (py " one two three ") 4 0 =
      Some chunks /\
    weave chunks (strip (py " one two three ")) /\
    non_space (concat chunks) = non_space (py " one two three ").
Proof. apply (chunk_text_without_overlap (py " one two three ") 4). lia. Defined.

(** ** [list_documents] *)

Lemma has_doc_In did docs :
  has_doc did docs = true <-> In did (List.map entry_doc_id docs).
Proof.
  unfold has_doc. rewrite existsb_exists, in_map_iff. split.
  - intros (d & Hin & Heq). apply str_eqb_eq in Heq. eauto.
  - intros (d & Heq & Hin). exists d. split; [exact Hin | apply str_eqb_eq, Heq].
Qed.

Lemma chunks_of_snoc session_id did seen meta :
  chunks_of session_id did (seen ++ [meta]) =
    chunks_of session_id did seen ++
    (if in_session session_id meta &&
        match meta_doc_id meta with Some d => str_eqb d did | None => false end
     then [meta] else []).
Proof. unfold chunks_of. rewrite List.filter_app. reflexivity. Qed.

Lemma pages_of_snoc l meta :
  pages_of (l ++ [meta]) =
    if (0 <=? page_of meta)%Z then {[ page_of meta ]} ∪ pages_of l else pages_of l.
Proof.
  unfold pages_of. rewrite List.map_app, List.filter_app, list_to_set_app_L.
  cbn [List.map List.filter]. destruct (0 <=? page_of meta)%Z; cbn [list_to_set].
  - rewrite (right_id_L ∅ (∪)). apply (comm_L (∪)).
  - apply (right_id_L ∅ (∪)).
Qed.

Lemma update_doc_ids did meta docs :
  List.map entry_doc_id (update_doc did (count_chunk meta) docs) =
    List.map entry_doc_id docs.
Proof.
  unfold update_doc. rewrite List.map_map. apply List.map_ext.
  intros d. destruct (str_eqb (entry_doc_id d) did); reflexivity.
Qed.

Lemma str_eqb_neq a b : str_eqb a b = false <-> a <> b.
Proof.
  split.
  - intros H Heq. apply str_eqb_eq in Heq. congruence.
  - intros H. destruct (str_eqb a b) eqn:E; [|reflexivity].
    apply str_eqb_eq in E. congruence.
Qed.

Lemma docs_loop_spec session_id metas : forall seen docs,
  (forall meta, In meta metas -> in_session session_id meta = true ->
     meta_doc_id meta <> None /\ meta_filename meta <> None) ->
  counted session_id seen docs ->
  exists docs',
    docs_loop session_id metas docs = Some docs' /\
    counted session_id (seen ++ metas) docs'.
Proof.
  induction metas as [|meta rest IH]; intros seen docs Hwf Hc.
  - exists docs. rewrite app_nil_r. split; [reflexivity | exact Hc].
  - assert (Hrest : forall m, In m rest -> in_session session_id m = true ->
               meta_doc_id m <> None /\ meta_filename m <> None)
      by (intros m Hm; apply Hwf; right; exact Hm).
    replace (seen ++ meta :: rest) with ((seen ++ [meta]) ++ rest)
      by (rewrite <- app_assoc; reflexivity).
    cbn [docs_loop]. destruct Hc as (Hnd & Hids & Hcount).
    destruct (in_session session_id meta) eqn:Es; cbn [negb].
    2: { apply IH; [exact Hrest|]. split; [exact Hnd|]. split.
         - intros did. rewrite chunks_of_snoc, Es, app_nil_r. apply Hids.
         - intros d Hd. rewrite chunks_of_snoc, Es, app_nil_r. apply Hcount, Hd. }
    destruct (Hwf meta (or_introl eq_refl) Es) as [Hdid Hfn].
    destruct (meta_doc_id meta) as [did|] eqn:Edid; [|congruence].
    assert (Hsnoc : forall did',
              chunks_of session_id did' (seen ++ [meta]) =
                chunks_of session_id did' seen ++
                  (if str_eqb did did' then [meta] else [])).
    { intros did'. rewrite chunks_of_snoc, Es, Edid. reflexivity. }
    destruct (has_doc did docs) eqn:Ehas.
    + apply IH; [exact Hrest|]. split; [|split].
      * rewrite update_doc_ids. exact Hnd.
      * intros did'. rewrite update_doc_ids, Hsnoc. rewrite Hids.
        destruct (str_eqb did did') eqn:E; [|rewrite app_nil_r; reflexivity].
        apply str_eqb_eq in E. subst did'. apply has_doc_In, Hids in Ehas.
        split; [intros _; destruct (chunks_of session_id did seen); discriminate
               | intros _; exact Ehas].
      * intros d' Hd'. unfold update_doc in Hd'. apply in_map_iff in Hd' as (d & <- & Hd).
        destruct (Hcount d Hd) as [Hn Hp]. rewrite Hsnoc.
        destruct (str_eqb (entry_doc_id d) did) eqn:E.
        -- apply str_eqb_eq in E. cbn [count_chunk entry_doc_id entry_chunks entry_pages].
           rewrite E. replace (str_eqb did did) with true
             by (symmetry; apply str_eqb_eq; reflexivity).
           rewrite length_app, pages_of_snoc. cbn [length]. rewrite E in Hn, Hp.
           rewrite Hn, Hp. split; [lia | reflexivity].
        -- apply str_eqb_neq in E.
           replace (str_eqb did (entry_doc_id d)) with false
             by (symmetry; apply str_eqb_neq; congruence).
           rewrite app_nil_r. split; assumption.
    + destruct (meta_filename meta) as [fname|]; [|congruence].
      assert (Hnew : ~ In did (List.map entry_doc_id docs)).
      { intros Hin. apply has_doc_In in Hin. congruence. }
      assert (Hnone : chunks_of session_id did seen = []).
      { destruct (chunks_of session_id did seen) eqn:E; [reflexivity|].
        exfalso. apply Hnew, Hids. rewrite E. discriminate. }
      apply IH; [exact Hrest|]. split; [|split].
      * rewrite List.map_app. cbn [List.map count_chunk entry_doc_id].
        apply NoDup_app. split; [exact Hnd|]. split; [|apply NoDup_singleton].
        intros x Hx Hx'. apply list_elem_of_singleton in Hx'. subst x.
        apply Hnew. apply list_elem_of_In. exact Hx.
      * intros did'. rewrite List.map_app, in_app_iff, Hsnoc, Hids.
        cbn [List.map count_chunk entry_doc_id In].
        destruct (str_eqb did did') eqn:E.
        -- apply str_eqb_eq in E. subst did'. split; [|tauto].
           intros _. destruct (chunks_of session_id did seen); discriminate.
        -- apply str_eqb_neq in E. rewrite app_nil_r. tauto.
      * intros d Hd. apply in_app_iff in Hd as [Hd|[<-|[]]].
        -- destruct (Hcount d Hd) as [Hn Hp]. rewrite Hsnoc.
           replace (str_eqb did (entry_doc_id d)) with false.
           ++ rewrite app_nil_r. split; assumption.
           ++ symmetry. apply str_eqb_neq. intros ->. apply Hnew.
              apply in_map. exact Hd.
        -- cbn [count_chunk entry_doc_id entry_chunks entry_pages].
           rewrite Hsnoc, Hnone.
           replace (str_eqb did did) with true
             by (symmetry; apply str_eqb_eq; reflexivity).
           cbn [app length]. change [meta] with ([] ++ [meta]).
           rewrite pages_of_snoc. split; [reflexivity|].
           destruct (0 <=? page_of meta)%Z; reflexivity.
Qed.

(** When every chunk of the session asked for has a document id and a file
    name, [list_documents] returns; it lists a document exactly when it has
    a chunk in that session, and each document once; the number of chunks
    of an entry is the number of these chunks, and its page count is the
    number of their distinct page numbers that are not negative. *)
Theorem list_documents_counts (session_id : option str) (metas : list metadata) :
  (forall meta, In meta metas -> in_session session_id meta = true ->
     meta_doc_id meta <> None /\ meta_filename meta <> None) ->
  exists result,
    rag_list_documents session_id metas = Some result /\
    NoDup (List.map listed_doc_id result) /\
    (forall did, In did (List.map listed_doc_id result) <->
                 chunks_of session_id did metas <> []) /\
    Forall (fun d =>
       listed_chunks d = length (chunks_of session_id (listed_doc_id d) metas) /\
       listed_page_count d = size (pages_of (chunks_of session_id (listed_doc_id d) metas)))
      result.
Proof.
  intros Hwf. unfold rag_list_documents.
  destruct (docs_loop_spec session_id metas [] [] Hwf) as (docs & -> & Hnd & Hids & Hcount).
  { split; [constructor|]. split; [|intros d []].
    intros did. cbn. tauto. }
  cbn [app] in *. eexists. split; [reflexivity|].
  rewrite List.map_map. cbn [to_listed listed_doc_id].
  split; [exact Hnd|]. split; [exact Hids|].
  apply List.Forall_forall. intros l Hl. apply in_map_iff in Hl as (d & <- & Hd).
  cbn [to_listed listed_chunks listed_page_count listed_doc_id].
  destruct (Hcount d Hd) as [-> ->]. split; reflexivity.
Qed.

Lemma list_documents_counts_witness :
  exists result,
    rag_list_documents (Some (py "s1")) sample_metas = Some result /\
    NoDup (List.map listed_doc_id result) /\
    (forall did, In did (List.map listed_doc_id result) <->
                 chunks_of (Some (py "s1")) did sample_metas <> []) /\
    Forall (fun d =>
       listed_chunks d = length (chunks_of (Some (py "s1")) (listed_doc_id d) sample_metas) /\
       listed_page_count d =
         size (pages_of (chunks_of (Some (py "s1")) (listed_doc_id d) sample_metas)))
      result.
Proof.
  apply (list_documents_counts (Some (py "s1")) sample_metas).
  intros meta Hin _. unfold sample_metas in Hin.
  repeat (destruct Hin as [Hin|Hin]; [subst meta; split; discriminate|]).
  destruct Hin.
Defined.

(** ** What is spoken *)

Lemma non_space_snoc_space w : non_space (w ++ py " ") = non_space w.
Proof. rewrite non_space_app. cbn. apply app_nil_r. Qed.

Lemma split_ws_aux_non_space s : forall cur,
  non_space (concat (List.map (fun w => w ++ py " ") (split_ws_aux cur s))) =
    non_space (rev cur) ++ non_space s.
Proof.
  induction s as [|c s IH]; intros cur; cbn [split_ws_aux].
  - change (non_space []) with (@nil char). rewrite app_nil_r.
    destruct cur as [|x cur]; cbn [nonempty List.map concat]; [reflexivity|].
    rewrite app_nil_r, non_space_snoc_space. reflexivity.
  - unfold non_space at 3. cbn [List.filter]. fold (non_space s).
    destruct (is_space c) eqn:Ec; cbn [negb].
    + destruct cur as [|x cur]; cbn [nonempty List.map concat].
      * apply (IH []).
      * rewrite non_space_app, non_space_snoc_space, (IH []). reflexivity.
    + rewrite IH. cbn [rev]. rewrite non_space_app, <- app_assoc.
      unfold non_space at 2. cbn [List.filter]. rewrite Ec. reflexivity.
Qed.

(** The words of a text, each followed by a space, have its characters
    other than white space. *)
Lemma split_ws_non_space s :
  non_space (concat (List.map (fun w => w ++ py " ") (split_ws s))) = non_space s.
Proof. apply (split_ws_aux_non_space s []). Qed.

Lemma same_spoken_refl w : same_spoken w w.
Proof. reflexivity. Qed.

Lemma same_spoken_trans w1 w2 w3 :
  same_spoken w1 w2 -> same_spoken w2 w3 -> same_spoken w1 w3.
Proof. unfold same_spoken. congruence. Qed.

Lemma synthesized_app a b : synthesized (a ++ b) = synthesized a ++ synthesized b.
Proof. apply flat_map_app. Qed.

Lemma sp_tell e : synthesized [e] = [] -> keeps same_spoken (tell e).
Proof.
  intros He w. unfold same_spoken, tell. cbn [snd trace].
  rewrite synthesized_app, He. apply app_nil_r.
Qed.

Lemma sp_now `{S : Services} : keeps same_spoken now.
Proof. intros w. reflexivity. Qed.

Lemma sp_new_uuid `{S : Services} : keeps same_spoken new_uuid.
Proof. intros w. reflexivity. Qed.

Lemma sp_with_sessions f : keeps same_spoken (with_sessions f).
Proof. intros w. reflexivity. Qed.

(** Steps through a computation that synthesizes nothing. *)
Ltac sp_step :=
  first
    [ apply (keeps_ret _ same_spoken_refl)
    | apply (keeps_read_sessions _ same_spoken_refl)
    | apply sp_tell; reflexivity
    | apply sp_now
    | apply sp_new_uuid
    | apply sp_with_sessions
    | apply (keeps_when _ same_spoken_refl)
    | apply (keeps_for_each _ same_spoken_refl same_spoken_trans); intros
    | apply (keeps_bind _ same_spoken_trans); [|intros]
    | match goal with
      | |- keeps same_spoken (match ?x with _ => _ end) => destruct x
      | |- keeps same_spoken (let '(_, _) := ?x in _) => destruct x
      | |- keeps same_spoken (if ?x then _ else _) => destruct x
      end ].

Lemma spoken_after {A} (m : M A) w :
  keeps same_spoken m -> synthesized (trace (snd (m w))) = synthesized (trace w).
Proof. intros H. apply H. Qed.

Lemma spoke_nil w w' : same_spoken w w' -> spoke [] w w'.
Proof. intros H. unfold spoke. rewrite app_nil_r. exact H. Qed.

Lemma spoke_trans a b w1 w2 w3 : spoke a w1 w2 -> spoke b w2 w3 -> spoke (a ++ b) w1 w3.
Proof. unfold spoke. intros H1 H2. rewrite H2, H1, app_assoc. reflexivity. Qed.

Lemma spoke_quiet_l l w1 w2 w3 : same_spoken w1 w2 -> spoke l w2 w3 -> spoke l w1 w3.
Proof. unfold spoke, same_spoken. intros H1 H2. rewrite H2, H1. reflexivity. Qed.

Lemma spoke_quiet_r l w1 w2 w3 : spoke l w1 w2 -> same_spoken w2 w3 -> spoke l w1 w3.
Proof. unfold spoke, same_spoken. intros H1 H2. rewrite H2, H1. reflexivity. Qed.

Section Spoken.
Context `{U : Unicode} `{S : Services}.
Variable self : PipelineOrchestrator.

Lemma sp_try_direct_page_read query :
  keeps same_spoken (_try_direct_page_read self query).
Proof. unfold _try_direct_page_read, _fetch_page. repeat sp_step. Qed.

Lemma sp_build_context query : keeps same_spoken (_build_context self query).
Proof. unfold _build_context, orch_rag_enabled. repeat sp_step. Qed.

Lemma sp_get_history : keeps same_spoken (_get_history self).
Proof. unfold _get_history. repeat sp_step. Qed.

Lemma sp_commit user_text assistant_text :
  keeps same_spoken (commit self user_text assistant_text).
Proof. unfold commit, _append_history. repeat sp_step. Qed.

(** The sentences and the rest of the buffer after the fragments are the
    fragments, woven with white space. *)
Lemma feed_flush_weave tokens buf outs :
  feed new_buffer tokens = Some (buf, outs) ->
  weave (outs ++ option_list (snd (flush buf))) (concat tokens).
Proof.
  intros Hfeed.
  destruct (feed_spec tokens [] [] new_buffer) as (buf' & outs' & Hfeed' & Hacc).
  { exists []. split; [constructor; constructor | reflexivity]. }
  rewrite Hfeed in Hfeed'. injection Hfeed' as <- <-.
  destruct Hacc as (text & Hw & Hin). simpl in Hw, Hin.
  rewrite app_nil_r in Hw. rewrite Hin. unfold flush. simpl.
  destruct (strip (_buffer buf)) as [|c r] eqn:E; simpl.
  - rewrite app_nil_r. destruct (strip_split (_buffer buf)) as (l & t & Hb & Hl & Ht).
    rewrite E in Hb. simpl in Hb. rewrite Hb.
    apply weave_app_space; [exact Hw | apply all_space_app; assumption].
  - rewrite <- E. rewrite <- (app_nil_r (_buffer buf)) at 2.
    apply weave_emit; [exact Hw | constructor].
Qed.

Lemma feed_returns tokens : forall buf, exists buf' outs, feed buf tokens = Some (buf', outs).
Proof.
  induction tokens as [|token rest IH]; intros buf; cbn [feed]; [eauto|].
  destruct (add_returns buf token) as ([buf1 out] & ->).
  destruct (IH buf1) as (buf2 & outs & ->). eauto.
Qed.

Lemma speak_spoke audio_chunk_callback sentence chunk_index w :
  spoke [sentence] w (snd (speak audio_chunk_callback sentence chunk_index w)).
Proof.
  unfold speak. rewrite bind_unfold.
  apply (spoke_quiet_r _ _ (snd (tell (ESynthesize sentence) w))).
  - unfold spoke. cbn [tell snd trace]. rewrite synthesized_app. reflexivity.
  - destruct (synthesize sentence) as [wav|]; [|reflexivity].
    rewrite bind_unfold. cbn [ret snd].
    apply (keeps_when _ same_spoken_refl). apply sp_tell. reflexivity.
Qed.

Lemma speak_all_spoke audio_chunk_callback sentences : forall chunk_index w,
  spoke sentences w (snd (speak_all audio_chunk_callback sentences chunk_index w)).
Proof.
  induction sentences as [|s l IH]; intros chunk_index w; cbn [speak_all].
  - apply spoke_nil. reflexivity.
  - rewrite bind_unfold.
    apply (spoke_trans [s] l _ _ _ (speak_spoke audio_chunk_callback s chunk_index w)), IH.
Qed.

(** The loop over the words of a page, without cancellation flag: the
    sentences of the buffer are synthesized as they come. *)
Lemma speak_words_spoke audio_chunk_callback words : forall n buf chunk_index w buf' outs,
  feed buf (List.map (fun x => x ++ py " ") words) = Some (buf', outs) ->
  fst (fst (speak_words None audio_chunk_callback words n buf chunk_index w)) = buf' /\
  spoke outs w (snd (speak_words None audio_chunk_callback words n buf chunk_index w)).
Proof.
  induction words as [|word rest IH]; intros n buf chunk_index w buf' outs Hfeed;
    cbn [speak_words List.map feed] in *.
  - injection Hfeed as <- <-. split; [reflexivity | apply spoke_nil; reflexivity].
  - rewrite bind_unfold. cbn [cancelled ret fst snd]. unfold buf_add.
    destruct (add buf (word ++ py " ")) as [[buf1 out]|]; [|discriminate].
    destruct (feed buf1 (List.map (fun x => x ++ py " ") rest)) as [[buf2 outs2]|] eqn:E;
      [|discriminate].
    injection Hfeed as <- <-. rewrite bind_unfold.
    destruct (IH (Datatypes.S n) buf1
                (fst (speak_all audio_chunk_callback out chunk_index w))
                (snd (speak_all audio_chunk_callback out chunk_index w)) buf2 outs2 E)
      as [Hb Hs].
    split; [exact Hb|]. eapply spoke_trans; [apply speak_all_spoke | exact Hs].
Qed.

Lemma speak_page_spoke audio_chunk_callback full_response w :
  exists spoken,
    spoke spoken w (snd (speak_page None audio_chunk_callback full_response w)) /\
    non_space (concat spoken) = non_space full_response.
Proof.
  destruct (feed_returns (List.map (fun x => x ++ py " ") (split_ws full_response))
              new_buffer) as (buf' & outs & Hfeed).
  exists (outs ++ option_list (snd (flush buf'))). split.
  - unfold speak_page. rewrite bind_unfold.
    destruct (speak_words_spoke audio_chunk_callback (split_ws full_response) 0
                new_buffer 0 w buf' outs Hfeed) as [Hb Hs].
    destruct (speak_words None audio_chunk_callback (split_ws full_response) 0
                new_buffer 0 w) as [[buf k] w1]. cbn [fst snd] in *. subst buf.
    destruct (snd (flush buf')) as [remaining|]; cbn [option_list].
    + eapply spoke_trans; [exact Hs|]. rewrite bind_unfold.
      apply (spoke_quiet_r _ _ (snd (tell (ESynthesize remaining) w1))).
      * unfold spoke. cbn [tell snd trace]. rewrite synthesized_app. reflexivity.
      * destruct (synthesize remaining) as [wav|]; [|reflexivity].
        rewrite bind_unfold. cbn [ret snd].
        apply (keeps_when _ same_spoken_refl). apply sp_tell. reflexivity.
    + rewrite app_nil_r. exact Hs.
  - rewrite <- (weave_non_space _ _ (feed_flush_weave _ _ _ Hfeed)).
    apply split_ws_non_space.
Qed.

(** The producer without cancellation flag: the queue holds the sentences
    of the fragments, the rest of the buffer and the end marker, and the
    response is the fragments put together. *)
Lemma produce_sentences_queue tokens :
  forall n buf full_response first_token_time w buf' outs,
  feed buf tokens = Some (buf', outs) ->
  let run := produce_sentences None tokens n buf full_response first_token_time w in
  fst (fst (fst run)) = List.map Some (outs ++ option_list (snd (flush buf'))) ++ [None] /\
  snd (fst (fst run)) = full_response ++ concat tokens /\
  same_spoken w (snd run).
Proof.
  induction tokens as [|token rest IH];
    intros n buf full_response first_token_time w buf' outs Hfeed;
    cbv zeta; cbn [produce_sentences feed] in *.
  - injection Hfeed as <- <-. rewrite bind_unfold. cbn [ret fst snd concat app].
    rewrite app_nil_r. split; [|split; [reflexivity|]].
    + destruct (snd (flush buf)); reflexivity.
    + apply (keeps_for_each _ same_spoken_refl same_spoken_trans).
      intros item. apply sp_tell. reflexivity.
  - rewrite bind_unfold. cbn [cancelled ret fst snd]. rewrite bind_unfold. unfold buf_add.
    destruct (add buf token) as [[buf1 out]|]; [|discriminate].
    destruct (feed buf1 rest) as [[buf2 outs2]|] eqn:E; [|discriminate].
    injection Hfeed as <- <-. rewrite !bind_unfold.
    match goal with |- context [produce_sentences None rest ?n' buf1 ?f ?t ?w0] =>
      pose proof (IH n' buf1 f t w0 buf2 outs2 E) as (Hq & Hf & Hs);
      destruct (produce_sentences None rest n' buf1 f t w0) as [[[queue f'] t'] w1] end.
    cbn [fst snd ret] in *. subst queue f'.
    split; [|split].
    + rewrite <- app_assoc, !List.map_app, <- !app_assoc. reflexivity.
    + cbn [concat]. rewrite app_assoc. reflexivity.
    + eapply same_spoken_trans; [|exact Hs].
      assert (Hput : forall w0, same_spoken w0
                (snd (for_each out (fun s => tell (EPut (Some s))) w0))).
      { intros w0. apply (keeps_for_each _ same_spoken_refl same_spoken_trans).
        intros item. apply sp_tell. reflexivity. }
      destruct first_token_time as [t0|]; [apply Hput|].
      rewrite bind_unfold. cbn [ret snd].
      eapply same_spoken_trans; [apply (sp_now w) | apply Hput].
Qed.

(** The consumer without cancellation flag synthesizes what it finds on
    the queue up to the end marker. *)
Lemma consume_sentences_spoke status_callback audio_chunk_callback sentences rest :
  forall n chunk_index first_chunk_time w,
  let run := consume_sentences None status_callback audio_chunk_callback
               (List.map Some sentences ++ None :: rest) n chunk_index first_chunk_time w in
  snd (fst run) = true /\ spoke sentences w (snd run).
Proof.
  induction sentences as [|s l IH]; intros n chunk_index first_chunk_time w;
    cbv zeta; cbn [List.map app consume_sentences].
  - split; [reflexivity | apply spoke_nil; reflexivity].
  - rewrite bind_unfold. cbn [cancelled ret fst snd]. rewrite !bind_unfold.
    assert (Hhead : spoke [s]
              w (snd (tell (ESynthesize s)
                        (snd (when (status_callback && (chunk_index =? 0))
                                (tell (EStatus (py "speaking"))) w))))).
    { apply (spoke_quiet_l _ w (snd (when (status_callback && (chunk_index =? 0))
                                       (tell (EStatus (py "speaking"))) w))).
      - apply (keeps_when _ same_spoken_refl). apply sp_tell. reflexivity.
      - unfold spoke. cbn [tell snd trace]. rewrite synthesized_app. reflexivity. }
    destruct (synthesize s) as [wav|].
    + rewrite !bind_unfold.
      match goal with |- context [consume_sentences None _ _ _ ?n' ?k ?t ?w0] =>
        destruct (IH n' k t w0) as [He Hs] end.
      split; [exact He|]. change (s :: l) with ([s] ++ l).
      eapply spoke_trans; [|exact Hs].
      eapply spoke_quiet_r; [exact Hhead|].
      assert (Hcb : forall k w0, same_spoken w0
                (snd (when audio_chunk_callback (tell (EAudioChunk wav k)) w0))).
      { intros k w0. apply (keeps_when _ same_spoken_refl). apply sp_tell. reflexivity. }
      destruct first_chunk_time as [t0|]; [apply Hcb|].
      rewrite bind_unfold. cbn [ret snd fst].
      eapply same_spoken_trans; [|apply Hcb].
      match goal with |- same_spoken ?w0 _ => apply (sp_now w0) end.
    + match goal with |- context [consume_sentences None _ _ _ ?n' ?k ?t ?w0] =>
        destruct (IH n' k t w0) as [He Hs] end.
      split; [exact He|]. change (s :: l) with ([s] ++ l).
      eapply spoke_trans; [exact Hhead | exact Hs].
Qed.
End Spoken.

Section SpokenResponse.
Context `{U : Unicode} `{S : Services}.
Variable self : PipelineOrchestrator.

Ltac sp_known :=
  first
    [ apply sp_now | apply sp_new_uuid | apply sp_try_direct_page_read
    | apply sp_build_context | apply sp_get_history | apply sp_commit
    | apply sp_tell; reflexivity
    | apply (keeps_when _ same_spoken_refl); apply sp_tell; reflexivity ].

Ltac sp_world :=
  unfold same_spoken;
  repeat match goal with
         | |- context [synthesized (trace (snd (?m ?w)))] =>
             rewrite (spoken_after m w) by sp_known
         end;
  try reflexivity.

Ltac spoke_end :=
  repeat match goal with
         | |- spoke _ _ (snd (?m ?w0)) =>
             apply (spoke_quiet_r _ _ w0 (snd (m w0)));
             [|apply (spoken_after m w0); sp_known]
         end.

Lemma spoken_texts_of_run audio status_callback audio_chunk_callback
    transcript_callback w :
  nonempty (strip (fst (transcribe_bytes audio))) = true ->
  match fst (process_voice_stream self audio status_callback audio_chunk_callback
               transcript_callback None w) with
  | Return r =>
      exists spoken,
        spoke spoken w
          (snd (process_voice_stream self audio status_callback audio_chunk_callback
                  transcript_callback None w)) /\
        non_space (concat spoken) = non_space (stream_response_text r)
  | _ => False
  end.
Proof.
  intros Hne. unfold process_voice_stream. rewrite !bind_unfold.
  destruct (transcribe_bytes audio) as [heard duration]. cbn [fst] in Hne.
  rewrite !bind_unfold, Hne. cbn [negb]. rewrite !bind_unfold.
  match goal with |- context [fst (_try_direct_page_read self heard ?w0)] =>
    destruct (fst (_try_direct_page_read self heard w0)) as [[text cited]|] end.
  - run_binds. cbn [stream_response_text].
    match goal with |- context [speak_page None audio_chunk_callback text ?w0] =>
      destruct (speak_page_spoke audio_chunk_callback text w0) as (spoken & Hs & Hn) end.
    exists spoken. split; [|exact Hn].
    spoke_end. eapply spoke_quiet_l; [|exact Hs]. sp_world.
  - run_binds.
    match goal with |- context [fst (_build_context ?o ?q ?w0)] =>
      destruct (fst (_build_context o q w0)) as [context cited] end.
    run_binds.
    match goal with |- context [produce_sentences None ?t ?n ?b ?f ?x ?w0] =>
      destruct (feed_returns t b) as (buf' & outs & Hfeed);
      pose proof (produce_sentences_queue t n b f x w0 buf' outs Hfeed) as Hp;
      pose proof (feed_flush_weave t buf' outs Hfeed) as Hweave;
      destruct (produce_sentences None t n b f x w0) as [[[queue full_response] ftt] w1]
    end.
    cbv zeta in Hp. cbn [fst snd] in Hp. destruct Hp as (-> & -> & Hquiet).
    cbn [fst snd]. run_binds.
    match goal with |- context [consume_sentences None ?s ?a (_ ++ [None]) ?n ?k ?x ?w0] =>
      pose proof (consume_sentences_spoke s a (outs ++ option_list (snd (flush buf')))
                    [] n k x w0) as Hc;
      destruct (consume_sentences None s a
                  (List.map Some (outs ++ option_list (snd (flush buf'))) ++ [None])
                  n k x w0) as [[[k' fct] ended] w2]
    end.
    cbv zeta in Hc. cbn [fst snd] in Hc. destruct Hc as (-> & Hs).
    cbn [fst snd]. run_binds. cbn [stream_response_text app].
    exists (outs ++ option_list (snd (flush buf'))). split.
    + spoke_end. eapply spoke_quiet_l; [|exact Hs].
      eapply same_spoken_trans; [|exact Hquiet]. sp_world.
    + symmetry. apply weave_non_space, Hweave.
Qed.

(** Without cancellation flag, [process_voice_stream] returns, and what it
    has synthesized, sentence by sentence, is the response it returns and
    records: the texts handed to the synthesis, in order, have exactly the
    characters of the response other than white space, each once and in
    the same order. *)
Theorem stream_speaks_response (audio : bytes)
    (status_callback audio_chunk_callback transcript_callback : bool) (w : world) :
  nonempty (strip (fst (transcribe_bytes audio))) = true ->
  let run := process_voice_stream self audio status_callback audio_chunk_callback
               transcript_callback None w in
  exists r spoken,
    fst run = Return r /\
    synthesized (trace (snd run)) = synthesized (trace w) ++ spoken /\
    non_space (concat spoken) = non_space (stream_response_text r).
Proof.
  intros Hne. cbv zeta.
  pose proof (spoken_texts_of_run audio status_callback audio_chunk_callback
                transcript_callback w Hne) as H.
  destruct (fst (process_voice_stream self audio status_callback audio_chunk_callback
                   transcript_callback None w)) as [r| |]; try contradiction.
  destruct H as (spoken & Hs & Hn). exists r, spoken. split; [reflexivity|].
  split; [exact Hs | exact Hn].
Qed.
End SpokenResponse.

Lemma stream_speaks_response_witness :
  let run := process_voice_stream (U := ascii_db) (S := chat_services)
               (new_orchestrator (py "s1")) [] true true true None (start_world true) in
  exists r spoken,
    fst run = Return r /\
    synthesized (trace (snd run)) = synthesized (trace (start_world true)) ++ spoken /\
    non_space (concat spoken) = non_space (stream_response_text r).
Proof.
  apply (stream_speaks_response (U := ascii_db) (S := chat_services)
           (new_orchestrator (py "s1")) [] true true true (start_world true)).
  vm_compute. reflexivity.
Defined.

Lemma direct_answer_page_text_witness :
  exists page_num doc_hint doc pg,
    _detect_page_request (U := ascii_db) (py "read page 1") = Some (page_num, doc_hint) /\
    In doc (list_documents (Services := one_page_services (py "a.pdf")) (py "s1")) /\
    get_page (Services := one_page_services (py "a.pdf")) (document_doc_id doc) page_num =
      Some pg /\
    [ {| filename := py "a.pdf"; page_number := Some 1%Z; doc_id := py "d1" |} ] =
      [ {| filename := page_filename pg; page_number := Some (Z.of_N page_num);
           doc_id := page_doc_id pg |} ] /\
    (contains [10%N] (page_filename pg) = false -> py "Hello world" = page_text pg).
Proof.
  apply (direct_answer_page_text (U := ascii_db) (S := one_page_services (py "a.pdf"))
           (new_orchestrator (py "s1")) (py "read page 1") (py "Hello world")
           [ {| filename := py "a.pdf"; page_number := Some 1%Z; doc_id := py "d1" |} ]).
  vm_compute. reflexivity.
Defined.
